(** * file-watcher-backup: a shallow embedding of the backup pipeline

    The program under study:
    - [Utils]   : utils/errors.go    (BackupError, IsRetryable, RetryWithBackoff, SafeCopyFile)
    - [Backup]  : watcher/backup.go  (BackupManager.CreateBackup, cleanOldVersions)
    - [Config]  : config/config.go   (Config, NewConfig)
    - [Watcher] : watcher/watcher.go (handleEvent, enqueueBackup, shouldIgnore)

    What it calls:
    - [Strs], [Filepath], [GoTime] : the functions of Go's strings,
      path/filepath (Unix) and time packages that the program uses;
    - [OS] : the file system, the clock and the console as a state.

    Go's [int] and [time.Duration] are 64-bit signed integers; they are
    modelled as [Z] with the wrap-around of the arithmetic written out.
    The properties follow the definitions, module by module. *)

From Stdlib Require Import ZArith Lia Bool List Ascii String DecimalString Sorted.
From stdpp Require Import base option list strings gmap.

Local Open Scope Z_scope.

(** ** Machine integers *)

Definition wrap64 (z : Z) : Z := (z + 2 ^ 63) mod 2 ^ 64 - 2 ^ 63.

Definition inInt64 (z : Z) : Prop := - 2 ^ 63 <= z < 2 ^ 63.

(** [%d] of fmt.Sprintf / fmt.Errorf. *)
Definition formatInt (z : Z) : string := NilZero.string_of_int (Z.to_int z).

(** ** Errors (package errors, os, fmt and utils/errors.go) *)

(** The sentinel an [errors.Is] test can recognise in a leaf error:
    [os.ErrPermission], [os.ErrNotExist], or neither. *)
Inductive errkind := KPermission | KNotExist | KOther.

Global Instance errkind_eq_dec : EqDecision errkind.
Proof. solve_decision. Defined.

(** Go error values.  [Errno] is a leaf (a syscall error number or one of the
    [os] sentinels) with the sentinel it answers to under [errors.Is];
    [ErrorString] is [errors.New]; [PathError] is [*fs.PathError], which
    unwraps to its cause; [Wrapf] is [fmt.Errorf("<prefix>: %w", err)] and
    [WrapfNil] the same call with a nil operand; [BackupError] is the struct of utils/errors.go, which
    has an [Error] method and no [Unwrap] method. *)
Inductive error :=
| Errno (k : errkind) (msg : string)
| ErrorString (msg : string)
| PathError (op path : string) (err : error)
| Wrapf (prefix : string) (err : error)
| WrapfNil (prefix : string)
| BackupError (FilePath Operation : string) (Err : error) (Retryable : bool).

Definition ErrPermission : error := Errno KPermission "permission denied".
Definition ErrNotExist : error := Errno KNotExist "file does not exist".
Definition EOF : error := ErrorString "EOF".

(** The [Error() string] method. *)
Fixpoint Error (e : error) : string :=
  match e with
  | Errno _ msg => msg
  | ErrorString msg => msg
  | PathError op path err => op +:+ " " +:+ path +:+ ": " +:+ Error err
  | Wrapf prefix err => prefix +:+ ": " +:+ Error err
  | WrapfNil prefix => prefix +:+ ": %!w(<nil>)"
  | BackupError path op err _ =>
      "backup error [" +:+ op +:+ "] " +:+ path +:+ ": " +:+ Error err
  end.

(** [errors.Is(err, target)] for a sentinel target: walk the [Unwrap] chain. *)
Fixpoint errorsIs (k : errkind) (e : error) : bool :=
  match e with
  | Errno k' _ => bool_decide (k' = k)
  | ErrorString _ => false
  | PathError _ _ err => errorsIs k err
  | Wrapf _ err => errorsIs k err
  | WrapfNil _ => false
  | BackupError _ _ _ _ => false
  end.

(** [errors.As(err, &backupErr)] with [backupErr : *BackupError]: the first
    [BackupError] on the [Unwrap] chain; only its [Retryable] field is read. *)
Fixpoint errorsAsBackupError (e : error) : option bool :=
  match e with
  | Errno _ _ => None
  | ErrorString _ => None
  | PathError _ _ err => errorsAsBackupError err
  | Wrapf _ err => errorsAsBackupError err
  | WrapfNil _ => None
  | BackupError _ _ _ r => Some r
  end.

(** [os.IsNotExist(err)]: nil is not a not-exist error; a [PathError] is
    looked through once (os.underlyingError), then the leaf is tested. *)
Definition underlyingError (e : error) : error :=
  match e with
  | PathError _ _ err => err
  | _ => e
  end.

Definition osIsNotExist (e : option error) : bool :=
  match e with
  | None => false
  | Some e' =>
      match underlyingError e' with
      | Errno KNotExist _ => true
      | _ => false
      end
  end.

(** [fmt.Errorf(prefix ++ ": %w", err)] for a possibly nil [err]. *)
Definition Errorf (prefix : string) (err : option error) : error :=
  match err with
  | Some e => Wrapf prefix e
  | None => WrapfNil prefix
  end.


(** ** Go library: package strings

    Go strings are byte sequences; [string] over [ascii] is the same thing. *)
Module Strs.

Definition HasPrefix (s prefix : string) : bool := String.prefix prefix s.

Definition HasSuffix (s suffix : string) : bool :=
  (String.length suffix <=? String.length s)%nat &&
  String.eqb (substring (String.length s - String.length suffix) (String.length suffix) s) suffix.

Definition TrimSuffix (s suffix : string) : string :=
  if HasSuffix s suffix
  then substring 0 (String.length s - String.length suffix) s
  else s.

Fixpoint Contains (s substr : string) : bool :=
  if String.prefix substr s then true
  else match s with
       | EmptyString => false
       | String _ s' => Contains s' substr
       end.

(** [strings.Split(s, "/")] and [strings.Join(elems, "/")]. *)
Fixpoint splitSlash (s : string) : list string :=
  match s with
  | EmptyString => [EmptyString]
  | String c s' =>
      if Ascii.eqb c "/" then EmptyString :: splitSlash s'
      else match splitSlash s' with
           | [] => [String c EmptyString]
           | x :: xs => String c x :: xs
           end
  end.

Fixpoint joinSlash (elems : list string) : string :=
  match elems with
  | [] => EmptyString
  | [x] => x
  | x :: xs => x +:+ "/" +:+ joinSlash xs
  end.

End Strs.

(** ** Go library: package path/filepath on Unix *)
Module Filepath.

(** Lexical processing of the path elements in [Clean]: empty and [.]
    elements vanish, [..] removes the element before it, is dropped at the
    root, and is kept at the start of a relative path. [acc] is reversed. *)
Fixpoint cleanElems (rooted : bool) (elems acc : list string) : list string :=
  match elems with
  | [] => rev acc
  | e :: rest =>
      if String.eqb e "" || String.eqb e "." then cleanElems rooted rest acc
      else if String.eqb e ".." then
        match acc with
        | top :: acc' =>
            if String.eqb top ".." then cleanElems rooted rest (e :: acc)
            else cleanElems rooted rest acc'
        | [] => if rooted then cleanElems rooted rest acc
                else cleanElems rooted rest (e :: acc)
        end
      else cleanElems rooted rest (e :: acc)
  end.

Definition Clean (path : string) : string :=
  let rooted := Strs.HasPrefix path "/" in
  let body := Strs.joinSlash (cleanElems rooted (Strs.splitSlash path) []) in
  if rooted then "/" +:+ body
  else if String.eqb body "" then "." else body.

(** [Join] of two elements. *)
Definition Join (a b : string) : string :=
  if String.eqb a "" then (if String.eqb b "" then "" else Clean b)
  else Clean (a +:+ "/" +:+ b).

(** [Split]: the path up to and including its last slash, and the rest. *)
Definition Split (path : string) : string * string :=
  match rev (Strs.splitSlash path) with
  | [] => (EmptyString, path)
  | file :: _ =>
      (substring 0 (String.length path - String.length file) path, file)
  end.

Definition Base (path : string) : string :=
  if String.eqb path "" then "."
  else match rev (filter (fun e => negb (String.eqb e "")) (Strs.splitSlash path)) with
       | [] => "/"
       | e :: _ => e
       end.

(** The suffix of [s] that starts at its last dot, if it has a dot. *)
Fixpoint fromLastDot (s : string) : option string :=
  match s with
  | EmptyString => None
  | String c s' =>
      match fromLastDot s' with
      | Some ext => Some ext
      | None => if Ascii.eqb c "." then Some s else None
      end
  end.

Definition Ext (path : string) : string :=
  default EmptyString (fromLastDot (snd (Split path))).

(** [Rel]: both paths are cleaned; they must be both rooted or both
    relative; the common leading elements are dropped, each remaining
    element of the base becomes [..] (and must not itself be [..]). *)
Fixpoint dropCommon (b t : list string) : list string * list string :=
  match b, t with
  | x :: b', y :: t' => if String.eqb x y then dropCommon b' t' else (b, t)
  | _, _ => (b, t)
  end.

Definition elemsOf (cleaned : string) : list string :=
  filter (fun e => negb (String.eqb e "") && negb (String.eqb e "."))
         (Strs.splitSlash cleaned).

Definition Rel (basepath targpath : string) : error + string :=
  let base := Clean basepath in
  let targ := Clean targpath in
  if String.eqb targ base then inr "."
  else if negb (Bool.eqb (Strs.HasPrefix base "/") (Strs.HasPrefix targ "/"))
  then inl (ErrorString ("Rel: can't make " +:+ targpath +:+ " relative to " +:+ basepath))
  else
    let '(b, t) := dropCommon (elemsOf base) (elemsOf targ) in
    if existsb (String.eqb "..") b
    then inl (ErrorString ("Rel: can't make " +:+ targpath +:+ " relative to " +:+ basepath))
    else inr (Strs.joinSlash (map (fun _ => ".."%string) b ++ t)).

(** *** Match and Glob

    Shell patterns: [*] matches any run of non-separator bytes, [?] one
    non-separator byte, [[...]] a (possibly [^]-negated) class of bytes and
    ranges, a backslash quotes the next byte.  The model follows the library
    function by function (scanChunk, matchChunk, getEsc, Match), on bytes. *)
Definition ErrBadPattern : error := ErrorString "syntax error in pattern".

(** [scanChunk]: the leading stars, then the text up to the next star that
    is neither quoted nor inside brackets. *)
Fixpoint dropStars (pattern : string) : bool * string :=
  match pattern with
  | String "*" p => (true, snd (dropStars p))
  | _ => (false, pattern)
  end.

Fixpoint scanLiteral (pattern : string) (inrange : bool) : string * string :=
  match pattern with
  | EmptyString => (EmptyString, EmptyString)
  | String "\" (String c p) =>
      let '(chunk, rest) := scanLiteral p inrange in
      (String "\" (String c chunk), rest)
  | String "[" p =>
      let '(chunk, rest) := scanLiteral p true in (String "[" chunk, rest)
  | String "]" p =>
      let '(chunk, rest) := scanLiteral p false in (String "]" chunk, rest)
  | String "*" p =>
      if inrange
      then let '(chunk, rest) := scanLiteral p inrange in (String "*" chunk, rest)
      else (EmptyString, pattern)
  | String c p =>
      let '(chunk, rest) := scanLiteral p inrange in (String c chunk, rest)
  end.

Definition scanChunk (pattern : string) : bool * string * string :=
  let '(star, p) := dropStars pattern in
  let '(chunk, rest) := scanLiteral p false in
  (star, chunk, rest).

(** [getEsc]: one possibly quoted byte of a character class, and the rest
    of the chunk, which may not end there. *)
Definition getEsc (chunk : string) : error + (ascii * string) :=
  match chunk with
  | EmptyString => inl ErrBadPattern
  | String "-" _ => inl ErrBadPattern
  | String "]" _ => inl ErrBadPattern
  | String "\" EmptyString => inl ErrBadPattern
  | String "\" (String _ EmptyString) => inl ErrBadPattern
  | String "\" (String c nchunk) => inr (c, nchunk)
  | String _ EmptyString => inl ErrBadPattern
  | String c nchunk => inr (c, nchunk)
  end.

Definition byteLe (a b : ascii) : bool := (nat_of_ascii a <=? nat_of_ascii b)%nat.

(** [matchChunk]: match the chunk at the start of [s].  After the match has
    [failed] the chunk is still parsed to the end for its syntax.  The
    result is an error, or the rest of [s] on a match. *)
Fixpoint matchChunkLoop (fuel : nat) (chunk s : string) (failed : bool)
  : error + option string :=
  match fuel with
  | O => inl ErrBadPattern
  | Datatypes.S fuel' =>
      match chunk with
      | EmptyString => if failed then inr None else inr (Some s)
      | String c chunk' =>
          let failed := if negb failed && String.eqb s "" then true else failed in
          if Ascii.eqb c "[" then
            let '(r, s) :=
              if failed then ("000"%char, s)
              else match s with
                   | String r s' => (r, s')
                   | EmptyString => ("000"%char, s)
                   end in
            let '(negated, chunk') :=
              match chunk' with
              | String "^" rest => (true, rest)
              | _ => (false, chunk')
              end in
            classLoop fuel' chunk' s failed r negated false O
          else if Ascii.eqb c "?" then
            if failed then matchChunkLoop fuel' chunk' s failed
            else match s with
                 | String b s' => matchChunkLoop fuel' chunk' s' (Ascii.eqb b "/")
                 | EmptyString => matchChunkLoop fuel' chunk' s true
                 end
          else
            (* a quoted byte or an ordinary one *)
            let lit :=
              if Ascii.eqb c "\" then
                match chunk' with
                | EmptyString => None
                | String q rest => Some (q, rest)
                end
              else Some (c, chunk') in
            match lit with
            | None => inl ErrBadPattern
            | Some (q, rest) =>
                if failed then matchChunkLoop fuel' rest s failed
                else match s with
                     | String b s' => matchChunkLoop fuel' rest s' (negb (Ascii.eqb q b))
                     | EmptyString => matchChunkLoop fuel' rest s true
                     end
            end
      end
  end
with classLoop (fuel : nat) (chunk s : string) (failed : bool) (r : ascii)
               (negated matched : bool) (nrange : nat) : error + option string :=
  match fuel with
  | O => inl ErrBadPattern
  | Datatypes.S fuel' =>
      match chunk, nrange with
      | String "]" rest, Datatypes.S _ =>
          matchChunkLoop fuel' rest s (if Bool.eqb matched negated then true else failed)
      | _, _ =>
          match getEsc chunk with
          | inl err => inl err
          | inr (lo, String "-" rest) =>
              match getEsc rest with
              | inl err => inl err
              | inr (hi, rest') =>
                  classLoop fuel' rest' s failed r negated
                            (if byteLe lo r && byteLe r hi then true else matched)
                            (Datatypes.S nrange)
              end
          | inr (lo, rest) =>
              classLoop fuel' rest s failed r negated
                        (if byteLe lo r && byteLe r lo then true else matched)
                        (Datatypes.S nrange)
          end
      end
  end.

Definition matchChunk (chunk s : string) : error + option string :=
  matchChunkLoop (Datatypes.S (Datatypes.S (String.length chunk))) chunk s false.

(** The loop of [Match] under a star: try the chunk after skipping 1, 2, ...
    bytes of [name], never skipping a separator.  [last] says that the
    pattern ends with this chunk, which must then use up the name. *)
Fixpoint starScan (chunk : string) (last : bool) (name : string)
  : error + option string :=
  match name with
  | EmptyString => inr None
  | String c name' =>
      if Ascii.eqb c "/" then inr None
      else match matchChunk chunk name' with
           | inr (Some t) =>
               if last && negb (String.eqb t "") then starScan chunk last name'
               else inr (Some t)
           | inl err => inl err
           | inr None => starScan chunk last name'
           end
  end.

(** The syntax check of the rest of the pattern once the match has failed. *)
Fixpoint checkRest (fuel : nat) (pattern : string) : option error :=
  match fuel with
  | O => None
  | Datatypes.S fuel' =>
      if String.eqb pattern "" then None
      else let '(_, chunk, rest) := scanChunk pattern in
           match matchChunk chunk "" with
           | inl err => Some err
           | inr _ => checkRest fuel' rest
           end
  end.

Fixpoint matchLoop (fuel : nat) (pattern name : string) : error + bool :=
  match fuel with
  | O => inl ErrBadPattern
  | Datatypes.S fuel' =>
      if String.eqb pattern "" then inr (String.eqb name "")
      else
        let '(star, chunk, rest) := scanChunk pattern in
        if star && String.eqb chunk "" then inr (negb (Strs.Contains name "/"))
        else
          let fail :=
            match checkRest (Datatypes.S (String.length rest)) rest with
            | Some err => inl err
            | None => inr false
            end in
          match matchChunk chunk name with
          | inr (Some t) =>
              if String.eqb t "" || negb (String.eqb rest "")
              then matchLoop fuel' rest t
              else if star then
                match starScan chunk (String.eqb rest "") name with
                | inl err => inl err
                | inr (Some t') => matchLoop fuel' rest t'
                | inr None => fail
                end
              else fail
          | inl err => inl err
          | inr None =>
              if star then
                match starScan chunk (String.eqb rest "") name with
                | inl err => inl err
                | inr (Some t') => matchLoop fuel' rest t'
                | inr None => fail
                end
              else fail
          end
  end.

(** [Match(pattern, name)]: whether the whole name matches, or that the
    pattern is malformed. *)
Definition Match (pattern name : string) : error + bool :=
  matchLoop (Datatypes.S (String.length pattern)) pattern name.

(** [matched, _ := Match(pattern, name)]: the flag alone, false on an error. *)
Definition matched (pattern name : string) : bool :=
  match Match pattern name with
  | inr b => b
  | inl _ => false
  end.

Definition isMagic (c : ascii) : bool :=
  Ascii.eqb c "*" || Ascii.eqb c "?" || Ascii.eqb c "[" || Ascii.eqb c "\".

Definition hasMeta (path : string) : bool :=
  existsb isMagic (list_ascii_of_string path).

End Filepath.

(** ** Go library: package time

    A [Time] is an instant (nanoseconds since the Unix epoch), the offset of
    its location east of UTC at that instant (seconds), and the reading of
    the monotonic clock that [time.Now] attaches (nanoseconds). *)
Module GoTime.

Record Time := mkTime {
  unixNano : Z;
  zoneOffset : Z;
  mono : Z
}.

Definition Millisecond : Z := 1000000.
Definition Second : Z := 1000000000.

(** [t.Sub(u)] for two readings of [time.Now]: the difference of the
    monotonic readings, saturated to the range of a Duration. *)
Definition Sub (t u : Time) : Z :=
  let d := mono t - mono u in
  if d <? - 2 ^ 63 then - 2 ^ 63
  else if 2 ^ 63 - 1 <? d then 2 ^ 63 - 1
  else d.

(** The proleptic Gregorian date of a day number (days since 1970-01-01):
    year, month 1..12, day 1..31.  The 400-year era starts on a 1st of
    March, so that the leap day is the last day of a year of the era. *)
Definition yearOfEra (doe : Z) : Z :=
  (doe - doe / 1460 + doe / 36524 - doe / 146096) / 365.

Definition dayOfYear (doe : Z) : Z :=
  doe - (365 * yearOfEra doe + yearOfEra doe / 4 - yearOfEra doe / 100).

(** Months and days counted from March. *)
Definition monthIndex (doy : Z) : Z := (5 * doy + 2) / 153.

Definition dayOfMonth (doy : Z) : Z := doy - (153 * monthIndex doy + 2) / 5 + 1.

Definition dateOfDay (days : Z) : Z * Z * Z :=
  let z := days + 719468 in
  let era := z / 146097 in
  let doe := z mod 146097 in
  let mp := monthIndex (dayOfYear doe) in
  let m := if mp <? 10 then mp + 3 else mp - 9 in
  let y := yearOfEra doe + era * 400 + (if m <=? 2 then 1 else 0) in
  (y, m, dayOfMonth (dayOfYear doe)).

(** A number that orders dates as the calendar does. *)
Definition dateKey (date : Z * Z * Z) : Z :=
  let '(y, m, d) := date in (y * 13 + m) * 32 + d.

(** Seconds since the epoch on the wall clock of the time's location. *)
Definition localSec (t : Time) : Z := unixNano t / Second + zoneOffset t.

Definition Date (t : Time) : Z * Z * Z := dateOfDay (localSec t / 86400).

Definition Clock (t : Time) : Z * Z * Z :=
  let sod := localSec t mod 86400 in
  (sod / 3600, sod mod 3600 / 60, sod mod 60).

Definition Nanosecond (t : Time) : Z := unixNano t mod Second.

(** Decimal digits, most significant first. *)
Definition digitChar (d : Z) : ascii := ascii_of_nat (48 + Z.to_nat d).

Fixpoint digitsMSD (w : nat) (u : Z) : string :=
  match w with
  | O => EmptyString
  | Datatypes.S w' => String (digitChar (u / 10 ^ Z.of_nat w' mod 10)) (digitsMSD w' u)
  end.

Fixpoint numDigits (fuel : nat) (u : Z) : nat :=
  match fuel with
  | O => 1
  | Datatypes.S fuel' => if u <? 10 then 1 else Datatypes.S (numDigits fuel' (u / 10))
  end.

(** [appendInt]: a sign for a negative number, then its digits, padded with
    zeros on the left to at least [width] digits. *)
Definition appendInt (x : Z) (width : nat) : string :=
  let u := Z.abs x in
  (if x <? 0 then "-" else "") +:+ digitsMSD (Nat.max width (numDigits 20 u)) u.

(** [t.Format("20060102_150405.000000")]: four-digit year, two-digit month,
    day, hour, minute and second, and the fraction of the second truncated
    to six digits. *)
Definition Format_20060102_150405_000000 (t : Time) : string :=
  let '(y, m, d) := Date t in
  let '(hh, mm, ss) := Clock t in
  appendInt y 4 +:+ appendInt m 2 +:+ appendInt d 2 +:+ "_" +:+
  appendInt hh 2 +:+ appendInt mm 2 +:+ appendInt ss 2 +:+ "." +:+
  digitsMSD 6 (Nanosecond t / 1000).

(** The timestamp read as one number: date, hour, minute, second and
    microsecond in mixed radix. *)
Definition stamp (t : Time) : Z :=
  let '(hh, mm, ss) := Clock t in
  (((dateKey (Date t) * 24 + hh) * 60 + mm) * 60 + ss) * 1000000 + Nanosecond t / 1000.

(** The wall clock of the time shows a year from 0000 to 9999. *)
Definition fourDigitYear (t : Time) : Prop :=
  -62167219200 <= localSec t < 253402300800.

End GoTime.

(** ** The world outside the program: file system, clock, console

    The file system maps a path, as written, to a file or a directory.  A
    system call fails for the reasons the state gives (a missing path, a
    directory in the way) and, besides, whenever the [fault] table says so:
    this is how permission and I/O errors enter.  The clock hands out the
    successive readings of [time.Now].  [events] is the observable history:
    copy attempts, deletions and log lines, oldest first. *)
Module OS.

Inductive Node :=
| File (content : list Byte.byte) (mode : Z)
| Dir (mode : Z).

Inductive Syscall :=
| SysStat | SysOpen | SysCreate | SysChmod | SysMkdir | SysRemove
| SysRead (chunk : nat) | SysWrite (chunk : nat).

(** A call of a method of utils.Logger. *)
Inductive LogLine :=
| LogError (msg : string)
| LogInfo (msg : string)
| LogWarning (msg : string)
| LogFileCreated (filename : string)
| LogFileModified (filename : string)
| LogFileRenamed (filename : string)
| LogFileDeleted (filename : string)
| LogBackupCreated (filename backupName : string)
| LogBackupSkipped (filename reason : string).

Inductive Event :=
| EvCopyAttempt (src dst : string)
| EvRemove (path : string)
| EvLog (line : LogLine).

Record World := mkWorld {
  fs : gmap string Node;
  fault : Syscall -> string -> option error;
  umask : Z;
  clock : nat -> GoTime.Time;
  ticks : nat;
  events : list Event
}.

Definition setFs (w : World) (m : gmap string Node) : World :=
  mkWorld m (fault w) (umask w) (clock w) (ticks w) (events w).

Definition emit (w : World) (e : Event) : World :=
  mkWorld (fs w) (fault w) (umask w) (clock w) (ticks w) (events w ++ [e]).

(** [time.Now()]. *)
Definition Now (w : World) : GoTime.Time * World :=
  (clock w (ticks w),
   mkWorld (fs w) (fault w) (umask w) (clock w) (Datatypes.S (ticks w)) (events w)).

Definition ENOENT : error := Errno KNotExist "no such file or directory".
Definition EACCES : error := Errno KPermission "permission denied".
Definition ENOTDIR : error := Errno KOther "not a directory".
Definition EISDIR : error := Errno KOther "is a directory".
Definition ENOTEMPTY : error := Errno KOther "directory not empty".
Definition EIO : error := Errno KOther "input/output error".

Definition IsDir (n : Node) : bool :=
  match n with
  | Dir _ => true
  | File _ _ => false
  end.

Definition Mode (n : Node) : Z :=
  match n with
  | Dir m => m
  | File _ m => m
  end.

(** [os.Stat] and [os.Lstat] (the model has no symbolic links). *)
Definition Stat (w : World) (path : string) : error + Node :=
  match fault w SysStat path with
  | Some e => inl (PathError "stat" path e)
  | None =>
      match fs w !! path with
      | Some n => inr n
      | None => inl (PathError "stat" path ENOENT)
      end
  end.

Definition Lstat (w : World) (path : string) : error + Node :=
  match Stat w path with
  | inl (PathError _ p e) => inl (PathError "lstat" p e)
  | r => r
  end.

(** The directory a path lies in: the path without its last element and the
    slash before it; the empty string for a bare name. *)
Definition parent (path : string) : string :=
  let dir := fst (Filepath.Split path) in
  if String.eqb dir "/" then dir
  else substring 0 (String.length dir - 1) dir.

(** [os.Open]: opening for reading needs the path to exist. *)
Definition Open (w : World) (path : string) : option error :=
  match fault w SysOpen path with
  | Some e => Some (PathError "open" path e)
  | None =>
      match fs w !! path with
      | Some _ => None
      | None => Some (PathError "open" path ENOENT)
      end
  end.

(** [os.Create]: the directory must exist; an existing file is truncated and
    keeps its mode, a new one gets 0666 less the umask. *)
Definition Create (w : World) (path : string) : error + World :=
  match fault w SysCreate path with
  | Some e => inl (PathError "open" path e)
  | None =>
      let dirOk :=
        if String.eqb (parent path) "" then None
        else match fs w !! parent path with
             | Some (Dir _) => None
             | Some (File _ _) => Some ENOTDIR
             | None => Some ENOENT
             end in
      match dirOk, fs w !! path with
      | Some e, _ => inl (PathError "open" path e)
      | None, Some (Dir _) => inl (PathError "open" path EISDIR)
      | None, Some (File _ m) => inr (setFs w (<[path := File [] m]> (fs w)))
      | None, None =>
          inr (setFs w (<[path := File [] (Z.land 438 (Z.lnot (umask w)))]> (fs w)))
      end
  end.

(** [File.Write] of the [chunk]-th buffer: the bytes are appended. *)
Definition Write (w : World) (path : string) (chunk : nat) (bytes : list Byte.byte)
  : error + World :=
  match fault w (SysWrite chunk) path with
  | Some e => inl (PathError "write" path e)
  | None =>
      match fs w !! path with
      | Some (File c m) => inr (setFs w (<[path := File (c ++ bytes) m]> (fs w)))
      | _ => inl (PathError "write" path EIO)
      end
  end.

(** [os.Chmod]. *)
Definition Chmod (w : World) (path : string) (mode : Z) : error + World :=
  match fault w SysChmod path with
  | Some e => inl (PathError "chmod" path e)
  | None =>
      match fs w !! path with
      | Some (File c _) => inr (setFs w (<[path := File c mode]> (fs w)))
      | Some (Dir _) => inr (setFs w (<[path := Dir mode]> (fs w)))
      | None => inl (PathError "chmod" path ENOENT)
      end
  end.

(** [os.Mkdir]. *)
Definition Mkdir (w : World) (path : string) (perm : Z) : error + World :=
  match fault w SysMkdir path with
  | Some e => inl (PathError "mkdir" path e)
  | None =>
      match fs w !! path with
      | Some _ => inl (PathError "mkdir" path (Errno KOther "file exists"))
      | None =>
          let dirOk :=
            if String.eqb (parent path) "" then None
            else match fs w !! parent path with
                 | Some (Dir _) => None
                 | Some (File _ _) => Some ENOTDIR
                 | None => Some ENOENT
                 end in
          match dirOk with
          | Some e => inl (PathError "mkdir" path e)
          | None => inr (setFs w (<[path := Dir (Z.land perm (Z.lnot (umask w)))]> (fs w)))
          end
      end
  end.

Definition render (rooted : bool) (elems : list string) : string :=
  (if rooted then "/" else "") +:+ Strs.joinSlash elems.

(** [os.MkdirAll], on the elements of the path, innermost first: nothing to
    do for a directory, an error for a file in the way; otherwise the parent
    is made first, then the directory itself. *)
Fixpoint mkdirAllRev (rooted : bool) (revElems : list string) (perm : Z) (w : World)
  : option error * World :=
  let path := render rooted (rev revElems) in
  match Stat w path with
  | inr n =>
      if IsDir n then (None, w) else (Some (PathError "mkdir" path ENOTDIR), w)
  | inl _ =>
      let '(err, w1) :=
        match revElems with
        | _ :: parentElems =>
            if rooted || negb (bool_decide (parentElems = []))
            then mkdirAllRev rooted parentElems perm w
            else (None, w)
        | [] => (None, w)
        end in
      match err with
      | Some e => (Some e, w1)
      | None =>
          match Mkdir w1 path perm with
          | inr w2 => (None, w2)
          | inl e =>
              match Lstat w1 path with
              | inr (Dir _) => (None, w1)
              | _ => (Some e, w1)
              end
          end
      end
  end.

Definition MkdirAll (path : string) (perm : Z) (w : World) : option error * World :=
  mkdirAllRev (Strs.HasPrefix path "/")
              (rev (filter (fun e => negb (String.eqb e "")) (Strs.splitSlash path)))
              perm w.

(** The name of [path] inside the directory [dir], if it lies directly in it. *)
Definition childName (dir path : string) : option string :=
  let pre := if String.eqb dir "/" then dir else dir +:+ "/" in
  if String.prefix pre path then
    let n := substring (String.length pre) (String.length path - String.length pre) path in
    if String.eqb n "" || Strs.Contains n "/" then None else Some n
  else None.

(** [sort.Strings]: ascending byte order. *)
Fixpoint insertSorted (x : string) (l : list string) : list string :=
  match l with
  | [] => [x]
  | y :: l' => if String.leb x y then x :: l else y :: insertSorted x l'
  end.

Definition sortStrings (l : list string) : list string :=
  foldr insertSorted [] l.

(** The order [sort.Strings] sorts by. *)
Definition lebR (x y : string) : Prop := String.leb x y = true.

(** [File.Readdirnames(-1)], sorted as [Glob] sorts them. *)
Definition readDirNames (w : World) (dir : string) : list string :=
  sortStrings (omap (fun kv => childName dir (fst kv)) (map_to_list (fs w))).

(** [os.Remove]: a file, or an empty directory. *)
Definition Remove (w : World) (path : string) : error + World :=
  match fault w SysRemove path with
  | Some e => inl (PathError "remove" path e)
  | None =>
      match fs w !! path with
      | None => inl (PathError "remove" path ENOENT)
      | Some (Dir _) =>
          match readDirNames w path with
          | [] => inr (emit (setFs w (delete path (fs w))) (EvRemove path))
          | _ :: _ => inl (PathError "remove" path ENOTEMPTY)
          end
      | Some (File _ _) => inr (emit (setFs w (delete path (fs w))) (EvRemove path))
      end
  end.

(** [filepath.Glob].  [globDir] is the library's [glob]: the entries of one
    directory whose names match; a path that is no directory has none. *)
Fixpoint matchNames (dir pattern : string) (names : list string) (acc : list string)
  : error + list string :=
  match names with
  | [] => inr acc
  | n :: rest =>
      match Filepath.Match pattern n with
      | inl e => inl e
      | inr true => matchNames dir pattern rest (acc ++ [Filepath.Join dir n])
      | inr false => matchNames dir pattern rest acc
      end
  end.

Definition globDir (w : World) (dir pattern : string) (acc : list string)
  : error + list string :=
  match Stat w dir with
  | inr (Dir _) => matchNames dir pattern (readDirNames w dir) acc
  | _ => inr acc
  end.

Definition cleanGlobPath (dir : string) : string :=
  if String.eqb dir "" then "."
  else if String.eqb dir "/" then dir
  else substring 0 (String.length dir - 1) dir.

Fixpoint globEach (w : World) (dirs : list string) (pattern : string) (acc : list string)
  : error + list string :=
  match dirs with
  | [] => inr acc
  | d :: rest =>
      match globDir w d pattern acc with
      | inl e => inl e
      | inr acc' => globEach w rest pattern acc'
      end
  end.

Fixpoint globFuel (fuel : nat) (w : World) (pattern : string) : error + list string :=
  match fuel with
  | O => inl Filepath.ErrBadPattern
  | Datatypes.S fuel' =>
      match Filepath.Match pattern "" with
      | inl e => inl e
      | inr _ =>
          if negb (Filepath.hasMeta pattern) then
            match Lstat w pattern with
            | inl _ => inr []
            | inr _ => inr [pattern]
            end
          else
            let '(dir0, file) := Filepath.Split pattern in
            let dir := cleanGlobPath dir0 in
            if negb (Filepath.hasMeta dir) then globDir w dir file []
            else if String.eqb dir pattern then inl Filepath.ErrBadPattern
            else match globFuel fuel' w dir with
                 | inl e => inl e
                 | inr m => globEach w m file []
                 end
      end
  end.

Definition Glob (w : World) (pattern : string) : error + list string :=
  globFuel (Datatypes.S (String.length pattern)) w pattern.

End OS.

(** ** utils/errors.go *)
Module Utils.

(** utils/errors.go, IsRetryable. *)
Definition IsRetryable (err : error) : bool :=
  match errorsAsBackupError err with
  | Some retryable => retryable
  | None =>
      if errorsIs KPermission err then true
      else if errorsIs KNotExist err then false
      else false
  end.

(** *** RetryWithBackoff

    The operation [fn] is a closure over mutable state; it is a state
    transformer on an arbitrary state type [S].  [time.Sleep] only lets time
    pass: the run records the durations it was called with, in order, and
    counts the invocations of [fn]. *)
Section Retry.
Context {S : Type}.

Record Run := mkRun {
  result : option error;   (* the returned error, None for nil *)
  final : S;               (* the state fn left behind *)
  slept : list Z;          (* arguments of time.Sleep, oldest first *)
  attempts : nat           (* number of calls of fn *)
}.

Variable maxRetries : Z.
Variable fn : S -> option error * S.

(** The body of [for i := range maxRetries], with [todo] iterations left. *)
Fixpoint retryLoop (todo : nat) (i delay : Z) (lastErr : option error)
         (s : S) (zs : list Z) (calls : nat) : Run :=
  match todo with
  | O =>
      mkRun (Some (Errorf ("exceed max retries (" +:+ formatInt maxRetries +:+ ")") lastErr))
            s zs calls
  | Datatypes.S todo' =>
      match fn s with
      | (Some err, s') =>
          if negb (IsRetryable err) then mkRun (Some err) s' zs (Datatypes.S calls)
          else if i <? wrap64 (maxRetries - 1) then
            retryLoop todo' (i + 1) (wrap64 (delay * 2)) (Some err) s'
                      (zs ++ [delay]) (Datatypes.S calls)
          else
            retryLoop todo' (i + 1) delay (Some err) s' zs (Datatypes.S calls)
      | (None, s') => mkRun None s' zs (Datatypes.S calls)
      end
  end.

Definition RetryWithBackoff (initialDelay : Z) (s : S) : Run :=
  retryLoop (Z.to_nat maxRetries) 0 initialDelay None s [] O.

(** The state before the [k]-th call of [fn] (counting from 0) and the
    outcome of that call, when [fn] is simply called again and again. *)
Fixpoint stateAt (k : nat) (s : S) : S :=
  match k with
  | O => s
  | Datatypes.S k' => stateAt k' (snd (fn s))
  end.

Definition outcomeAt (k : nat) (s : S) : option error := fst (fn (stateAt k s)).

Definition retryableFailure (o : option error) : Prop :=
  exists err, o = Some err /\ IsRetryable err = true.
End Retry.

(** The delays of an overflow-free exponential backoff: base, 2 base, 4 base ... *)
Definition backoff (base : Z) (n : nat) : list Z :=
  map (fun k => base * 2 ^ Z.of_nat k) (seq 0 n).

(** The delays as the code computes them, by [delay *= 2] on an int64. *)
Fixpoint backoff64 (base : Z) (n : nat) : list Z :=
  match n with
  | O => []
  | Datatypes.S n' => base :: backoff64 (wrap64 (base * 2)) n'
  end.

(** *** SafeCopyFile *)

(** The buffers the read loop sees: the content in pieces of 32 KiB. *)
Definition bufSize : nat := 32 * 1024.

Fixpoint chunksOf (fuel : nat) (content : list Byte.byte) : list (list Byte.byte) :=
  match fuel with
  | O => []
  | Datatypes.S fuel' =>
      match content with
      | [] => []
      | _ :: _ => take bufSize content :: chunksOf fuel' (drop bufSize content)
      end
  end.

(** The read/write loop.  [chunks] is what is left to read; the [i]-th
    [Read] fails with the error the fault table holds for it (with no byte
    read), and returns io.EOF once nothing is left. *)
Fixpoint copyLoop (src dst : string) (chunks : list (list Byte.byte)) (i : nat)
         (w : OS.World) : option error * OS.World :=
  match OS.fault w (OS.SysRead i) src with
  | Some err =>
      if String.eqb (Error err) "EOF" then (None, w)
      else (Some (BackupError src "read" err true), w)
  | None =>
      match chunks with
      | [] => (None, w)
      | buf :: rest =>
          match OS.Write w dst i buf with
          | inl err => (Some (BackupError dst "write" err true), w)
          | inr w' => copyLoop src dst rest (Datatypes.S i) w'
          end
      end
  end.

Definition contentOf (w : OS.World) (path : string) : list Byte.byte :=
  match OS.fs w !! path with
  | Some (OS.File c _) => c
  | _ => []
  end.

(** One attempt: the closure passed to RetryWithBackoff. *)
Definition copyAttempt (src dst : string) (w0 : OS.World) : option error * OS.World :=
  let w := OS.emit w0 (OS.EvCopyAttempt src dst) in
  match OS.Stat w src with
  | inl err =>
      (Some (BackupError src "stat_source" err (errorsIs KPermission err)), w)
  | inr srcInfo =>
      if OS.IsDir srcInfo then
        (Some (BackupError src "check_type" (ErrorString "source is a directory") false), w)
      else
        match OS.Open w src with
        | Some err =>
            (Some (BackupError src "open_source" err (errorsIs KPermission err)), w)
        | None =>
            match OS.Create w dst with
            | inl err =>
                (Some (BackupError dst "create_destination" err (errorsIs KPermission err)), w)
            | inr w1 =>
                let content := contentOf w1 src in
                match copyLoop src dst (chunksOf (length content) content) O w1 with
                | (Some err, w2) => (Some err, w2)
                | (None, w2) =>
                    match OS.Chmod w2 dst (OS.Mode srcInfo) with
                    | inl _ => (None, w2)
                    | inr w3 => (None, w3)
                    end
                end
            end
        end
  end.

Definition SafeCopyFile (src dst : string) (maxRetries : Z) (w : OS.World) : Run :=
  RetryWithBackoff maxRetries (copyAttempt src dst) (100 * GoTime.Millisecond) w.

(** A closure that fails retryably while its counter is below [n], then succeeds. *)
Definition flaky (n : nat) (c : nat) : option error * nat :=
  if (c <? n)%nat
  then (Some (BackupError "dst" "write" (ErrorString "disk hiccup") true), Datatypes.S c)
  else (None, Datatypes.S c).

(** A closure that always fails with a permission error. *)
Definition denied (c : nat) : option error * nat :=
  (Some (PathError "open" "src" ErrPermission), Datatypes.S c).

End Utils.

(** ** watcher/backup.go *)
Module Backup.
Import OS.

Record BackupManager := mkBackupManager {
  backupDir : string;
  maxVersions : Z
}.

Definition NewBackupManager (backupDir : string) (maxVersions : Z) : BackupManager :=
  mkBackupManager backupDir maxVersions.

(** How a call ends: it returns an error value (None for nil), or panics. *)
Inductive outcome :=
| Returned (err : option error)
| Panicked (msg : string).

(** The loop [for i := range toRemove] of cleanOldVersions, with [todo]
    iterations left; indexing past the end of [matches] panics. *)
Fixpoint removeLoop (matches : list string) (todo i : nat) (w : World)
  : outcome * World :=
  match todo with
  | O => (Returned None, w)
  | Datatypes.S todo' =>
      match matches !! i with
      | None => (Panicked "index out of range", w)
      | Some path =>
          match Remove w path with
          | inl err => (Returned (Some err), w)
          | inr w' =>
              removeLoop matches todo' (Datatypes.S i)
                (emit w' (EvLog (LogInfo ("	Removed old version: " +:+ Filepath.Base path))))
          end
      end
  end.

Definition cleanOldVersions (bm : BackupManager) (dir baseName ext : string) (w : World)
  : outcome * World :=
  let pattern := Filepath.Join dir (baseName +:+ "_*" +:+ ext) in
  match Glob w pattern with
  | inl err => (Returned (Some err), w)
  | inr matches =>
      if Z.of_nat (length matches) <=? maxVersions bm then (Returned None, w)
      else
        let sorted := sortStrings matches in
        let toRemove := wrap64 (Z.of_nat (length sorted) - maxVersions bm) in
        removeLoop sorted (Z.to_nat toRemove) O w
  end.

(** The names CreateBackup derives for a source at relative path [relPath]
    backed up at time [t]. *)
Definition extOf (relPath : string) : string := Filepath.Ext relPath.

Definition nameWithoutExtOf (relPath : string) : string :=
  Strs.TrimSuffix (Filepath.Base relPath) (extOf relPath).

Definition backupNameOf (relPath : string) (t : GoTime.Time) : string :=
  nameWithoutExtOf relPath +:+ "_" +:+ GoTime.Format_20060102_150405_000000 t +:+
  extOf relPath.

Definition fileVersionDirOf (bm : BackupManager) (relPath : string) : string :=
  Filepath.Join (backupDir bm) (relPath +:+ "_versions").

Definition backupPathOf (bm : BackupManager) (relPath : string) (t : GoTime.Time) : string :=
  Filepath.Join (fileVersionDirOf bm relPath) (backupNameOf relPath t).

Definition CreateBackup (bm : BackupManager) (sourcePath sourceDir : string) (w : World)
  : outcome * World :=
  let statErr := match Stat w sourcePath with inl e => Some e | inr _ => None end in
  if osIsNotExist statErr then
    (Returned (Some (ErrorString ("source file does not exist: " +:+ sourcePath))), w)
  else
    match Filepath.Rel sourceDir sourcePath with
    | inl err =>
        (Returned (Some (Wrapf "error while calculating relative path" err)), w)
    | inr relPath =>
        let '(t, w) := Now w in
        let ext := extOf relPath in
        let nameWithoutExt := nameWithoutExtOf relPath in
        let backupName := backupNameOf relPath t in
        let fileVersionDir := fileVersionDirOf bm relPath in
        let backupPath := Filepath.Join fileVersionDir backupName in
        match MkdirAll fileVersionDir 493 w with
        | (Some err, w) =>
            (Returned (Some (Wrapf "error while creating directory version" err)), w)
        | (None, w) =>
            let run := Utils.SafeCopyFile sourcePath backupPath 3 w in
            match Utils.result run with
            | Some err =>
                (Returned (Some (Wrapf "error copying file" err)), Utils.final run)
            | None =>
                let w := emit (Utils.final run)
                              (EvLog (LogBackupCreated (Filepath.Base sourcePath) backupName)) in
                match cleanOldVersions bm fileVersionDir nameWithoutExt ext w with
                | (Returned (Some err), w) =>
                    (Returned (Some (Wrapf "error cleaning old versions" err)), w)
                | (Returned None, w) => (Returned None, w)
                | (Panicked msg, w) => (Panicked msg, w)
                end
            end
        end
    end.

(** Scenario data: a world with the given files, no injected fault, a clock
    that advances one second per reading from [t0]. *)
Definition noFault : Syscall -> string -> option error := fun _ _ => None.

Definition steadyClock (t0 : Z) (n : nat) : GoTime.Time :=
  GoTime.mkTime ((t0 + Z.of_nat n) * GoTime.Second) 0 (Z.of_nat n * GoTime.Second).

Definition worldOf (files : list (string * Node)) (t0 : Z) : World :=
  mkWorld (list_to_map files) noFault 18 (steadyClock t0) O [].

End Backup.

(** ** config/config.go *)
Module Config.

Record Config := mkConfig {
  SourceDir : string;
  BackupDir : string;
  MaxVersions : Z;
  MinInterval : Z;
  IgnorePatterns : list string
}.

Definition NewConfig (source backup : string) (versions interval : Z) : Config :=
  mkConfig source backup versions interval ["*.tmp"; "*.swp"; ".git"; ".DS_Store"]%string.

End Config.

(** ** watcher/watcher.go *)
Module Watcher.
Import OS Config.

(** fsnotify.Op is a set of bits. *)
Definition Create : Z := 1.
Definition Write : Z := 2.
Definition Remove : Z := 4.
Definition Rename : Z := 8.
Definition Chmod : Z := 16.

Record Event := mkEvent {
  Name : string;
  Op : Z
}.

Definition has (op flag : Z) : bool := Z.land op flag =? flag.

Record BackupJob := mkBackupJob {
  FilePath : string;
  EventType : string;
  Timestamp : GoTime.Time
}.

(** The mutable part of a FileWatcher: the debounce map, the buffered
    channel of jobs (a queue with the capacity it was made with) and the
    directories registered with the fsnotify watcher. *)
Record FileWatcher := mkFileWatcher {
  config : Config;
  lastBackup : gmap string GoTime.Time;
  backupQueue : list BackupJob;
  queueCap : nat;
  watched : list string
}.

Definition NewFileWatcher (cfg : Config) : FileWatcher :=
  mkFileWatcher cfg ∅ [] 100 [].

Definition isDir (w : World) (path : string) : bool :=
  match Lstat w path with
  | inl _ => false
  | inr info => IsDir info
  end.

(** The loop of shouldIgnore over the patterns. *)
Fixpoint ignoredBy (patterns : list string) (path base : string) : bool :=
  match patterns with
  | [] => false
  | pattern :: rest =>
      if Filepath.matched pattern base then true
      else if Strs.Contains path pattern then true
      else ignoredBy rest path base
  end.

Definition shouldIgnore (fw : FileWatcher) (path : string) : bool :=
  ignoredBy (IgnorePatterns (config fw)) path (Filepath.Base path).

Definition withQueue (fw : FileWatcher) (q : list BackupJob)
           (m : gmap string GoTime.Time) : FileWatcher :=
  mkFileWatcher (config fw) m q (queueCap fw) (watched fw).

Definition enqueueBackup (fw : FileWatcher) (path eventType : string) (w : World)
  : FileWatcher * World :=
  let '(tooSoon, w) :=
    match lastBackup fw !! path with
    | Some lastTime =>
        let '(now, w) := Now w in
        (GoTime.Sub now lastTime <? MinInterval (config fw), w)
    | None => (false, w)
    end in
  if tooSoon then
    (fw, emit w (EvLog (LogBackupSkipped (Filepath.Base path) "too soon since last backup")))
  else
    let '(stamp, w) := Now w in
    let job := mkBackupJob path eventType stamp in
    if (length (backupQueue fw) <? queueCap fw)%nat then
      let '(now, w) := Now w in
      (withQueue fw (backupQueue fw ++ [job]) (<[path := now]> (lastBackup fw)),
       emit w (EvLog (LogInfo ("Add to backup queue: " +:+ Filepath.Base path +:+
                               " [" +:+ eventType +:+ "]"))))
    else
      (fw, emit w (EvLog (LogWarning ("Queue full, skipping backup for: " +:+
                                      Filepath.Base path)))).

Definition addWatch (fw : FileWatcher) (path : string) : FileWatcher :=
  mkFileWatcher (config fw) (lastBackup fw) (backupQueue fw) (queueCap fw)
                (watched fw ++ [path]).

(** The part of handleEvent after the switch. *)
Definition dispatch (fw : FileWatcher) (name eventType : string) (w : World)
  : FileWatcher * World :=
  if isDir w name then (fw, w)
  else if shouldIgnore fw name then (fw, w)
  else enqueueBackup fw name eventType w.

Definition handleEvent (fw : FileWatcher) (event : Event) (w : World)
  : FileWatcher * World :=
  let base := Filepath.Base (Name event) in
  if has (Op event) Create then
    let '(fw, w) :=
      if isDir w (Name event)
      then (addWatch fw (Name event), emit w (EvLog (LogInfo ("New catalog: " +:+ base))))
      else (fw, w) in
    dispatch fw (Name event) "CREATe" (emit w (EvLog (LogFileCreated base)))
  else if has (Op event) Write then
    dispatch fw (Name event) "WRITE" (emit w (EvLog (LogFileModified base)))
  else if has (Op event) Remove then
    (fw, emit w (EvLog (LogFileDeleted base)))
  else if has (Op event) Rename then
    (fw, emit w (EvLog (LogFileRenamed base)))
  else if has (Op event) Chmod then (fw, w)
  else (fw, w).

(** Whether the last thing the handler did was a call of enqueueBackup:
    that call always ends with one of its three log lines. *)
Definition isEnqueueLine (e : OS.Event) : bool :=
  match e with
  | EvLog (LogBackupSkipped _ _) => true
  | EvLog (LogInfo msg) => Strs.HasPrefix msg "Add to backup queue: "
  | EvLog (LogWarning _) => true
  | _ => false
  end.

End Watcher.

(** ** Scenario data used by the examples *)
Module Scenario.
Import OS Config Watcher.

Definition cfg0 : Config := NewConfig "/src" "/bk" 3 (5 * GoTime.Second).

Definition fw0 : FileWatcher := NewFileWatcher cfg0.

Definition w0 : World :=
  Backup.worldOf [("/", Dir 493); ("/src", Dir 493); ("/bk", Dir 493);
                  ("/src/a.txt", File [Byte.x61] 420);
                  ("/src/b.tmp", File [] 420)]%string 1700000000.

(** A watcher whose job channel is full. *)
Definition fwFull : FileWatcher :=
  mkFileWatcher cfg0 ∅
    (replicate 100 (mkBackupJob "/src/z.txt" "WRITE" (Backup.steadyClock 0 0))) 100 [].

(** The same world with an I/O error on the first read of the source, and
    with a permission error on the chmod of any path. *)
Definition withFault (w : World) (f : Syscall -> string -> option error) : World :=
  mkWorld (fs w) f (umask w) (clock w) (ticks w) (events w).

Definition wReadFault : World :=
  withFault w0 (fun c p =>
    match c with
    | SysRead O => if String.eqb p "/src/a.txt" then Some EIO else None
    | _ => None
    end).

Definition wChmodFault : World :=
  withFault w0 (fun c _ => match c with SysChmod => Some EACCES | _ => None end).

(** Version stores of /src/a.txt with two versions already present, a cap
    of one version, and a version that cannot be deleted.  In [wEvict] the
    old versions carry earlier times than the clock; in [wEvictBack] they
    carry later ones, as after the clock was set back. *)
Definition bm1 : Backup.BackupManager := Backup.NewBackupManager "/bk" 1.

Definition denyRemove (victim : string) : Syscall -> string -> option error :=
  fun c p =>
    match c with
    | SysRemove => if String.eqb p victim then Some EACCES else None
    | _ => None
    end.

Definition wEvict : World :=
  withFault
    (Backup.worldOf [("/", Dir 493); ("/src", Dir 493); ("/bk", Dir 493);
                     ("/src/a.txt", File [Byte.x61] 420);
                     ("/bk/a.txt_versions", Dir 493);
                     ("/bk/a.txt_versions/a_20231114_221310.000000.txt", File [] 420);
                     ("/bk/a.txt_versions/a_20231114_221315.000000.txt", File [] 420)]%string
                    1700000000)
    (denyRemove "/bk/a.txt_versions/a_20231114_221310.000000.txt").

Definition wEvictBack : World :=
  withFault
    (Backup.worldOf [("/", Dir 493); ("/src", Dir 493); ("/bk", Dir 493);
                     ("/src/a.txt", File [Byte.x61] 420);
                     ("/bk/a.txt_versions", Dir 493);
                     ("/bk/a.txt_versions/a_20231114_221325.000000.txt", File [] 420);
                     ("/bk/a.txt_versions/a_20231114_221326.000000.txt", File [] 420)]%string
                    1700000000)
    (denyRemove "/bk/a.txt_versions/a_20231114_221325.000000.txt").

(** Two readings of the clock one second apart, around the end of summer
    time in central Europe (2025-10-26 01:00 UTC): 02:59:59 at UTC+2, then
    02:00:00 at UTC+1; and two readings in UTC around the end of year 9999. *)
Definition tSummer : GoTime.Time := GoTime.mkTime 1761440399000000000 7200 0.
Definition tWinter : GoTime.Time := GoTime.mkTime 1761440400000000000 3600 1000000000.
Definition t9999 : GoTime.Time := GoTime.mkTime 253402300799000000000 0 0.
Definition t10000 : GoTime.Time := GoTime.mkTime 253402300800000000000 0 1000000000.

(** Two readings one microsecond apart. *)
Definition tA : GoTime.Time := GoTime.mkTime 1700000000000000000 0 0.
Definition tB : GoTime.Time := GoTime.mkTime 1700000000000001000 0 1000.

(** A source file with a bracket in its name. *)
Definition wBracket : World :=
  Backup.worldOf [("/", Dir 493); ("/src", Dir 493); ("/bk", Dir 493);
                  ("/src/a[1].txt", File [Byte.x61] 420)]%string 1700000000.

End Scenario.

(** ** The rest of watcher/watcher.go *)
Module WatcherLoop.
Import OS Config Watcher.

(** What the fsnotify watcher delivers: an event on its Events channel or an
    error on its Errors channel. *)
Inductive Msg :=
| MsgEvent (event : Event)
| MsgError (err : error).

(** watchLoop, on the messages in the order the select statement receives
    them; the end of the list is the closing of the channels.  An error is
    printed with the standard logger, whose output is not part of the world. *)
Fixpoint watchLoop (fw : FileWatcher) (msgs : list Msg) (w : World)
  : FileWatcher * World :=
  match msgs with
  | [] => (fw, w)
  | MsgEvent event :: rest =>
      let '(fw', w') := handleEvent fw event w in watchLoop fw' rest w'
  | MsgError _ :: rest => watchLoop fw rest w
  end.

(** GetStats: tracked_files, queue_length, queue_capacity; active_workers is
    the constant number of workers the watcher was built with. *)
Definition numWorkers : nat := 3.

Record Stats := mkStats {
  tracked_files : nat;
  queue_length : nat;
  queue_capacity : nat;
  active_workers : nat
}.

Definition GetStats (fw : FileWatcher) : Stats :=
  mkStats (size (lastBackup fw)) (length (backupQueue fw)) (queueCap fw) numWorkers.

(** The world after [n] more readings of the clock. *)
Definition ticked (w : World) (n : nat) : World :=
  mkWorld (fs w) (fault w) (umask w) (clock w) (n + ticks w) (events w).

(** The closure addDirectoryRecursive passes to filepath.Walk is called in
    one of two ways: with the FileInfo of an entry, or with an error (and
    the FileInfo if there is one). *)
Inductive visitArg :=
| Found (info : Node)
| Failed (info : option Node) (err : error).

(** What the closure, and the walk, return: nil, filepath.SkipDir, or
    another error. *)
Inductive walkErr :=
| WalkNil
| SkipDir
| WalkError (err : error).

(** The closure.  [addErr] is the error fsnotify's Add returns for a path,
    if any; a path is registered when Add returns nil. *)
Definition visit (addErr : string -> option error) (w : World) (fw : FileWatcher)
           (walkPath : string) (arg : visitArg) : walkErr * FileWatcher :=
  match arg with
  | Failed _ err => (WalkError err, fw)
  | Found info =>
      if shouldIgnore fw walkPath then
        if IsDir info then (SkipDir, fw) else (WalkNil, fw)
      else if isDir w walkPath then
        match addErr walkPath with
        | Some err => (WalkError err, fw)
        | None => (WalkNil, addWatch fw walkPath)
        end
      else (WalkNil, fw)
  end.

(** filepath.walk: the closure is called on the entry; for a directory
    that could be read and was not skipped, the entries are visited in
    sorted order.  [fuel] bounds the depth of the recursion: Walk starts
    with one more than the number of entries of the file system, and a tree
    of directories has no more levels than it has entries. *)
Fixpoint walk (fuel : nat) (addErr : string -> option error) (w : World)
         (path : string) (info : Node) (fw : FileWatcher) : walkErr * FileWatcher :=
  match fuel with
  | O => (WalkError (ErrorString "walk: too deep"), fw)
  | Datatypes.S fuel' =>
      if negb (IsDir info) then visit addErr w fw path (Found info)
      else
        let err := Open w path in
        let names := match err with Some _ => [] | None => readDirNames w path end in
        let '(err1, fw1) :=
          visit addErr w fw path
                (match err with Some e => Failed (Some info) e | None => Found info end) in
        match err, err1 with
        | None, WalkNil =>
            (fix entries (names : list string) (fw : FileWatcher) : walkErr * FileWatcher :=
               match names with
               | [] => (WalkNil, fw)
               | name :: rest =>
                   let filename := Filepath.Join path name in
                   match Lstat w filename with
                   | inl e =>
                       match visit addErr w fw filename (Failed None e) with
                       | (WalkError e', fw') => (WalkError e', fw')
                       | (_, fw') => entries rest fw'
                       end
                   | inr fileInfo =>
                       match walk fuel' addErr w filename fileInfo fw with
                       | (WalkNil, fw') => entries rest fw'
                       | (SkipDir, fw') =>
                           if IsDir fileInfo then entries rest fw' else (SkipDir, fw')
                       | (WalkError e', fw') => (WalkError e', fw')
                       end
                   end
               end) names fw1
        | _, _ => (err1, fw1)
        end
  end.

(** filepath.Walk. *)
Definition Walk (addErr : string -> option error) (w : World) (root : string)
           (fw : FileWatcher) : option error * FileWatcher :=
  let '(err, fw') :=
    match Lstat w root with
    | inl e => visit addErr w fw root (Failed None e)
    | inr info => walk (Datatypes.S (size (fs w))) addErr w root info fw
    end in
  match err with
  | WalkNil | SkipDir => (None, fw')
  | WalkError e => (Some e, fw')
  end.

Definition addDirectoryRecursive (addErr : string -> option error) (w : World)
           (fw : FileWatcher) (path : string) : option error * FileWatcher :=
  Walk addErr w path fw.

(** Start, up to the point where the workers and the event loop are
    started: the error it returns, or the watcher it goes on with. *)
Definition Start (addErr : string -> option error) (w : World) (fw : FileWatcher)
  : error + FileWatcher :=
  match addDirectoryRecursive addErr w fw (SourceDir (config fw)) with
  | (Some err, _) => inl (Wrapf "error adding directory" err)
  | (None, fw') => inr fw'
  end.

End WatcherLoop.

(** ** The workers of watcher/watcher.go *)
Module Worker.
Import OS Config Watcher Backup.

(** The BackupManager NewFileWatcher builds from the configuration. *)
Definition managerOf (fw : FileWatcher) : BackupManager :=
  NewBackupManager (BackupDir (config fw)) (MaxVersions (config fw)).

(** The file name a worker announces for a job. *)
Definition nameOf (job : BackupJob) : string := Filepath.Base (FilePath job).

(** What a worker has done when it ends: the world, the file names it
    announced with Logger.WorkerStarted, in order, and the value of the
    panic that ended it, if one did. *)
Record WorkerRun := mkWorkerRun {
  world : World;
  started : list string;
  recovered : option string
}.

(** The loop of backupWorker over the jobs the worker receives, in order;
    the end of the list is the closing of the channel. *)
Fixpoint workerLoop (fw : FileWatcher) (id : Z) (jobs : list BackupJob) (w : World)
         (started : list string) : WorkerRun :=
  match jobs with
  | [] => mkWorkerRun w started None
  | job :: rest =>
      let started := started ++ [nameOf job] in
      match CreateBackup (managerOf fw) (FilePath job) (SourceDir (config fw)) w with
      | (Returned None, w') => workerLoop fw id rest w' started
      | (Returned (Some err), w') =>
          workerLoop fw id rest
            (emit w' (EvLog (LogError ("Worker #" +:+ formatInt id +:+ ": " +:+ Error err))))
            started
      | (Panicked msg, w') => mkWorkerRun w' started (Some msg)
      end
  end.

(** backupWorker: the loop, then the deferred HandlePanic, which logs the
    value of a panic and lets the worker end. *)
Definition backupWorker (fw : FileWatcher) (id : Z) (jobs : list BackupJob) (w : World)
  : WorkerRun :=
  let r := workerLoop fw id jobs w [] in
  match recovered r with
  | Some msg =>
      mkWorkerRun
        (emit (world r)
              (EvLog (LogError ("PANIC in Worker #" +:+ formatInt id +:+ ": " +:+ msg))))
        (started r) (recovered r)
  | None => r
  end.

End Worker.

(** ** Relations the statements below are written with *)
Module Relations.
Import OS Config Watcher.

(** Matching a pattern chunk without metacharacters is stripping a prefix. *)
Fixpoint stripPrefix (lit s : string) : option string :=
  match lit with
  | EmptyString => Some s
  | String c lit' =>
      match s with
      | String b s' => if Ascii.eqb c b then stripPrefix lit' s' else None
      | EmptyString => None
      end
  end.

(** Two worlds with the same files and the same injected failures. *)
Definition sameFiles (w1 w2 : World) : Prop := fs w1 = fs w2 /\ fault w1 = fault w2.

(** [w'] has the clock, the log and the injected failures of [w], and every
    entry [w] has. *)
Definition keeps (w w' : World) : Prop :=
  fault w' = fault w /\ events w' = events w /\ ticks w' = ticks w /\ clock w' = clock w /\
  (forall p, is_Some (fs w !! p) -> fs w' !! p = fs w !! p).

(** [fw'] is [fw] with the directories [added] registered after those it
    had, each of them an existing directory that is not ignored and that
    fsnotify accepted. *)
Definition registers (addErr : string -> option error) (w : World)
           (fw fw' : FileWatcher) (added : list string) : Prop :=
  fw' = mkFileWatcher (config fw) (lastBackup fw) (backupQueue fw) (queueCap fw)
                      (watched fw ++ added) /\
  Forall (fun p => isDir w p = true /\ shouldIgnore fw p = false /\ addErr p = None) added.

End Relations.

(** ** More scenario data *)
Module ScenarioMore.
Import OS Config Watcher.

(** The world of the scenarios with an unreadable source: stat of
    /src/a.txt is refused. *)
Definition wStatDenied : World :=
  Scenario.withFault Scenario.w0 (fun c p =>
    match c with
    | SysStat => if String.eqb p "/src/a.txt" then Some EACCES else None
    | _ => None
    end).

(** A version store of /src/a.txt with two versions and nothing failing. *)
Definition wStore : World :=
  Backup.worldOf [("/", Dir 493); ("/src", Dir 493); ("/bk", Dir 493);
                  ("/src/a.txt", File [Byte.x61] 420);
                  ("/bk/a.txt_versions", Dir 493);
                  ("/bk/a.txt_versions/a_20231114_221310.000000.txt", File [] 420);
                  ("/bk/a.txt_versions/a_20231114_221315.000000.txt", File [] 420)]%string
                 1700000000.

Definition storedVersions : list string :=
  ["/bk/a.txt_versions/a_20231114_221310.000000.txt";
   "/bk/a.txt_versions/a_20231114_221315.000000.txt"]%string.

Definition bm0 : Backup.BackupManager := Backup.NewBackupManager "/bk" 0.

(** A watcher with room for one more job. *)
Definition fwAlmostFull : FileWatcher :=
  mkFileWatcher Scenario.cfg0 ∅
    (replicate 99 (mkBackupJob "/src/z.txt" "WRITE" (Backup.steadyClock 0 0))) 100 [].

(** Watchers whose source directory is a regular file, is missing, has a
    name that contains an ignore pattern, and one with a negative cap. *)
Definition fwFile : FileWatcher :=
  NewFileWatcher (NewConfig "/src/a.txt" "/bk" 3 (5 * GoTime.Second)).


Definition fwGithub : FileWatcher :=
  NewFileWatcher (NewConfig "/work/.github" "/bk" 3 (5 * GoTime.Second)).

Definition fwNegative : FileWatcher :=
  NewFileWatcher (NewConfig "/src" "/bk" (-1) (5 * GoTime.Second)).

(** A configuration with an empty ignore pattern. *)
Definition fwEmptyPattern : FileWatcher :=
  NewFileWatcher (mkConfig "/src" "/bk" 3 (5 * GoTime.Second) [""]%string).

(** fsnotify accepting every path, and refusing every path. *)
Definition addOk : string -> option error := fun _ => None.

Definition addRefused : string -> option error :=
  fun _ => Some (Errno KOther "no space left on device").

Definition jobA : BackupJob := mkBackupJob "/src/a.txt" "WRITE" (Backup.steadyClock 0 0).
Definition jobGone : BackupJob := mkBackupJob "/src/gone.txt" "WRITE" (Backup.steadyClock 0 0).

End ScenarioMore.


(** * Properties *)

(** ** Machine integers *)

Ltac int64_range :=
  unfold inInt64; split; [apply Z.leb_le | apply Z.ltb_lt]; vm_compute; reflexivity.

Lemma wrap64_id z : inInt64 z -> wrap64 z = z.
Proof.
  unfold inInt64, wrap64. intros Hz.
  rewrite Z.mod_small; lia.
Qed.

Lemma wrap64_range z : inInt64 (wrap64 z).
Proof.
  unfold inInt64, wrap64.
  pose proof (Z.mod_pos_bound (z + 2 ^ 63) (2 ^ 64) ltac:(lia)). lia.
Qed.


(** ** utils/errors.go: RetryWithBackoff *)

Module UtilsFacts.
Import Utils.

Section RetryFacts.
Context {S : Type}.
Variable maxRetries : Z.
Variable fn : S -> option error * S.
Hypothesis maxRetries_int : inInt64 maxRetries.

Lemma retryLoop_trace todo : forall i delay lastErr s zs calls,
  0 <= i -> i + Z.of_nat todo = maxRetries ->
  let r := retryLoop maxRetries fn todo i delay lastErr s zs calls in
  (calls + Nat.min 1 todo <= attempts r <= calls + todo)%nat /\
  slept r = zs ++ backoff64 delay (attempts r - calls - 1).
Proof using maxRetries_int.
  induction todo as [|todo IH]; intros i delay lastErr s zs calls Hi Hsum; cbn zeta.
  - cbn. split; [lia|]. replace (calls - calls - 1)%nat with O by lia.
    cbn. by rewrite app_nil_r.
  - cbn [retryLoop]. destruct (fn s) as [[err|] s'].
    + destruct (negb (IsRetryable err)).
      * cbn. split; [lia|]. replace (Datatypes.S calls - calls - 1)%nat with O by lia.
        cbn. by rewrite app_nil_r.
      * rewrite (wrap64_id (maxRetries - 1)) by (unfold inInt64 in *; lia).
        destruct (Z.ltb_spec i (maxRetries - 1)) as [Hlt|Hge].
        -- specialize (IH (i + 1) (wrap64 (delay * 2)) (Some err) s'
                          (zs ++ [delay]) (Datatypes.S calls) ltac:(lia) ltac:(lia)).
           cbn zeta in IH. destruct IH as [Hn Hs].
           assert (Nat.min 1 todo = 1%nat) as Hm by lia. rewrite Hm in Hn.
           split; [lia|]. rewrite Hs, <- app_assoc. f_equal.
           set (r := retryLoop _ _ _ _ _ _ _ _ _) in *.
           replace (attempts r - calls - 1)%nat
             with (Datatypes.S (attempts r - Datatypes.S calls - 1)) by lia.
           reflexivity.
        -- assert (todo = O) as -> by lia. cbn. split; [lia|].
           replace (Datatypes.S calls - calls - 1)%nat with O by lia.
           cbn. by rewrite app_nil_r.
    + cbn. split; [lia|]. replace (Datatypes.S calls - calls - 1)%nat with O by lia.
      cbn. by rewrite app_nil_r.
Qed.

(** Outcome of the loop when the first [k] calls fail retryably and call
    [k] settles the run (success or a non-retryable error). *)
Lemma retryLoop_settles todo : forall k i delay lastErr s zs calls,
  0 <= i -> i + Z.of_nat todo = maxRetries -> (k < todo)%nat ->
  (forall j, (j < k)%nat -> retryableFailure (outcomeAt fn j s)) ->
  match outcomeAt fn k s with
  | None => True
  | Some e => IsRetryable e = false
  end ->
  let r := retryLoop maxRetries fn todo i delay lastErr s zs calls in
  result r = outcomeAt fn k s /\ attempts r = (calls + k + 1)%nat /\
  final r = stateAt fn (Datatypes.S k) s.
Proof using maxRetries_int.
  induction todo as [|todo IH]; intros k i delay lastErr s zs calls Hi Hsum Hk Hpre Hat;
    [lia|].
  cbn zeta. cbn [retryLoop]. destruct k as [|k].
  - unfold outcomeAt in *. cbn [stateAt] in *.
    destruct (fn s) as [[err|] s']; cbn in *.
    + rewrite Hat. cbn. repeat split; lia.
    + repeat split; lia.
  - pose proof (Hpre O ltac:(lia)) as (err & He & Hr).
    unfold outcomeAt in He. cbn [stateAt] in He.
    destruct (fn s) as [o s'] eqn:Hfn. cbn in He. subst o. rewrite Hr. cbn [negb].
    rewrite (wrap64_id (maxRetries - 1)) by (unfold inInt64 in *; lia).
    assert (i < maxRetries - 1) as Hlt by lia.
    apply Z.ltb_lt in Hlt. rewrite Hlt.
    specialize (IH k (i + 1) (wrap64 (delay * 2)) (Some err) s' (zs ++ [delay])
                   (Datatypes.S calls) ltac:(lia) ltac:(lia) ltac:(lia)).
    cbn zeta in IH.
    assert (forall j, outcomeAt fn (Datatypes.S j) s = outcomeAt fn j s') as Hshift.
    { intros j. unfold outcomeAt. cbn [stateAt]. by rewrite Hfn. }
    destruct IH as (H1 & H2 & H3).
    + intros j Hj. rewrite <- Hshift. apply Hpre. lia.
    + by rewrite <- Hshift.
    + rewrite Hshift. repeat split; [done|lia|].
      rewrite H3. cbn [stateAt]. by rewrite Hfn.
Qed.

(** Outcome of the loop when every remaining call fails retryably. *)
Lemma retryLoop_exhausts todo : forall i delay lastErr s zs calls,
  0 <= i -> i + Z.of_nat todo = maxRetries ->
  (forall j, (j < todo)%nat -> retryableFailure (outcomeAt fn j s)) ->
  let r := retryLoop maxRetries fn todo i delay lastErr s zs calls in
  result r =
    Some (Errorf ("exceed max retries (" +:+ formatInt maxRetries +:+ ")")
            match todo with
            | O => lastErr
            | Datatypes.S n => outcomeAt fn n s
            end) /\
  attempts r = (calls + todo)%nat.
Proof using maxRetries_int.
  induction todo as [|todo IH]; intros i delay lastErr s zs calls Hi Hsum Hall; cbn zeta.
  - cbn. split; [done|lia].
  - cbn [retryLoop].
    pose proof (Hall O ltac:(lia)) as (err & He & Hr).
    unfold outcomeAt in He. cbn [stateAt] in He.
    destruct (fn s) as [o s'] eqn:Hfn. cbn in He. subst o. rewrite Hr. cbn [negb].
    assert (forall j, outcomeAt fn (Datatypes.S j) s = outcomeAt fn j s') as Hshift.
    { intros j. unfold outcomeAt. cbn [stateAt]. by rewrite Hfn. }
    assert (forall j, (j < todo)%nat -> retryableFailure (outcomeAt fn j s')) as Hall'.
    { intros j Hj. rewrite <- Hshift. apply Hall. lia. }
    assert (match todo with
            | O => Some err
            | Datatypes.S n => outcomeAt fn n s'
            end = outcomeAt fn todo s) as Hlast.
    { destruct todo; [|by rewrite Hshift].
      unfold outcomeAt. cbn [stateAt]. by rewrite Hfn. }
    destruct (i <? wrap64 (maxRetries - 1)).
    + destruct (IH (i + 1) (wrap64 (delay * 2)) (Some err) s' (zs ++ [delay])
                   (Datatypes.S calls) ltac:(lia) ltac:(lia) Hall') as [H1 H2].
      rewrite H1, H2, Hlast. split; [done|lia].
    + destruct (IH (i + 1) delay (Some err) s' zs
                   (Datatypes.S calls) ltac:(lia) ltac:(lia) Hall') as [H1 H2].
      rewrite H1, H2, Hlast. split; [done|lia].
Qed.
End RetryFacts.

Lemma backoff64_no_overflow n : forall base,
  (forall k, (k < n - 1)%nat -> inInt64 (base * 2 ^ (Z.of_nat k + 1))) ->
  backoff64 base n = backoff base n.
Proof.
  unfold backoff. induction n as [|n IH]; intros base Hfit; [done|].
  cbn [backoff64 seq map]. f_equal; [cbn; lia|].
  destruct n as [|n]; [done|].
  rewrite (wrap64_id (base * 2)).
  2:{ specialize (Hfit O ltac:(lia)). by replace (base * 2 ^ (Z.of_nat 0 + 1)) with (base * 2) in Hfit by lia. }
  rewrite IH.
  - rewrite <- seq_shift, map_map. apply map_ext. intros k.
    rewrite Nat2Z.inj_succ, Z.pow_succ_r by lia. lia.
  - intros k Hk. specialize (Hfit (Datatypes.S k) ltac:(lia)).
    rewrite Nat2Z.inj_succ in Hfit.
    replace (base * 2 * 2 ^ (Z.of_nat k + 1)) with (base * 2 ^ (Z.succ (Z.of_nat k) + 1)); [done|].
    rewrite (Z.pow_add_r 2 (Z.succ _) 1), Z.pow_succ_r, (Z.pow_add_r 2 _ 1) by lia. lia.
Qed.

Lemma scaled_pow2_fits base k K :
  0 <= k <= K -> inInt64 (base * 2 ^ K) -> inInt64 (base * 2 ^ k).
Proof.
  unfold inInt64. intros Hk Hfit.
  assert (0 < 2 ^ k) by (apply Z.pow_pos_nonneg; lia).
  assert (2 ^ k <= 2 ^ K) by (apply Z.pow_le_mono_r; lia).
  nia.
Qed.

(** C3 (as amended). For every operation and every attempt budget
    [maxRetries >= 1] for which the doubled delays stay within a signed
    64-bit duration, RetryWithBackoff calls [fn] at least once and at most
    [maxRetries] times; it sleeps once between consecutive attempts, for
    base, 2 base, 4 base, ...; it returns nil at the first success, the
    error of [fn] itself at the first non-retryable failure, and after
    [maxRetries] retryable failures an "exceed max retries" error that wraps
    the last error of [fn]. *)
Theorem RetryWithBackoff_backoff_spec {S : Type} (maxRetries initialDelay : Z)
    (fn : S -> option error * S) (s : S) :
  1 <= maxRetries -> inInt64 maxRetries ->
  inInt64 (initialDelay * 2 ^ Z.max 0 (maxRetries - 2)) ->
  let r := RetryWithBackoff maxRetries fn initialDelay s in
  (1 <= attempts r <= Z.to_nat maxRetries)%nat /\
  slept r = backoff initialDelay (attempts r - 1) /\
  (forall k, (k < Z.to_nat maxRetries)%nat ->
     (forall j, (j < k)%nat -> retryableFailure (outcomeAt fn j s)) ->
     (outcomeAt fn k s = None ->
        result r = None /\ attempts r = Datatypes.S k) /\
     (forall e, outcomeAt fn k s = Some e -> IsRetryable e = false ->
        result r = Some e /\ attempts r = Datatypes.S k)) /\
  ((forall j, (j < Z.to_nat maxRetries)%nat -> retryableFailure (outcomeAt fn j s)) ->
     exists e, outcomeAt fn (Z.to_nat maxRetries - 1) s = Some e /\
       result r = Some (Wrapf ("exceed max retries (" +:+ formatInt maxRetries +:+ ")") e) /\
       attempts r = Z.to_nat maxRetries).
Proof.
  intros Hpos Hint Hfit r. subst r. unfold RetryWithBackoff.
  destruct (retryLoop_trace maxRetries fn Hint (Z.to_nat maxRetries) 0 initialDelay
              None s [] O ltac:(lia) ltac:(lia)) as [Hn Hs].
  set (r := retryLoop _ _ _ _ _ _ _ _ _) in *.
  split; [lia|]. split.
  - rewrite Hs. cbn [app]. replace (attempts r - 0 - 1)%nat with (attempts r - 1)%nat by lia.
    apply backoff64_no_overflow. intros k Hk.
    apply scaled_pow2_fits with (K := Z.max 0 (maxRetries - 2)); [lia|done].
  - split.
    + intros k Hk Hpre. split.
      * intros Hok.
        destruct (retryLoop_settles maxRetries fn Hint (Z.to_nat maxRetries) k 0
                    initialDelay None s [] O ltac:(lia) ltac:(lia) Hk Hpre) as (H1 & H2 & _).
        { by rewrite Hok. }
        fold r in H1, H2. rewrite H1, H2, Hok. split; [done|lia].
      * intros e He Hfatal.
        destruct (retryLoop_settles maxRetries fn Hint (Z.to_nat maxRetries) k 0
                    initialDelay None s [] O ltac:(lia) ltac:(lia) Hk Hpre) as (H1 & H2 & _).
        { by rewrite He. }
        fold r in H1, H2. rewrite H1, H2, He. split; [done|lia].
    + intros Hall.
      destruct (retryLoop_exhausts maxRetries fn Hint (Z.to_nat maxRetries) 0
                  initialDelay None s [] O ltac:(lia) ltac:(lia) Hall) as [H1 H2].
      fold r in H1, H2.
      destruct (Z.to_nat maxRetries) as [|n] eqn:Hn'; [lia|].
      destruct (Hall n ltac:(lia)) as (e & He & _).
      exists e. replace (Datatypes.S n - 1)%nat with n by lia.
      rewrite H1, H2, He. cbn. done.
Qed.


Lemma RetryWithBackoff_backoff_spec_witness :
  let r := RetryWithBackoff 3 (flaky 2) 100000000 O in
  result r = None /\ attempts r = 3%nat /\ slept r = [100000000; 200000000].
Proof.
  intros r.
  pose proof (RetryWithBackoff_backoff_spec 3 100000000 (flaky 2) O
                ltac:(lia) ltac:(int64_range) ltac:(int64_range)) as H.
  cbn zeta in H. fold r in H. destruct H as (_ & Hs & Hk & _).
  destruct (Hk 2%nat ltac:(vm_compute; lia)) as [Hok _].
  { intros j Hj. destruct j as [|[|j]]; [eexists; split; reflexivity..|lia]. }
  destruct (Hok eq_refl) as [Hr Ha].
  rewrite Ha in Hs. exact (conj Hr (conj Ha Hs)).
Defined.

(** C3 as stated fails on the code: with the 100ms base delay and 39
    attempts that all fail retryably, the 38th delay has overflowed the
    64-bit duration, so the recorded delays are not base, 2 base, 4 base ... *)
Lemma RetryWithBackoff_doubling_overflows :
  let r := RetryWithBackoff 39 denied 100000000 O in
  attempts r = 39%nat /\
  slept r <> backoff 100000000 (attempts r - 1) /\
  nth 37 (slept r) 0 = -4702848726509551616 /\
  nth 37 (backoff 100000000 38) 0 = 13743895347200000000.
Proof.
  vm_compute. split; [reflexivity|]. split; [discriminate|]. split; reflexivity.
Qed.

(** C10. With a non-positive attempt budget RetryWithBackoff never calls
    [fn], never sleeps, and returns the non-nil "exceed max retries" error
    (wrapping a nil cause). *)
Theorem RetryWithBackoff_nonpositive_budget {S : Type} (maxRetries initialDelay : Z)
    (fn : S -> option error * S) (s : S) :
  maxRetries <= 0 ->
  let r := RetryWithBackoff maxRetries fn initialDelay s in
  result r = Some (WrapfNil ("exceed max retries (" +:+ formatInt maxRetries +:+ ")")) /\
  result r <> None /\ attempts r = O /\ slept r = [] /\ final r = s.
Proof.
  intros Hle r. subst r. unfold RetryWithBackoff.
  replace (Z.to_nat maxRetries) with O by lia. cbn. done.
Qed.

Lemma RetryWithBackoff_nonpositive_budget_witness :
  let r := RetryWithBackoff (-1) (flaky 0) 100000000 O in
  result r = Some (WrapfNil "exceed max retries (-1)") /\ attempts r = O.
Proof.
  intros r.
  destruct (RetryWithBackoff_nonpositive_budget (-1) 100000000 (flaky 0) O ltac:(lia))
    as (Hr & _ & Ha & _).
  exact (conj Hr Ha).
Defined.

End UtilsFacts.

(** ** watcher/watcher.go: the event handler and the debounce check *)

Module WatcherFacts.
Import OS Config Watcher.

Lemma ignoredBy_iff patterns path base :
  ignoredBy patterns path base = true <->
  exists pattern, In pattern patterns /\
    (Filepath.matched pattern base = true \/ Strs.Contains path pattern = true).
Proof.
  induction patterns as [|p rest IH]; cbn [ignoredBy].
  - split; [discriminate|]. intros (? & [] & _).
  - destruct (Filepath.matched p base) eqn:Hm.
    { split; [|done]. intros _. exists p. split; [by left|by left]. }
    destruct (Strs.Contains path p) eqn:Hc.
    { split; [|done]. intros _. exists p. split; [by left|by right]. }
    rewrite IH. split.
    + intros (q & Hq & Hor). exists q. split; [by right|done].
    + intros (q & [<-|Hq] & Hor).
      * destruct Hor; congruence.
      * by exists q.
Qed.


Lemma dispatch_skips fw name eventType w :
  isDir w name || shouldIgnore fw name = true ->
  dispatch fw name eventType w = (fw, w).
Proof.
  unfold dispatch. intros H.
  destruct (isDir w name); [done|]. cbn in H. by rewrite H.
Qed.

Lemma isDir_emit w e path : isDir (emit w e) path = isDir w path.
Proof. reflexivity. Qed.

(** C7. An event whose operation is remove, rename or permission-change
    leaves the watcher (debounce map, job queue, watch list) as it was and
    reads no clock; and whatever the operation bits, unless the event is a
    create or write on a path that is neither a directory nor ignored, the
    debounce map and the job queue are untouched and no clock is read, that
    is, enqueueBackup is not entered. *)
Theorem handleEvent_enqueues_only_create_write fw name w :
  (forall op, In op [Remove; Rename; Chmod] ->
     let r := handleEvent fw (mkEvent name op) w in
     fst r = fw /\ fs (snd r) = fs w /\ ticks (snd r) = ticks w) /\
  (forall op,
     (has op Create || has op Write) && negb (isDir w name) &&
       negb (shouldIgnore fw name) = false ->
     let r := handleEvent fw (mkEvent name op) w in
     lastBackup (fst r) = lastBackup fw /\ backupQueue (fst r) = backupQueue fw /\
     ticks (snd r) = ticks w).
Proof.
  split.
  - intros op Hop. cbn in Hop.
    destruct Hop as [<-|[<-|[<-|[]]]]; cbn; done.
  - intros op Hcond r. subst r. unfold handleEvent. cbn [Name Op].
    destruct (has op Create) eqn:Hc.
    + cbn in Hcond. destruct (isDir w name) eqn:Hd.
      * rewrite dispatch_skips by (rewrite isDir_emit, isDir_emit, Hd; done). done.
      * cbn in Hcond. apply negb_false_iff in Hcond.
        rewrite dispatch_skips by (rewrite isDir_emit, Hd, Hcond; done). done.
    + destruct (has op Write) eqn:Hw.
      * cbn in Hcond.
        rewrite dispatch_skips; [done|]. rewrite isDir_emit.
        destruct (isDir w name); [done|]. cbn in Hcond.
        apply negb_false_iff in Hcond. by rewrite Hcond.
      * destruct (has op Remove); [done|]. destruct (has op Rename); [done|].
        destruct (has op Chmod); done.
Qed.

Lemma handleEvent_enqueues_only_create_write_witness :
  fst (handleEvent Scenario.fw0 (mkEvent "/src/a.txt" Remove) Scenario.w0) = Scenario.fw0 /\
  backupQueue (fst (handleEvent Scenario.fw0 (mkEvent "/src/b.tmp" Write) Scenario.w0)) = [].
Proof.
  split.
  - destruct (handleEvent_enqueues_only_create_write Scenario.fw0 "/src/a.txt" Scenario.w0)
      as [H _].
    destruct (H Remove ltac:(cbn; tauto)) as [Hfw _]. exact Hfw.
  - destruct (handleEvent_enqueues_only_create_write Scenario.fw0 "/src/b.tmp" Scenario.w0)
      as [_ H].
    destruct (H Write ltac:(vm_compute; reflexivity)) as (_ & Hq & _). exact Hq.
Defined.



(** C2 (as amended). The debounce check suppresses the event exactly when
    the path has a recorded last-backup time and the time since then, at the
    moment of the check, is below MinInterval; a suppressed event leaves the
    watcher unchanged.  An admitted event is sent to the job queue; when the
    queue accepts it, the map records for the path the clock reading taken
    after the send (the last of the call's readings) and the job is queued
    last; when the queue is full, the watcher, map included, is unchanged. *)
Theorem enqueueBackup_debounce fw path eventType w :
  let r := enqueueBackup fw path eventType w in
  let skipped :=
    EvLog (LogBackupSkipped (Filepath.Base path) "too soon since last backup") in
  (last (events (snd r)) = Some skipped <->
   exists lastTime, lastBackup fw !! path = Some lastTime /\
     GoTime.Sub (clock w (ticks w)) lastTime < MinInterval (config fw)) /\
  (last (events (snd r)) = Some skipped -> fst r = fw) /\
  (last (events (snd r)) <> Some skipped ->
   (length (backupQueue fw) < queueCap fw)%nat ->
   lastBackup (fst r) = <[path := clock w (ticks (snd r) - 1)]> (lastBackup fw) /\
   exists stamp,
     backupQueue (fst r) = backupQueue fw ++ [mkBackupJob path eventType stamp]) /\
  (last (events (snd r)) <> Some skipped ->
   (queueCap fw <= length (backupQueue fw))%nat -> fst r = fw).
Proof.
  intros r skipped. subst r. unfold enqueueBackup.
  destruct (lastBackup fw !! path) as [lastTime|] eqn:Hlook; cbn [Now].
  - destruct (Z.ltb_spec (GoTime.Sub (clock w (ticks w)) lastTime) (MinInterval (config fw)))
      as [Hsoon|Hlate].
    + cbn [snd fst emit events]. rewrite last_snoc.
      split; [|split; [|split]]; try done.
      split; [|done]. intros _. by exists lastTime.
    + assert (~ exists t, Some lastTime = Some t /\
                GoTime.Sub (clock w (ticks w)) t < MinInterval (config fw)) as Hno.
      { intros (t & Ht & Hlt). simplify_eq. lia. }
      destruct (Nat.ltb_spec (length (backupQueue fw)) (queueCap fw)) as [Hroom|Hfull];
        cbn [snd fst emit events ticks withQueue lastBackup backupQueue];
        rewrite last_snoc.
      * split; [|split; [|split]]; try done.
        -- intros _ _. split; [|by eexists]. do 2 f_equal; lia.
        -- lia.
      * split; [|split; [|split]]; try done. lia.
  - assert (~ exists t, @None GoTime.Time = Some t /\
              GoTime.Sub (clock w (ticks w)) t < MinInterval (config fw)) as Hno.
    { by intros (t & Ht & _). }
    destruct (Nat.ltb_spec (length (backupQueue fw)) (queueCap fw)) as [Hroom|Hfull];
      cbn [snd fst emit events ticks withQueue lastBackup backupQueue];
      rewrite last_snoc.
    + split; [|split; [|split]]; try done.
      * intros _ _. split; [|by eexists]. do 2 f_equal; lia.
      * lia.
    + split; [|split; [|split]]; try done. lia.
Qed.

Lemma enqueueBackup_debounce_witness :
  let r := enqueueBackup Scenario.fw0 "/src/a.txt" "WRITE" Scenario.w0 in
  lastBackup (fst r) = <[("/src/a.txt")%string := Backup.steadyClock 1700000000 1]> ∅.
Proof.
  intros r.
  destruct (enqueueBackup_debounce Scenario.fw0 "/src/a.txt" "WRITE" Scenario.w0)
    as (_ & _ & H & _).
  destruct H as [H _]; [vm_compute; discriminate|vm_compute; lia|].
  exact H.
Defined.

(** C2 as stated fails on the code: with a full job queue an event for a
    path without a prior entry passes the debounce check, yet nothing is
    recorded for the path. *)
Lemma enqueueBackup_admitted_unrecorded :
  let r := enqueueBackup Scenario.fwFull "/src/a.txt" "WRITE" Scenario.w0 in
  lastBackup Scenario.fwFull !! ("/src/a.txt")%string = None /\
  last (events (snd r)) = Some (EvLog (LogWarning "Queue full, skipping backup for: a.txt")) /\
  lastBackup (fst r) !! ("/src/a.txt")%string = None.
Proof.
  vm_compute. done.
Qed.

(** When both readings come from the running process, [Sub] is the plain
    difference of the monotonic readings. *)
Lemma Sub_exact t u :
  inInt64 (GoTime.mono t - GoTime.mono u) ->
  GoTime.Sub t u = GoTime.mono t - GoTime.mono u.
Proof.
  unfold inInt64, GoTime.Sub. intros H.
  destruct (Z.ltb_spec (GoTime.mono t - GoTime.mono u) (- 2 ^ 63)); [lia|].
  destruct (Z.ltb_spec (2 ^ 63 - 1) (GoTime.mono t - GoTime.mono u)); lia.
Qed.

End WatcherFacts.

(** ** utils/errors.go: SafeCopyFile *)

Module CopyFacts.
Import OS Utils.

Lemma errorsIs_exclusive err :
  errorsIs KNotExist err = true -> errorsIs KPermission err = false.
Proof.
  induction err; cbn; try done.
  destruct k; cbn; done.
Qed.

Lemma copyLoop_failure src dst chunks : forall i w e w',
  copyLoop src dst chunks i w = (Some e, w') ->
  (exists err k, e = BackupError src "read" err true /\
     fault w' (SysRead k) src = Some err /\ Error err <> "EOF"%string) \/
  (exists err k buf, e = BackupError dst "write" err true /\
     Write w' dst k buf = inl err).
Proof.
  induction chunks as [|buf rest IH]; intros i w e w' H; cbn [copyLoop] in H.
  - destruct (fault w (SysRead i) src) as [err|] eqn:Hf; [|done].
    destruct (String.eqb_spec (Error err) "EOF"); [done|].
    simplify_eq. left. by exists err, i.
  - destruct (fault w (SysRead i) src) as [err|] eqn:Hf.
    + destruct (String.eqb_spec (Error err) "EOF"); [done|].
      simplify_eq. left. by exists err, i.
    + destruct (Write w dst i buf) as [err|w1] eqn:Hw.
      * simplify_eq. right. by exists err, i, buf.
      * by apply IH in H.
Qed.

(** C4. What one copy attempt of SafeCopyFile returns: a failed stat gives
    an error that is not retryable when the cause is "does not exist" and
    retryable when it is a permission error; a directory gives a
    non-retryable error; any failure of the read/write loop is a "read" or
    "write" error and is retryable, and a failing read (other than EOF) or
    write does make the loop fail at that point; and once the loop has copied
    the bytes the attempt returns nil whether or not the chmod succeeds. *)
Theorem copyAttempt_classification src dst w :
  let r := copyAttempt src dst w in
  let w' := emit w (EvCopyAttempt src dst) in
  (forall err, Stat w src = inl err ->
     exists e, fst r = Some e /\
       (errorsIs KNotExist err = true -> IsRetryable e = false) /\
       (errorsIs KPermission err = true -> IsRetryable e = true)) /\
  (forall m, Stat w src = inr (Dir m) ->
     exists e, fst r = Some e /\ IsRetryable e = false) /\
  (forall c m w1, Stat w src = inr (File c m) -> Open w src = None ->
     Create w' dst = inr w1 ->
     let content := contentOf w1 src in
     let loop := copyLoop src dst (chunksOf (length content) content) O w1 in
     match fst loop with
     | Some e =>
         fst r = Some e /\ IsRetryable e = true /\
         exists err, e = BackupError src "read" err true \/
                     e = BackupError dst "write" err true
     | None =>
         fst r = None /\
         (forall err, Chmod (snd loop) dst m = inl err -> r = (None, snd loop))
     end) /\
  (forall chunks i w1 err, fault w1 (SysRead i) src = Some err ->
     Error err <> "EOF"%string ->
     copyLoop src dst chunks i w1 = (Some (BackupError src "read" err true), w1)) /\
  (forall buf rest i w1 err, fault w1 (SysRead i) src = None ->
     Write w1 dst i buf = inl err ->
     copyLoop src dst (buf :: rest) i w1 = (Some (BackupError dst "write" err true), w1)).
Proof.
  intros r w'. subst r w'. unfold copyAttempt.
  change (Stat (emit w (EvCopyAttempt src dst)) src) with (Stat w src).
  change (Open (emit w (EvCopyAttempt src dst)) src) with (Open w src).
  split; [|split; [|split; [|split]]].
  - intros err ->. eexists. split; [reflexivity|]. cbn. split.
    + apply errorsIs_exclusive.
    + done.
  - intros m ->. cbn. eexists. split; [reflexivity|done].
  - intros c m w1 -> -> ->. cbn [IsDir Mode].
    destruct (copyLoop src dst _ O w1) as [[e|] w2] eqn:Hloop; cbn [fst snd].
    + split; [done|]. apply copyLoop_failure in Hloop.
      destruct Hloop as [(err & k & -> & _)|(err & k & buf & -> & _)].
      * split; [done|]. exists err. by left.
      * split; [done|]. exists err. by right.
    + destruct (Chmod w2 dst m) as [err|w3] eqn:Hch; cbn [fst].
      * split; [done|]. done.
      * split; [done|]. done.
  - intros chunks i w1 err Hf Hne. destruct chunks; cbn [copyLoop]; rewrite Hf;
      by destruct (String.eqb_spec (Error err) "EOF").
  - intros buf rest i w1 err Hf Hw. cbn [copyLoop]. by rewrite Hf, Hw.
Qed.

Lemma copyAttempt_classification_witness :
  (exists e, fst (copyAttempt "/src/a.txt" "/bk/a" Scenario.wReadFault) = Some e /\
     IsRetryable e = true) /\
  fst (copyAttempt "/src/a.txt" "/bk/a" Scenario.wChmodFault) = None /\
  (exists e, fst (copyAttempt "/src/gone.txt" "/bk/a" Scenario.w0) = Some e /\
     IsRetryable e = false).
Proof.
  split; [|split].
  - destruct (copyAttempt_classification "/src/a.txt" "/bk/a" Scenario.wReadFault)
      as (_ & _ & H & _).
    specialize (H [Byte.x61] 420 _ ltac:(reflexivity) ltac:(reflexivity) ltac:(reflexivity)).
    cbn zeta in H.
    destruct (fst (copyLoop _ _ _ _ _)) as [e|] eqn:He; [|vm_compute in He; discriminate].
    destruct H as (Hr & Hret & _). by exists e.
  - destruct (copyAttempt_classification "/src/a.txt" "/bk/a" Scenario.wChmodFault)
      as (_ & _ & H & _).
    specialize (H [Byte.x61] 420 _ ltac:(reflexivity) ltac:(reflexivity) ltac:(reflexivity)).
    cbn zeta in H.
    destruct (fst (copyLoop _ _ _ _ _)) as [e|] eqn:He; [vm_compute in He; discriminate|].
    exact (proj1 H).
  - destruct (copyAttempt_classification "/src/gone.txt" "/bk/a" Scenario.w0) as (H & _).
    destruct (H _ ltac:(reflexivity)) as (e & He & Hno & _).
    exists e. split; [exact He|]. exact (Hno ltac:(reflexivity)).
Defined.

End CopyFacts.

(** ** watcher/backup.go: CreateBackup and cleanOldVersions *)

Module BackupFacts.
Import OS Utils Backup.



(** A run of the retry loop that returns nil ends with a call of [fn] that
    returned nil. *)
Lemma retryLoop_success_final {S : Type} maxRetries (fn : S -> option error * S) todo :
  forall i delay lastErr s zs calls,
  result (retryLoop maxRetries fn todo i delay lastErr s zs calls) = None ->
  exists s0, fn s0 = (None, final (retryLoop maxRetries fn todo i delay lastErr s zs calls)).
Proof.
  induction todo as [|todo IH]; intros i delay lastErr s zs calls; cbn [retryLoop].
  - cbn. discriminate.
  - destruct (fn s) as [[err|] s'] eqn:Hfn.
    + destruct (negb (IsRetryable err)); [cbn; discriminate|].
      destruct (i <? wrap64 (maxRetries - 1)); apply IH.
    + intros _. by exists s.
Qed.

Lemma copyLoop_keeps_file src dst chunks : forall i w w' c m,
  fs w !! dst = Some (File c m) ->
  copyLoop src dst chunks i w = (None, w') ->
  exists c', fs w' !! dst = Some (File c' m).
Proof.
  induction chunks as [|buf rest IH]; intros i w w' c m Hdst H; cbn [copyLoop] in H.
  - destruct (fault w (SysRead i) src) as [err|].
    + destruct (String.eqb (Error err) "EOF"); [|done]. simplify_eq. by exists c.
    + simplify_eq. by exists c.
  - destruct (fault w (SysRead i) src) as [err|].
    + destruct (String.eqb (Error err) "EOF"); [|done]. simplify_eq. by exists c.
    + unfold Write in H. destruct (fault w (SysWrite i) dst); [done|].
      rewrite Hdst in H. eapply IH; [|exact H]. cbn. apply lookup_insert_eq.
Qed.

(** A copy attempt that returns nil leaves a regular file at the destination. *)
Lemma copyAttempt_success_file src dst w w' :
  copyAttempt src dst w = (None, w') ->
  exists c m, fs w' !! dst = Some (File c m).
Proof.
  unfold copyAttempt. intros H.
  destruct (Stat _ src) as [err|srcInfo]; [done|].
  destruct (IsDir srcInfo); [done|].
  destruct (Open _ src); [done|].
  destruct (Create _ dst) as [err|w1] eqn:Hcreate; [done|].
  assert (exists m, fs w1 !! dst = Some (File [] m)) as [m Hdst].
  { unfold Create in Hcreate. destruct (fault _ SysCreate dst); [done|].
    destruct (if String.eqb (parent dst) "" then _ else _); [done|].
    destruct (fs _ !! dst) as [[c m|m]|]; simplify_eq; cbn;
      eexists; apply lookup_insert_eq. }
  destruct (copyLoop src dst _ O w1) as [[e|] w2] eqn:Hloop; [done|].
  destruct (copyLoop_keeps_file _ _ _ _ _ _ _ _ Hdst Hloop) as [c' Hc'].
  destruct (Chmod w2 dst (Mode srcInfo)) as [err|w3] eqn:Hch; simplify_eq.
  - by exists c', m.
  - unfold Chmod in Hch. destruct (fault w2 SysChmod dst); [done|].
    rewrite Hc' in Hch. simplify_eq. cbn. eexists _, _. apply lookup_insert_eq.
Qed.

Lemma SafeCopyFile_success_file src dst maxRetries w :
  result (SafeCopyFile src dst maxRetries w) = None ->
  exists c m, fs (final (SafeCopyFile src dst maxRetries w)) !! dst = Some (File c m).
Proof.
  unfold SafeCopyFile, RetryWithBackoff. intros H.
  destruct (retryLoop_success_final _ _ _ _ _ _ _ _ _ H) as [s0 Hs0].
  by apply copyAttempt_success_file in Hs0.
Qed.

Lemma length_insertSorted x l : length (insertSorted x l) = Datatypes.S (length l).
Proof.
  induction l as [|y l IH]; [done|]. cbn. destruct (String.leb x y); cbn; lia.
Qed.

Lemma length_sortStrings l : length (sortStrings l) = length l.
Proof.
  unfold sortStrings. induction l as [|x l IH]; [done|].
  cbn [foldr]. by rewrite length_insertSorted, IH.
Qed.

Lemma Remove_inr w path w' :
  Remove w path = inr w' ->
  fault w SysRemove path = None /\ fault w' = fault w /\ fs w' = delete path (fs w) /\
  events w' = events w ++ [EvRemove path].
Proof.
  unfold Remove. destruct (fault w SysRemove path); [done|].
  destruct (fs w !! path) as [[c m|m]|]; [| |done].
  - intros. by simplify_eq.
  - destruct (readDirNames w path); [|done]. intros. by simplify_eq.
Qed.

(** The removal loop stops with an error as soon as a deletion fails, and
    has touched nothing outside the entries it was given to delete. *)
Lemma removeLoop_fault sorted todo : forall i w,
  (exists p, p ∈ take todo (drop i sorted) /\ fault w SysRemove p <> None) ->
  exists e w', removeLoop sorted todo i w = (Returned (Some e), w') /\
    forall q, q ∉ take todo (drop i sorted) -> fs w' !! q = fs w !! q.
Proof.
  induction todo as [|todo IH]; intros i w (p & Hp & Hf).
  - by apply elem_of_nil in Hp.
  - cbn [removeLoop]. destruct (sorted !! i) as [path|] eqn:Hi.
    + rewrite (drop_S _ _ _ Hi) in Hp |- *. cbn [take] in Hp |- *.
      destruct (Remove w path) as [err|w1] eqn:Hrm.
      * exists err, w. done.
      * apply Remove_inr in Hrm as (Hnf & Hfault & Hfs & _).
        apply elem_of_cons in Hp as [->|Hp]; [done|].
        destruct (IH (Datatypes.S i)
                    (emit w1 (EvLog (LogInfo ("	Removed old version: " +:+ Filepath.Base path)))))
          as (e & w' & Hloop & Hkeep).
        { exists p. split; [done|]. cbn. by rewrite Hfault. }
        exists e, w'. split; [done|]. intros q Hq.
        apply not_elem_of_cons in Hq as [Hne Hq].
        rewrite (Hkeep q Hq). cbn. rewrite Hfs. by apply lookup_delete_ne.
    + apply lookup_ge_None in Hi. rewrite drop_ge in Hp by lia.
      rewrite take_nil in Hp. by apply elem_of_nil in Hp.
Qed.

(** C9 (as amended). When the copy of the new version has succeeded and the
    deletion of one of the excess entries (the first [count - maxVersions]
    matches in sorted order) fails, CreateBackup returns the "error cleaning
    old versions" error, and the newly written version file is still there,
    provided it is not itself one of those excess entries. *)
Theorem CreateBackup_eviction_failure bm sourcePath sourceDir w relPath w1 matches :
  let statErr := match Stat w sourcePath with inl e => Some e | inr _ => None end in
  let t := clock w (ticks w) in
  let dir := fileVersionDirOf bm relPath in
  let backupPath := backupPathOf bm relPath t in
  let run := SafeCopyFile sourcePath backupPath 3 w1 in
  let w2 := emit (final run)
              (EvLog (LogBackupCreated (Filepath.Base sourcePath) (backupNameOf relPath t))) in
  let excess :=
    take (Z.to_nat (Z.of_nat (length matches) - maxVersions bm)) (sortStrings matches) in
  osIsNotExist statErr = false ->
  Filepath.Rel sourceDir sourcePath = inr relPath ->
  MkdirAll dir 493 (snd (Now w)) = (None, w1) ->
  result run = None ->
  Glob w2 (Filepath.Join dir (nameWithoutExtOf relPath +:+ "_*" +:+ extOf relPath))
    = inr matches ->
  inInt64 (Z.of_nat (length matches) - maxVersions bm) ->
  (exists p, p ∈ excess /\ fault w2 SysRemove p <> None) ->
  backupPath ∉ excess ->
  exists e w3,
    CreateBackup bm sourcePath sourceDir w =
      (Returned (Some (Wrapf "error cleaning old versions" e)), w3) /\
    exists c m, fs w3 !! backupPath = Some (File c m).
Proof.
  intros statErr t dir backupPath run w2 excess Hstat Hrel Hmk Hcopy Hglob Hint Hfail Hnew.
  unfold CreateBackup. fold statErr. rewrite Hstat, Hrel. cbn [Now].
  fold t. fold dir. cbn [Now snd] in Hmk. rewrite Hmk.
  change (Filepath.Join dir (backupNameOf relPath t)) with backupPath.
  fold run. rewrite Hcopy. fold w2.
  unfold cleanOldVersions. rewrite Hglob.
  assert (0 < Z.to_nat (Z.of_nat (length matches) - maxVersions bm))%nat as Hpos.
  { destruct Hfail as (p & Hp & _). unfold excess in Hp.
    destruct (Z.to_nat _); [by apply elem_of_nil in Hp|lia]. }
  destruct (Z.leb_spec (Z.of_nat (length matches)) (maxVersions bm)) as [Hle|Hgt]; [lia|].
  rewrite length_sortStrings, (wrap64_id _ Hint).
  destruct (removeLoop_fault (sortStrings matches)
              (Z.to_nat (Z.of_nat (length matches) - maxVersions bm)) O w2)
    as (e & w3 & Hloop & Hkeep).
  { by rewrite drop_0. }
  rewrite Hloop. exists e, w3. split; [done|].
  rewrite drop_0 in Hkeep. rewrite (Hkeep backupPath Hnew).
  destruct (SafeCopyFile_success_file _ _ _ _ Hcopy) as (c & m & Hfile).
  by exists c, m.
Qed.

Lemma string_leb_trans a : forall b c,
  String.leb a b = true -> String.leb b c = true -> String.leb a c = true.
Proof.
  unfold String.leb.
  induction a as [|x a IH]; intros [|y b] [|z c]; cbn [String.compare]; try done.
  unfold Ascii.compare.
  destruct (N.compare_spec (N_of_ascii x) (N_of_ascii y)) as [Hxy|Hxy|Hxy];
    destruct (N.compare_spec (N_of_ascii y) (N_of_ascii z)) as [Hyz|Hyz|Hyz];
    destruct (N.compare_spec (N_of_ascii x) (N_of_ascii z)) as [Hxz|Hxz|Hxz];
    try done; try lia.
  apply IH.
Qed.

Lemma insertSorted_perm x l : insertSorted x l ≡ₚ x :: l.
Proof.
  induction l as [|y l IH]; [done|]. cbn [insertSorted].
  destruct (String.leb x y); [done|]. rewrite IH. apply Permutation_swap.
Qed.

Lemma sortStrings_perm l : sortStrings l ≡ₚ l.
Proof.
  unfold sortStrings. induction l as [|x l IH]; [done|].
  cbn [foldr]. by rewrite insertSorted_perm, IH.
Qed.

Lemma insertSorted_sorted x l :
  StronglySorted lebR l -> StronglySorted lebR (insertSorted x l).
Proof.
  induction 1 as [|y l Hs IH Hall]; cbn [insertSorted].
  - repeat constructor.
  - destruct (String.leb x y) eqn:Hxy.
    + constructor; [by constructor|]. constructor; [done|].
      eapply Forall_impl; [exact Hall|]. intros z Hz. by eapply string_leb_trans.
    + constructor; [done|].
      rewrite insertSorted_perm. constructor; [|done].
      destruct (String.leb_total x y) as [H|H]; [congruence|done].
Qed.

Lemma sortStrings_sorted l : StronglySorted lebR (sortStrings l).
Proof.
  unfold sortStrings. induction l as [|x l IH]; [constructor|].
  cbn [foldr]. by apply insertSorted_sorted.
Qed.

Lemma sorted_split l1 : forall l2 x y,
  StronglySorted lebR (l1 ++ l2) -> x ∈ l1 -> y ∈ l2 -> String.leb x y = true.
Proof.
  induction l1 as [|a l1 IH]; intros l2 x y Hs Hx Hy; [by apply elem_of_nil in Hx|].
  cbn in Hs. apply StronglySorted_inv in Hs as [Hs Hall].
  apply elem_of_cons in Hx as [->|Hx]; [|by eapply IH].
  rewrite Forall_forall in Hall. apply Hall, elem_of_app. by right.
Qed.

(** A removal loop that returns nil has deleted exactly the entries it was
    given, in their order, logging each one. *)
Lemma removeLoop_success sorted todo : forall i w w',
  removeLoop sorted todo i w = (Returned None, w') ->
  events w' = events w ++
    flat_map (fun p => [EvRemove p; EvLog (LogInfo ("	Removed old version: " +:+ Filepath.Base p))])
             (take todo (drop i sorted)) /\
  (forall q, q ∈ take todo (drop i sorted) -> fs w' !! q = None) /\
  (forall q, q ∉ take todo (drop i sorted) -> fs w' !! q = fs w !! q).
Proof.
  induction todo as [|todo IH]; intros i w w' H; cbn [removeLoop] in H.
  - simplify_eq. cbn. rewrite app_nil_r. split; [done|]. split; [|done].
    intros q Hq. by apply elem_of_nil in Hq.
  - destruct (sorted !! i) as [path|] eqn:Hi; [|done].
    destruct (Remove w path) as [err|w1] eqn:Hrm; [done|].
    apply Remove_inr in Hrm as (_ & _ & Hfs & Hev).
    apply IH in H as (He & Hgone & Hkeep).
    rewrite (drop_S _ _ _ Hi). cbn [take flat_map].
    split; [|split].
    + rewrite He. cbn [emit events]. rewrite Hev, <- !app_assoc. done.
    + intros q Hq. destruct (decide (q ∈ take todo (drop (Datatypes.S i) sorted))) as [Hin|Hout].
      * by apply Hgone.
      * rewrite (Hkeep q Hout). cbn [emit fs]. rewrite Hfs.
        apply elem_of_cons in Hq as [->|Hq]; [apply lookup_delete_eq|done].
    + intros q Hq. apply not_elem_of_cons in Hq as [Hne Hq].
      rewrite (Hkeep q Hq). cbn [emit fs]. rewrite Hfs. by apply lookup_delete_ne.
Qed.

(** What a cleaning that returns nil has done: the [count - maxVersions]
    smallest matches were deleted in ascending order, every other path is
    untouched, at most maxVersions matches are left and each of them is at
    least as great as every deleted one. *)
Theorem cleanOldVersions_keeps_newest bm dir baseName ext w w' matches :
  Glob w (Filepath.Join dir (baseName +:+ "_*" +:+ ext)) = inr matches ->
  inInt64 (Z.of_nat (length matches) - maxVersions bm) ->
  cleanOldVersions bm dir baseName ext w = (Returned None, w') ->
  let sorted := sortStrings matches in
  let k := Z.to_nat (Z.of_nat (length matches) - maxVersions bm) in
  events w' = events w ++
    flat_map (fun p => [EvRemove p; EvLog (LogInfo ("	Removed old version: " +:+ Filepath.Base p))])
             (take k sorted) /\
  (forall q, q ∈ take k sorted -> fs w' !! q = None) /\
  (forall q, q ∉ take k sorted -> fs w' !! q = fs w !! q) /\
  (0 <= maxVersions bm -> Z.of_nat (length (drop k sorted)) <= maxVersions bm) /\
  (forall x y, x ∈ take k sorted -> y ∈ drop k sorted -> String.leb x y = true).
Proof.
  intros Hglob Hint Hclean sorted k. unfold cleanOldVersions in Hclean.
  rewrite Hglob in Hclean.
  assert (forall x y, x ∈ take k sorted -> y ∈ drop k sorted -> String.leb x y = true) as Hord.
  { intros x y. apply sorted_split. rewrite take_drop. apply sortStrings_sorted. }
  assert (0 <= maxVersions bm -> Z.of_nat (length (drop k sorted)) <= maxVersions bm) as Hcount.
  { intros Hmax. subst sorted k. rewrite length_drop, length_sortStrings. lia. }
  destruct (Z.leb_spec (Z.of_nat (length matches)) (maxVersions bm)) as [Hle|Hgt].
  - simplify_eq. replace k with O by lia. cbn [take flat_map].
    rewrite app_nil_r. repeat split; try done.
    + intros q Hq. by apply elem_of_nil in Hq.
    + replace k with O in Hcount by lia. done.
    + replace k with O in Hord by lia. done.
  - rewrite length_sortStrings, (wrap64_id _ Hint) in Hclean. fold k sorted in Hclean.
    apply removeLoop_success in Hclean. rewrite drop_0 in Hclean.
    destruct Hclean as (He & Hgone & Hkeep). done.
Qed.

(** A backup that returns nil went through every stage: the version
    directory was made, the copy succeeded, and the cleaning returned nil. *)
Lemma CreateBackup_success bm sourcePath sourceDir w w' :
  CreateBackup bm sourcePath sourceDir w = (Returned None, w') ->
  exists relPath w1,
    Filepath.Rel sourceDir sourcePath = inr relPath /\
    let t := clock w (ticks w) in
    MkdirAll (fileVersionDirOf bm relPath) 493 (snd (Now w)) = (None, w1) /\
    let run := SafeCopyFile sourcePath (backupPathOf bm relPath t) 3 w1 in
    result run = None /\
    cleanOldVersions bm (fileVersionDirOf bm relPath) (nameWithoutExtOf relPath)
      (extOf relPath)
      (emit (final run)
         (EvLog (LogBackupCreated (Filepath.Base sourcePath) (backupNameOf relPath t))))
      = (Returned None, w').
Proof.
  unfold CreateBackup. intros H.
  destruct (osIsNotExist _); [done|].
  destruct (Filepath.Rel sourceDir sourcePath) as [err|relPath]; [done|].
  cbn [Now] in H. cbn [Now snd].
  destruct (MkdirAll _ 493 _) as [[err|] w1] eqn:Hmk; [done|].
  exists relPath, w1. split; [done|]. cbn zeta. split; [done|].
  fold (backupPathOf bm relPath (clock w (ticks w))) in H.
  destruct (result (SafeCopyFile _ _ 3 w1)) as [err|] eqn:Hcopy; [done|].
  split; [done|].
  destruct (cleanOldVersions _ _ _ _ _) as [[[err|]|msg] w3]; by simplify_eq.
Qed.

(** C1, at a source file with a bracket in its name: with a cap of one
    version, two backups of /src/a[1].txt both return nil and both versions
    stay in the version directory, because the glob pattern built from the
    name matches none of them. *)
Lemma CreateBackup_bracket_name_exceeds_cap :
  let r1 := CreateBackup Scenario.bm1 "/src/a[1].txt" "/src" Scenario.wBracket in
  let r2 := CreateBackup Scenario.bm1 "/src/a[1].txt" "/src" (snd r1) in
  maxVersions Scenario.bm1 = 1 /\
  fst r1 = Returned None /\ fst r2 = Returned None /\
  readDirNames (snd r2) "/bk/a[1].txt_versions" =
    ["a[1]_20231114_221320.000000.txt"; "a[1]_20231114_221321.000000.txt"]%string /\
  Glob (snd r2) "/bk/a[1].txt_versions/a[1]_*.txt" = inr [] /\
  Filepath.Match "a[1]_*.txt" "a[1]_20231114_221320.000000.txt" = inr false.
Proof.
  vm_compute. done.
Qed.

Lemma pair_fst_snd {A B : Type} (p : A * B) (a : A) : fst p = a -> p = (a, snd p).
Proof. destruct p. cbn. by intros ->. Qed.

Lemma CreateBackup_eviction_failure_witness :
  exists e w3,
    CreateBackup Scenario.bm1 "/src/a.txt" "/src" Scenario.wEvict =
      (Returned (Some (Wrapf "error cleaning old versions" e)), w3) /\
    exists c m,
      fs w3 !! backupPathOf Scenario.bm1 "a.txt" (clock Scenario.wEvict (ticks Scenario.wEvict))
        = Some (File c m).
Proof.
  apply (CreateBackup_eviction_failure Scenario.bm1 "/src/a.txt" "/src" Scenario.wEvict "a.txt"
           (snd (MkdirAll (fileVersionDirOf Scenario.bm1 "a.txt") 493 (snd (Now Scenario.wEvict))))
           ["/bk/a.txt_versions/a_20231114_221310.000000.txt";
            "/bk/a.txt_versions/a_20231114_221315.000000.txt";
            "/bk/a.txt_versions/a_20231114_221320.000000.txt"]%string).
  - reflexivity.
  - reflexivity.
  - apply pair_fst_snd. vm_compute. reflexivity.
  - vm_compute. reflexivity.
  - vm_compute. reflexivity.
  - int64_range.
  - exists ("/bk/a.txt_versions/a_20231114_221310.000000.txt")%string. split.
    + vm_compute. constructor.
    + vm_compute. discriminate.
  - apply (bool_decide_unpack _). vm_compute. exact I.
Defined.

(** C9 as stated fails on the code: the new version is named after a time
    earlier than the versions in store, so it sorts first and is the first
    excess entry to be deleted; the deletion of the next one fails,
    CreateBackup returns the error, and the new version is gone. *)
Lemma CreateBackup_eviction_failure_loses_new_version :
  let r := CreateBackup Scenario.bm1 "/src/a.txt" "/src" Scenario.wEvictBack in
  let new := ("/bk/a.txt_versions/a_20231114_221320.000000.txt")%string in
  fst r = Returned (Some (Wrapf "error cleaning old versions"
            (PathError "remove" "/bk/a.txt_versions/a_20231114_221325.000000.txt" EACCES))) /\
  events (snd r) =
    [EvCopyAttempt "/src/a.txt" new;
     EvLog (LogBackupCreated "a.txt" "a_20231114_221320.000000.txt");
     EvRemove new;
     EvLog (LogInfo "	Removed old version: a_20231114_221320.000000.txt")] /\
  fs (snd r) !! new = None.
Proof.
  vm_compute. done.
Qed.

End BackupFacts.

(** ** Timestamps and version file names *)

Module TimeFacts.
Import GoTime.

(** The calendar *)
Lemma era_fields doe : 0 <= doe <= 146096 ->
  0 <= yearOfEra doe <= 399 /\ 0 <= dayOfYear doe <= 365.
Proof.
  unfold dayOfYear, yearOfEra. intros H. Z.div_mod_to_equations. lia.
Qed.

Lemma era_mono a b : 0 <= a -> a < b -> b <= 146096 ->
  yearOfEra a < yearOfEra b \/ (yearOfEra a = yearOfEra b /\ dayOfYear a < dayOfYear b).
Proof.
  unfold dayOfYear, yearOfEra. intros. Z.div_mod_to_equations. lia.
Qed.

Lemma month_fields doy : 0 <= doy <= 365 ->
  0 <= monthIndex doy <= 11 /\ 1 <= dayOfMonth doy <= 31.
Proof.
  unfold dayOfMonth, monthIndex. intros. Z.div_mod_to_equations. lia.
Qed.

Lemma month_mono a b : 0 <= a -> a < b -> b <= 365 ->
  monthIndex a < monthIndex b \/ (monthIndex a = monthIndex b /\ dayOfMonth a < dayOfMonth b).
Proof.
  unfold dayOfMonth, monthIndex. intros. Z.div_mod_to_equations. lia.
Qed.

(** The date of a day in terms of its era and the day of the era. *)
Lemma dateKey_dateOfDay days :
  let z := days + 719468 in
  let doe := z mod 146097 in
  let mp := monthIndex (dayOfYear doe) in
  dateKey (dateOfDay days) =
    ((yearOfEra doe + z / 146097 * 400) * 13 + mp + (if mp <? 10 then 3 else 4)) * 32 +
    dayOfMonth (dayOfYear doe).
Proof.
  intros z doe mp. unfold dateOfDay, dateKey. fold z. fold doe. fold mp.
  destruct (Z.ltb_spec mp 10).
  - destruct (Z.leb_spec (mp + 3) 2); [|lia].
    assert (0 <= doe <= 146096) as Hd by (subst doe; Z.div_mod_to_equations; lia).
    pose proof (era_fields doe Hd) as [_ Hy].
    pose proof (month_fields _ Hy) as [Hm _]. fold mp in Hm. lia.
  - destruct (Z.leb_spec (mp - 9) 2); [lia|].
    assert (0 <= doe <= 146096) as Hd by (subst doe; Z.div_mod_to_equations; lia).
    pose proof (era_fields doe Hd) as [_ Hy].
    pose proof (month_fields _ Hy) as [Hm _]. fold mp in Hm. lia.
Qed.

Lemma dateOfDay_mono a b : a < b -> dateKey (dateOfDay a) < dateKey (dateOfDay b).
Proof.
  intros Hab. rewrite !dateKey_dateOfDay. cbv zeta.
  set (za := a + 719468). set (zb := b + 719468).
  assert (0 <= za mod 146097 <= 146096) as Ha by (Z.div_mod_to_equations; lia).
  assert (0 <= zb mod 146097 <= 146096) as Hb by (Z.div_mod_to_equations; lia).
  pose proof (era_fields _ Ha) as [Hya Hda]. pose proof (era_fields _ Hb) as [Hyb Hdb].
  pose proof (month_fields _ Hda) as [Hma Hxa]. pose proof (month_fields _ Hdb) as [Hmb Hxb].
  assert (za / 146097 < zb / 146097 \/
          (za / 146097 = zb / 146097 /\ za mod 146097 < zb mod 146097)) as [Hera|[Hera Hdoe]]
    by (subst za zb; Z.div_mod_to_equations; lia).
  - destruct (monthIndex (dayOfYear (za mod 146097)) <? 10),
             (monthIndex (dayOfYear (zb mod 146097)) <? 10); lia.
  - rewrite Hera.
    destruct (era_mono _ _ (proj1 Ha) Hdoe (proj2 Hb)) as [Hy|[Hy Hd]].
    + destruct (monthIndex (dayOfYear (za mod 146097)) <? 10),
               (monthIndex (dayOfYear (zb mod 146097)) <? 10); lia.
    + rewrite Hy.
      destruct (month_mono _ _ (proj1 Hda) Hd (proj2 Hdb)) as [Hm|[Hm Hx]].
      * destruct (Z.ltb_spec (monthIndex (dayOfYear (za mod 146097))) 10),
                 (Z.ltb_spec (monthIndex (dayOfYear (zb mod 146097))) 10); lia.
      * rewrite Hm. lia.
Qed.

Lemma dateOfDay_fields days :
  let '(y, m, d) := dateOfDay days in 1 <= m <= 12 /\ 1 <= d <= 31.
Proof.
  unfold dateOfDay. cbv zeta.
  set (doe := (days + 719468) mod 146097).
  assert (0 <= doe <= 146096) as Hd by (subst doe; Z.div_mod_to_equations; lia).
  pose proof (era_fields _ Hd) as [_ Hy]. pose proof (month_fields _ Hy) as [Hm Hx].
  destruct (Z.ltb_spec (monthIndex (dayOfYear doe)) 10); lia.
Qed.

(** Years 0 to 9999 are the days from 0000-01-01 to 9999-12-31. *)
Lemma dateOfDay_year days : -719528 <= days < 2932897 ->
  0 <= fst (fst (dateOfDay days)) <= 9999.
Proof.
  intros Hr. pose proof (dateOfDay_fields days) as Hf.
  assert (dateKey (dateOfDay (-719528)) <= dateKey (dateOfDay days)) as Hlo.
  { destruct (Z.eq_dec days (-719528)) as [->|]; [lia|].
    apply Z.lt_le_incl, dateOfDay_mono. lia. }
  assert (dateKey (dateOfDay days) <= dateKey (dateOfDay 2932896)) as Hhi.
  { destruct (Z.eq_dec days 2932896) as [->|]; [lia|].
    apply Z.lt_le_incl, dateOfDay_mono. lia. }
  change (dateKey (dateOfDay (-719528))) with 33 in Hlo.
  change (dateKey (dateOfDay 2932896)) with 4159999 in Hhi.
  destruct (dateOfDay days) as [[y m] d]. cbn in *. lia.
Qed.

(** Byte order of strings *)
Lemma ascii_compare_refl c : Ascii.compare c c = Eq.
Proof. unfold Ascii.compare. apply N.compare_refl. Qed.

Lemma string_compare_refl s : String.compare s s = Eq.
Proof.
  induction s as [|c s IH]; [done|].
  cbn [String.compare]. by rewrite ascii_compare_refl.
Qed.

Lemma compare_app_prefix p a b :
  String.compare (p +:+ a) (p +:+ b) = String.compare a b.
Proof.
  induction p as [|c p IH]; [done|].
  change (String.compare (String c (p +:+ a)) (String c (p +:+ b)) = String.compare a b).
  cbn [String.compare]. by rewrite ascii_compare_refl.
Qed.

Lemma append_assoc (a b c : string) : (a +:+ b) +:+ c = a +:+ (b +:+ c).
Proof.
  induction a as [|x a IH]; [done|].
  change (String x ((a +:+ b) +:+ c) = String x (a +:+ (b +:+ c))). by rewrite IH.
Qed.

Lemma digitChar_compare a b : 0 <= a <= 9 -> 0 <= b <= 9 ->
  Ascii.compare (digitChar a) (digitChar b) = (a ?= b).
Proof.
  intros Ha Hb.
  assert (a = 0 \/ a = 1 \/ a = 2 \/ a = 3 \/ a = 4 \/ a = 5 \/ a = 6 \/ a = 7 \/ a = 8 \/ a = 9)
    as Ha' by lia.
  assert (b = 0 \/ b = 1 \/ b = 2 \/ b = 3 \/ b = 4 \/ b = 5 \/ b = 6 \/ b = 7 \/ b = 8 \/ b = 9)
    as Hb' by lia.
  repeat (destruct Ha' as [->|Ha']); try subst a;
    repeat (destruct Hb' as [->|Hb']); try subst b; reflexivity.
Qed.

(** Comparing one more significant digit first is comparing the numbers. *)
Lemma lex_step (hi1 hi2 lo1 lo2 R : Z) :
  0 <= lo1 < R -> 0 <= lo2 < R ->
  match hi1 ?= hi2 with Eq => lo1 ?= lo2 | c => c end = (hi1 * R + lo1 ?= hi2 * R + lo2).
Proof.
  intros H1 H2. destruct (Z.compare_spec hi1 hi2) as [->|Hlt|Hgt].
  - destruct (Z.compare_spec lo1 lo2); symmetry;
      [apply Z.compare_eq_iff|apply Z.compare_lt_iff|apply Z.compare_gt_iff]; lia.
  - symmetry. apply Z.compare_lt_iff. nia.
  - symmetry. apply Z.compare_gt_iff. nia.
Qed.

(** Fixed-width decimal fields compare as the numbers they show, then by
    what follows them. *)
Lemma digitsMSD_compare w : forall x y r1 r2, 0 <= x -> 0 <= y ->
  String.compare (digitsMSD w x +:+ r1) (digitsMSD w y +:+ r2) =
  match x mod 10 ^ Z.of_nat w ?= y mod 10 ^ Z.of_nat w with
  | Eq => String.compare r1 r2
  | c => c
  end.
Proof.
  induction w as [|w IH]; intros x y r1 r2 Hx Hy.
  - cbn. by rewrite !Z.mod_1_r.
  - cbn [digitsMSD].
    change (String ?c ?s +:+ ?r) with (String c (s +:+ r)). cbn [String.compare].
    assert (0 < 10 ^ Z.of_nat w) as Hpow by (apply Z.pow_pos_nonneg; lia).
    rewrite digitChar_compare by (Z.div_mod_to_equations; lia).
    rewrite IH by lia.
    rewrite Nat2Z.inj_succ, Z.pow_succ_r by lia.
    assert (forall u, 0 <= u -> u mod (10 * 10 ^ Z.of_nat w) =
              (u / 10 ^ Z.of_nat w mod 10) * 10 ^ Z.of_nat w + u mod 10 ^ Z.of_nat w) as Hsplit.
    { intros u Hu. rewrite (Z.mul_comm 10), Z.rem_mul_r by lia. lia. }
    rewrite (Hsplit x Hx), (Hsplit y Hy).
    pose proof (Z.mod_pos_bound x _ Hpow). pose proof (Z.mod_pos_bound y _ Hpow).
    rewrite <- (lex_step _ _ (x mod 10 ^ Z.of_nat w) (y mod 10 ^ Z.of_nat w)) by lia.
    destruct (x / 10 ^ Z.of_nat w mod 10 ?= y / 10 ^ Z.of_nat w mod 10); done.
Qed.

Lemma numDigits_bound fuel : forall w u, (1 <= w)%nat -> 0 <= u < 10 ^ Z.of_nat w ->
  (numDigits fuel u <= w)%nat.
Proof.
  induction fuel as [|fuel IH]; intros w u Hw Hu; cbn [numDigits]; [lia|].
  destruct (Z.ltb_spec u 10); [lia|].
  destruct w as [|[|w]]; [lia|cbn in Hu; lia|].
  apply le_n_S, IH; [lia|].
  rewrite Nat2Z.inj_succ, Z.pow_succ_r in Hu by lia.
  split; [Z.div_mod_to_equations; lia|].
  apply Z.div_lt_upper_bound; lia.
Qed.

Lemma appendInt_fixed x w : (1 <= w)%nat -> 0 <= x < 10 ^ Z.of_nat w ->
  appendInt x w = digitsMSD w x.
Proof.
  intros Hw Hx. unfold appendInt.
  destruct (Z.ltb_spec x 0); [lia|]. rewrite Z.abs_eq by lia.
  pose proof (numDigits_bound 20 w x Hw Hx).
  by rewrite Nat.max_l by lia.
Qed.

(** The timestamp *)
Lemma Clock_fields t :
  let '(hh, mm, ss) := Clock t in
  0 <= hh < 24 /\ 0 <= mm < 60 /\ 0 <= ss < 60 /\
  (hh * 60 + mm) * 60 + ss = localSec t mod 86400.
Proof.
  unfold Clock. cbv zeta. Z.div_mod_to_equations. lia.
Qed.

Lemma Nanosecond_fields t :
  0 <= Nanosecond t / 1000 < 1000000 /\
  unixNano t / 1000 = unixNano t / Second * 1000000 + Nanosecond t / 1000.
Proof.
  unfold Nanosecond, Second. Z.div_mod_to_equations. lia.
Qed.

(** The stamp as days, seconds of the day and microseconds. *)
Lemma stamp_eq t :
  stamp t = (dateKey (dateOfDay (localSec t / 86400)) * 86400 + localSec t mod 86400) * 1000000
            + Nanosecond t / 1000.
Proof.
  unfold stamp, Date. pose proof (Clock_fields t) as H.
  destruct (Clock t) as [[hh mm] ss]. lia.
Qed.

Lemma stamp_lt t1 t2 : zoneOffset t1 = zoneOffset t2 ->
  unixNano t1 / 1000 < unixNano t2 / 1000 -> stamp t1 < stamp t2.
Proof.
  intros Hz Hlt. rewrite !stamp_eq.
  pose proof (Nanosecond_fields t1) as [Hu1 Ha1].
  pose proof (Nanosecond_fields t2) as [Hu2 Ha2].
  assert (localSec t1 < localSec t2 \/
          (localSec t1 = localSec t2 /\ Nanosecond t1 / 1000 < Nanosecond t2 / 1000))
    as [HL|[HL Hu]] by (unfold localSec; lia).
  - assert (0 <= localSec t1 mod 86400 < 86400) by (apply Z.mod_pos_bound; lia).
    assert (0 <= localSec t2 mod 86400 < 86400) by (apply Z.mod_pos_bound; lia).
    assert (localSec t1 / 86400 < localSec t2 / 86400 \/
            (localSec t1 / 86400 = localSec t2 / 86400 /\
             localSec t1 mod 86400 < localSec t2 mod 86400)) as [HD|[HD Hs]]
      by (Z.div_mod_to_equations; lia).
    + pose proof (dateOfDay_mono _ _ HD). lia.
    + rewrite HD. lia.
  - rewrite HL. lia.
Qed.

Lemma stamp_compare t1 t2 : zoneOffset t1 = zoneOffset t2 ->
  (stamp t1 ?= stamp t2) = (unixNano t1 / 1000 ?= unixNano t2 / 1000).
Proof.
  intros Hz. destruct (Z.compare_spec (unixNano t1 / 1000) (unixNano t2 / 1000)) as [He|Hl|Hg].
  - apply Z.compare_eq_iff. rewrite !stamp_eq.
    pose proof (Nanosecond_fields t1) as [Hu1 Ha1].
    pose proof (Nanosecond_fields t2) as [Hu2 Ha2].
    assert (localSec t1 = localSec t2) as -> by (unfold localSec; lia).
    lia.
  - apply Z.compare_lt_iff. by apply stamp_lt.
  - apply Z.compare_gt_iff. by apply stamp_lt.
Qed.

Lemma compare_Eq_id (c : comparison) : match c with Eq => Eq | c' => c' end = c.
Proof. by destruct c. Qed.

(** The formatted time, with whatever follows it, compares as the stamp. *)
Lemma Format_compare t1 t2 rest : fourDigitYear t1 -> fourDigitYear t2 ->
  String.compare (Format_20060102_150405_000000 t1 +:+ rest)
                 (Format_20060102_150405_000000 t2 +:+ rest) = (stamp t1 ?= stamp t2).
Proof.
  unfold fourDigitYear. intros H1 H2.
  unfold Format_20060102_150405_000000, stamp.
  pose proof (Clock_fields t1) as Hc1. pose proof (Clock_fields t2) as Hc2.
  pose proof (Nanosecond_fields t1) as [Hu1 _]. pose proof (Nanosecond_fields t2) as [Hu2 _].
  pose proof (dateOfDay_fields (localSec t1 / 86400)) as Hf1.
  pose proof (dateOfDay_fields (localSec t2 / 86400)) as Hf2.
  pose proof (dateOfDay_year (localSec t1 / 86400) ltac:(Z.div_mod_to_equations; lia)) as Hy1.
  pose proof (dateOfDay_year (localSec t2 / 86400) ltac:(Z.div_mod_to_equations; lia)) as Hy2.
  unfold Date.
  destruct (dateOfDay (localSec t1 / 86400)) as [[y1 m1] d1].
  destruct (dateOfDay (localSec t2 / 86400)) as [[y2 m2] d2].
  destruct (Clock t1) as [[hh1 mm1] ss1]. destruct (Clock t2) as [[hh2 mm2] ss2].
  cbn [fst] in Hy1, Hy2. cbn [dateKey].
  rewrite !(appendInt_fixed _ 4), !(appendInt_fixed _ 2) by (cbn; lia).
  rewrite !append_assoc.
  rewrite !digitsMSD_compare by lia.
  rewrite (compare_app_prefix "_"), !digitsMSD_compare by lia.
  rewrite (compare_app_prefix "."), digitsMSD_compare by lia.
  rewrite string_compare_refl.
  change (10 ^ Z.of_nat 2) with 100. change (10 ^ Z.of_nat 4) with 10000.
  change (10 ^ Z.of_nat 6) with 1000000.
  rewrite !Z.mod_small by lia.
  rewrite <- !lex_step by lia.
  destruct (y1 ?= y2); [|done..]. destruct (m1 ?= m2); [|done..].
  destruct (d1 ?= d2); [|done..]. destruct (hh1 ?= hh2); [|done..].
  destruct (mm1 ?= mm2); [|done..]. destruct (ss1 ?= ss2); [|done..].
  destruct (Nanosecond t1 / 1000 ?= Nanosecond t2 / 1000); done.
Qed.

(** C6 (as amended). For one logical file, the names of two versions made
    at times that are shown with the same UTC offset and a year from 0000 to
    9999 compare, byte by byte, as the times compare at microsecond
    resolution (so the later version has the greater name as soon as the
    times differ by a microsecond); the name is the base name without its
    extension, an underscore, the time as YYYYMMDD_HHMMSS.microseconds, and
    the extension, inside <backupDir>/<relative path>_versions. *)
Theorem backupName_order bm relPath t1 t2 :
  zoneOffset t1 = zoneOffset t2 -> fourDigitYear t1 -> fourDigitYear t2 ->
  String.compare (Backup.backupNameOf relPath t1) (Backup.backupNameOf relPath t2)
    = (unixNano t1 / 1000 ?= unixNano t2 / 1000) /\
  (unixNano t1 / 1000 < unixNano t2 / 1000 ->
   String.ltb (Backup.backupNameOf relPath t1) (Backup.backupNameOf relPath t2) = true) /\
  Backup.backupNameOf relPath t1 =
    Backup.nameWithoutExtOf relPath +:+ "_" +:+
    Format_20060102_150405_000000 t1 +:+ Backup.extOf relPath /\
  Backup.backupPathOf bm relPath t1 =
    Filepath.Join (Filepath.Join (Backup.backupDir bm) (relPath +:+ "_versions"))
                  (Backup.backupNameOf relPath t1).
Proof.
  intros Hz H1 H2.
  assert (String.compare (Backup.backupNameOf relPath t1) (Backup.backupNameOf relPath t2)
          = (unixNano t1 / 1000 ?= unixNano t2 / 1000)) as Hcmp.
  { unfold Backup.backupNameOf.
    rewrite compare_app_prefix, (compare_app_prefix "_").
    rewrite Format_compare by done. by apply stamp_compare. }
  split; [exact Hcmp|]. split; [|done].
  intros Hlt. unfold String.ltb. rewrite Hcmp.
  by apply Z.compare_lt_iff in Hlt as ->.
Qed.

Lemma backupName_order_witness :
  String.ltb (Backup.backupNameOf "docs/a.txt" Scenario.tA)
             (Backup.backupNameOf "docs/a.txt" Scenario.tB) = true.
Proof.
  destruct (backupName_order Scenario.bm1 "docs/a.txt" Scenario.tA Scenario.tB)
    as (_ & H & _).
  - reflexivity.
  - unfold fourDigitYear. split; [apply Z.leb_le|apply Z.ltb_lt]; vm_compute; reflexivity.
  - unfold fourDigitYear. split; [apply Z.leb_le|apply Z.ltb_lt]; vm_compute; reflexivity.
  - apply H. apply Z.ltb_lt. vm_compute. reflexivity.
Defined.

(** C6 as stated fails on the code: one second after 02:59:59 summer time
    the clock shows 02:00:00 winter time, and one second after the end of
    year 9999 the year takes five digits; in both cases the later version
    has the smaller name. *)
Lemma backupName_order_fails :
  (unixNano Scenario.tSummer < unixNano Scenario.tWinter /\
   Backup.backupNameOf "a.txt" Scenario.tSummer = "a_20251026_025959.000000.txt"%string /\
   Backup.backupNameOf "a.txt" Scenario.tWinter = "a_20251026_020000.000000.txt"%string /\
   String.compare (Backup.backupNameOf "a.txt" Scenario.tSummer)
                  (Backup.backupNameOf "a.txt" Scenario.tWinter) = Gt) /\
  (unixNano Scenario.t9999 < unixNano Scenario.t10000 /\
   Backup.backupNameOf "a.txt" Scenario.t9999 = "a_99991231_235959.000000.txt"%string /\
   Backup.backupNameOf "a.txt" Scenario.t10000 = "a_100000101_000000.000000.txt"%string /\
   String.compare (Backup.backupNameOf "a.txt" Scenario.t9999)
                  (Backup.backupNameOf "a.txt" Scenario.t10000) = Gt).
Proof.
  vm_compute. done.
Qed.

End TimeFacts.

(** * Further properties *)

(** ** utils/errors.go: retrying and copying *)

Module CopyMore.
Import OS Utils UtilsFacts.

(** The retry loop keeps whatever every call of [fn] keeps. *)
Lemma retryLoop_invariant {S : Type} (I : S -> Prop) maxRetries (fn : S -> option error * S) todo :
  (forall s, I s -> I (snd (fn s))) ->
  forall i delay lastErr s zs calls, I s ->
  I (final (retryLoop maxRetries fn todo i delay lastErr s zs calls)).
Proof.
  intros Hstep. induction todo as [|todo IH]; intros i delay lastErr s zs calls Hs;
    cbn [retryLoop]; [done|].
  pose proof (Hstep s Hs) as Hs'. destruct (fn s) as [[err|] s']; cbn [snd] in Hs'.
  - destruct (negb (IsRetryable err)); [done|].
    destruct (i <? wrap64 (maxRetries - 1)); by apply IH.
  - done.
Qed.

Lemma sum_backoff base n :
  foldr Z.add 0 (backoff base n) = base * (2 ^ Z.of_nat n - 1).
Proof.
  unfold backoff. induction n as [|n IH]; [cbn; lia|].
  rewrite seq_S, map_app, foldr_app. cbn [map foldr].
  rewrite Nat2Z.inj_succ, Z.pow_succ_r by lia.
  assert (forall l z, foldr Z.add z l = foldr Z.add 0 l + z) as Hshift.
  { induction l as [|x l IHl]; intros z; cbn [foldr]; [lia|]. rewrite IHl. lia. }
  rewrite Hshift, IH. cbn. lia.
Qed.

(** X1. The time RetryWithBackoff sleeps in all: with a budget of at least
    one try and a first delay whose doublings fit in an int64, a run that
    made [k] tries has slept initialDelay * (2^(k-1) - 1) nanoseconds, the
    sum of the doubling delays between them; for a delay that is not
    negative this is at most initialDelay * (2^(maxRetries-1) - 1),
    whatever the closure does. *)
Theorem RetryWithBackoff_total_sleep {S : Type} (maxRetries initialDelay : Z)
    (fn : S -> option error * S) (s : S) :
  1 <= maxRetries -> inInt64 maxRetries ->
  inInt64 (initialDelay * 2 ^ Z.max 0 (maxRetries - 2)) ->
  let r := RetryWithBackoff maxRetries fn initialDelay s in
  foldr Z.add 0 (slept r) = initialDelay * (2 ^ Z.of_nat (attempts r - 1) - 1) /\
  (0 <= initialDelay ->
   foldr Z.add 0 (slept r) <= initialDelay * (2 ^ (maxRetries - 1) - 1)).
Proof.
  intros Hpos Hint Hfit r. subst r. unfold RetryWithBackoff.
  destruct (retryLoop_trace maxRetries fn Hint (Z.to_nat maxRetries) 0 initialDelay
              None s [] O ltac:(lia) ltac:(lia)) as [Hn Hs].
  set (r := retryLoop _ _ _ _ _ _ _ _ _) in *.
  assert (slept r = backoff initialDelay (attempts r - 1)) as ->.
  { rewrite Hs. cbn [app]. replace (attempts r - 0 - 1)%nat with (attempts r - 1)%nat by lia.
    apply backoff64_no_overflow. intros k Hk.
    apply scaled_pow2_fits with (K := Z.max 0 (maxRetries - 2)); [lia|done]. }
  rewrite sum_backoff. split; [done|]. intros Hbase.
  apply Z.mul_le_mono_nonneg_l; [done|].
  assert (2 ^ Z.of_nat (attempts r - 1) <= 2 ^ (maxRetries - 1)); [|lia].
  apply Z.pow_le_mono_r; lia.
Qed.

Lemma RetryWithBackoff_total_sleep_witness :
  let r := RetryWithBackoff 4 (flaky 2) 100 O in
  foldr Z.add 0 (slept r) = 100 * (2 ^ Z.of_nat (attempts r - 1) - 1) /\
  (0 <= 100 -> foldr Z.add 0 (slept r) <= 100 * (2 ^ (4 - 1) - 1)).
Proof.
  apply (RetryWithBackoff_total_sleep 4 100 (flaky 2) O); [lia|int64_range|int64_range].
Defined.

Lemma retryLoop_exhausts_final {S : Type} maxRetries (fn : S -> option error * S) todo :
  forall i delay lastErr s zs calls,
  (forall j, (j < todo)%nat -> retryableFailure (outcomeAt fn j s)) ->
  final (retryLoop maxRetries fn todo i delay lastErr s zs calls) = stateAt fn todo s.
Proof.
  induction todo as [|todo IH]; intros i delay lastErr s zs calls Hall; [done|].
  cbn [retryLoop stateAt].
  pose proof (Hall O ltac:(lia)) as (err & He & Hr).
  unfold outcomeAt in He. cbn [stateAt] in He.
  destruct (fn s) as [o s'] eqn:Hfn. cbn in He. subst o. rewrite Hr. cbn [negb snd].
  assert (forall j, (j < todo)%nat -> retryableFailure (outcomeAt fn j s')) as Hall'.
  { intros j Hj. specialize (Hall (Datatypes.S j) ltac:(lia)).
    unfold outcomeAt in Hall |- *. cbn [stateAt] in Hall. by rewrite Hfn in Hall. }
  destruct (i <? wrap64 (maxRetries - 1)); by apply IH.
Qed.

Ltac int64_bounds :=
  unfold inInt64; change (2 ^ 63) with 9223372036854775808;
  change (2 ^ 64) with 18446744073709551616.

(** An attempt that fails at the stat, or on a directory, only records itself. *)
Lemma copyAttempt_stat_failure src dst w err :
  Stat w src = inl err ->
  copyAttempt src dst w =
    (Some (BackupError src "stat_source" err (errorsIs KPermission err)),
     emit w (EvCopyAttempt src dst)).
Proof.
  intros H. unfold copyAttempt.
  change (Stat (emit w (EvCopyAttempt src dst)) src) with (Stat w src). by rewrite H.
Qed.

Lemma copyAttempt_directory src dst w m :
  Stat w src = inr (Dir m) ->
  copyAttempt src dst w =
    (Some (BackupError src "check_type" (ErrorString "source is a directory") false),
     emit w (EvCopyAttempt src dst)).
Proof.
  intros H. unfold copyAttempt.
  change (Stat (emit w (EvCopyAttempt src dst)) src) with (Stat w src). by rewrite H.
Qed.

Lemma stateAt_stat_failure src dst err k : forall w,
  Stat w src = inl err ->
  Stat (stateAt (copyAttempt src dst) k w) src = inl err /\
  fs (stateAt (copyAttempt src dst) k w) = fs w /\
  events (stateAt (copyAttempt src dst) k w) =
    events w ++ replicate k (EvCopyAttempt src dst).
Proof.
  induction k as [|k IH]; intros w H; cbn [stateAt].
  - by rewrite app_nil_r.
  - rewrite (copyAttempt_stat_failure _ _ _ _ H). cbn [snd].
    destruct (IH (emit w (EvCopyAttempt src dst)) H) as (H1 & H2 & H3).
    split; [done|]. split; [done|]. rewrite H3. cbn [emit events].
    by rewrite <- app_assoc.
Qed.

(** X2. A source that os.Stat refuses with a permission error: SafeCopyFile
    makes all [maxRetries] attempts (1 to 38 of them), sleeping 100ms,
    200ms, ... between them, and returns "exceed max retries (n)" wrapped
    around the retryable stat_source error; the file system is as it was,
    and the history holds the attempts and nothing else. *)
Theorem SafeCopyFile_permission_denied src dst maxRetries w err :
  1 <= maxRetries <= 38 ->
  Stat w src = inl err -> errorsIs KPermission err = true ->
  let r := SafeCopyFile src dst maxRetries w in
  result r = Some (Wrapf ("exceed max retries (" +:+ formatInt maxRetries +:+ ")")
                     (BackupError src "stat_source" err true)) /\
  attempts r = Z.to_nat maxRetries /\
  slept r = backoff (100 * GoTime.Millisecond) (Z.to_nat maxRetries - 1) /\
  fs (final r) = fs w /\
  events (final r) = events w ++ replicate (Z.to_nat maxRetries) (EvCopyAttempt src dst).
Proof.
  intros Hn Hstat Hperm r. subst r. unfold SafeCopyFile, RetryWithBackoff.
  assert (inInt64 maxRetries) as Hint by (int64_bounds; lia).
  assert (forall k, outcomeAt (copyAttempt src dst) k w =
                    Some (BackupError src "stat_source" err true)) as Hout.
  { intros k. unfold outcomeAt.
    destruct (stateAt_stat_failure src dst err k w Hstat) as (H1 & _).
    by rewrite (copyAttempt_stat_failure _ _ _ _ H1), Hperm. }
  destruct (retryLoop_trace maxRetries (copyAttempt src dst) Hint (Z.to_nat maxRetries) 0
              (100 * GoTime.Millisecond) None w [] O ltac:(lia) ltac:(lia)) as [_ Hs].
  destruct (retryLoop_exhausts maxRetries (copyAttempt src dst) Hint (Z.to_nat maxRetries) 0
              (100 * GoTime.Millisecond) None w [] O ltac:(lia) ltac:(lia)) as [Hr Ha].
  { intros j _. rewrite Hout. by eexists. }
  set (r := retryLoop _ _ _ _ _ _ _ _ _) in *.
  split; [|split; [|split; [|split]]].
  - rewrite Hr. destruct (Z.to_nat maxRetries) eqn:E; [lia|]. by rewrite Hout.
  - rewrite Ha. lia.
  - rewrite Hs, Ha. cbn [app].
    replace (0 + Z.to_nat maxRetries - 0 - 1)%nat with (Z.to_nat maxRetries - 1)%nat by lia.
    apply backoff64_no_overflow. intros k Hk.
    unfold GoTime.Millisecond.
    assert (0 < 2 ^ (Z.of_nat k + 1)) by (apply Z.pow_pos_nonneg; lia).
    assert (2 ^ (Z.of_nat k + 1) <= 2 ^ 36) by (apply Z.pow_le_mono_r; lia).
    change (2 ^ 36) with 68719476736 in *. int64_bounds. lia.
  - unfold r. rewrite retryLoop_exhausts_final by (intros j _; rewrite Hout; by eexists).
    by destruct (stateAt_stat_failure src dst err (Z.to_nat maxRetries) w Hstat) as (_ & H2 & _).
  - unfold r. rewrite retryLoop_exhausts_final by (intros j _; rewrite Hout; by eexists).
    by destruct (stateAt_stat_failure src dst err (Z.to_nat maxRetries) w Hstat) as (_ & _ & H3).
Qed.

Lemma SafeCopyFile_permission_denied_witness :
  let r := SafeCopyFile "/src/a.txt" "/bk/a.txt" 3 ScenarioMore.wStatDenied in
  result r = Some (Wrapf ("exceed max retries (" +:+ formatInt 3 +:+ ")")
                     (BackupError "/src/a.txt" "stat_source"
                        (PathError "stat" "/src/a.txt" EACCES) true)) /\
  attempts r = Z.to_nat 3 /\
  slept r = backoff (100 * GoTime.Millisecond) (Z.to_nat 3 - 1) /\
  fs (final r) = fs ScenarioMore.wStatDenied /\
  events (final r) = events ScenarioMore.wStatDenied ++
    replicate (Z.to_nat 3) (EvCopyAttempt "/src/a.txt" "/bk/a.txt").
Proof.
  apply (SafeCopyFile_permission_denied "/src/a.txt" "/bk/a.txt" 3 ScenarioMore.wStatDenied
           (PathError "stat" "/src/a.txt" EACCES)); [lia|reflexivity|reflexivity].
Defined.

(** X3. A source that os.Stat fails on for any reason other than
    permission (a missing file, say), or that is a directory: SafeCopyFile
    returns the error of its first attempt, which is not retryable, after
    one attempt and no sleep, and the file system is as it was. *)
Theorem SafeCopyFile_fatal_source src dst maxRetries w :
  1 <= maxRetries -> inInt64 maxRetries ->
  (exists err, Stat w src = inl err /\ errorsIs KPermission err = false) \/
  (exists m, Stat w src = inr (Dir m)) ->
  let r := SafeCopyFile src dst maxRetries w in
  (exists e, result r = Some e /\ IsRetryable e = false /\
     fst (copyAttempt src dst w) = Some e) /\
  attempts r = 1%nat /\ slept r = [] /\ fs (final r) = fs w /\
  events (final r) = events w ++ [EvCopyAttempt src dst].
Proof.
  intros Hn Hint Hsrc r. subst r. unfold SafeCopyFile, RetryWithBackoff.
  assert (exists e, copyAttempt src dst w = (Some e, emit w (EvCopyAttempt src dst)) /\
            IsRetryable e = false) as (e & Hatt & Hfatal).
  { destruct Hsrc as [(err & Hstat & Hperm)|(m & Hstat)].
    - rewrite (copyAttempt_stat_failure _ _ _ _ Hstat), Hperm. by eexists.
    - rewrite (copyAttempt_directory _ _ _ _ Hstat). by eexists. }
  destruct (retryLoop_trace maxRetries (copyAttempt src dst) Hint (Z.to_nat maxRetries) 0
              (100 * GoTime.Millisecond) None w [] O ltac:(lia) ltac:(lia)) as [_ Hs].
  destruct (retryLoop_settles maxRetries (copyAttempt src dst) Hint (Z.to_nat maxRetries) O 0
              (100 * GoTime.Millisecond) None w [] O ltac:(lia) ltac:(lia) ltac:(lia))
    as (Hr & Ha & Hf).
  { intros j Hj. lia. }
  { unfold outcomeAt. cbn [stateAt]. by rewrite Hatt. }
  set (r := retryLoop _ _ _ _ _ _ _ _ _) in *.
  unfold outcomeAt in Hr. cbn [stateAt] in Hr, Hf. rewrite Hatt in Hr, Hf. cbn [fst snd] in Hr, Hf.
  split; [exists e; by rewrite Hatt|].
  split; [rewrite Ha; lia|]. split; [|by rewrite Hf].
  rewrite Hs, Ha. done.
Qed.

Lemma SafeCopyFile_fatal_source_witness :
  let r := SafeCopyFile "/src/gone.txt" "/bk/gone.txt" 3 Scenario.w0 in
  (exists e, result r = Some e /\ IsRetryable e = false /\
     fst (copyAttempt "/src/gone.txt" "/bk/gone.txt" Scenario.w0) = Some e) /\
  attempts r = 1%nat /\ slept r = [] /\ fs (final r) = fs Scenario.w0 /\
  events (final r) = events Scenario.w0 ++ [EvCopyAttempt "/src/gone.txt" "/bk/gone.txt"].
Proof.
  apply (SafeCopyFile_fatal_source "/src/gone.txt" "/bk/gone.txt" 3 Scenario.w0);
    [lia|int64_range|].
  left. exists (PathError "stat" "/src/gone.txt" ENOENT). split; reflexivity.
Defined.

Lemma bufSize_pos : (1 <= bufSize)%nat.
Proof. unfold bufSize. lia. Qed.

(** The buffers of the read loop are the content, cut into pieces. *)
Lemma concat_chunksOf fuel : forall content,
  (length content <= fuel)%nat -> concat (chunksOf fuel content) = content.
Proof.
  induction fuel as [|fuel IH]; intros content Hlen.
  - destruct content; [done|cbn in Hlen; lia].
  - cbn [chunksOf]. destruct content as [|b content]; [done|].
    cbn [concat]. rewrite IH.
    + apply take_drop.
    + rewrite length_drop. pose proof bufSize_pos. cbn [length] in *. lia.
Qed.

(** What the read/write loop leaves at the destination: the bytes that were
    there, then some of the buffers, in order; all of them when it returns
    nil.  Nothing else in the file system changes. *)
Lemma copyLoop_appends src dst chunks : forall i w res w' c0 m,
  fs w !! dst = Some (File c0 m) ->
  copyLoop src dst chunks i w = (res, w') ->
  exists j, (j <= length chunks)%nat /\
    fs w' = <[dst := File (c0 ++ concat (take j chunks)) m]> (fs w) /\
    events w' = events w /\ fault w' = fault w /\
    (res = None -> (forall k, fault w (SysRead k) src = None) -> j = length chunks).
Proof.
  induction chunks as [|buf rest IH]; intros i w res w' c0 m Hdst H; cbn [copyLoop] in H.
  - exists O. split; [done|]. cbn. rewrite app_nil_r, insert_id by done.
    destruct (fault w (SysRead i) src) as [err|];
      [destruct (String.eqb (Error err) "EOF")|]; by simplify_eq.
  - destruct (fault w (SysRead i) src) as [err|] eqn:Hf.
    + exists O. split; [lia|]. cbn. rewrite app_nil_r, insert_id by done.
      destruct (String.eqb (Error err) "EOF"); simplify_eq;
        (split; [done|]; split; [done|]; split; [done|]); [|done].
      intros _ Hno. by rewrite Hno in Hf.
    + unfold Write in H. destruct (fault w (SysWrite i) dst) as [err|].
      * simplify_eq. exists O. split; [lia|]. cbn. by rewrite app_nil_r, insert_id.
      * rewrite Hdst in H.
        eapply IH in H; [|cbn; apply lookup_insert_eq].
        destruct H as (j & Hj & Hfs & Hev & Hfault & Hall).
        exists (Datatypes.S j). split; [cbn; lia|].
        cbn [take concat]. rewrite Hfs. cbn [setFs fs events fault] in *.
        rewrite insert_insert_eq, app_assoc. split; [done|]. split; [done|]. split; [done|].
        intros Hres Hno. cbn [length]. f_equal. by apply Hall.
Qed.

Lemma Create_ok w dst :
  fault w SysCreate dst = None ->
  (parent dst = ""%string \/ exists dm, fs w !! parent dst = Some (Dir dm)) ->
  (forall dm, fs w !! dst <> Some (Dir dm)) ->
  exists m0, Create w dst = inr (setFs w (<[dst := File [] m0]> (fs w))) /\
    (forall c m, fs w !! dst = Some (File c m) -> m0 = m).
Proof.
  intros Hf Hpar Hnd. unfold Create. rewrite Hf.
  assert ((if String.eqb (parent dst) "" then None
           else match fs w !! parent dst with
                | Some (Dir _) => None
                | Some (File _ _) => Some ENOTDIR
                | None => Some ENOENT
                end) = None) as ->.
  { destruct (String.eqb_spec (parent dst) ""); [done|].
    destruct Hpar as [?|[dm ->]]; done. }
  destruct (fs w !! dst) as [[c m|dm]|] eqn:Hd.
  - exists m. split; [done|]. intros c' m' ?. by simplify_eq.
  - by destruct (Hnd dm).
  - eexists. split; [done|]. done.
Qed.

(** With nothing failing, one attempt makes the destination a copy of the
    source, content and mode, and changes nothing else. *)
Lemma copyAttempt_copies src dst w c m :
  src <> dst ->
  fs w !! src = Some (File c m) ->
  (forall call, fault w call src = None) ->
  (forall call, fault w call dst = None) ->
  (parent dst = ""%string \/ exists dm, fs w !! parent dst = Some (Dir dm)) ->
  (forall dm, fs w !! dst <> Some (Dir dm)) ->
  exists w', copyAttempt src dst w = (None, w') /\
    fs w' = <[dst := File c m]> (fs w) /\
    events w' = events w ++ [EvCopyAttempt src dst] /\
    fault w' = fault w.
Proof.
  intros Hne Hsrc Hfs Hfd Hpar Hnd. unfold copyAttempt.
  set (w0 := emit w (EvCopyAttempt src dst)).
  assert (Stat w0 src = inr (File c m)) as -> by (unfold Stat; cbn; by rewrite Hfs, Hsrc).
  cbn [IsDir Mode].
  assert (Open w0 src = None) as -> by (unfold Open; cbn; by rewrite Hfs, Hsrc).
  destruct (Create_ok w0 dst (Hfd _) Hpar Hnd) as (m0 & -> & _).
  set (w1 := setFs w0 _).
  assert (contentOf w1 src = c) as ->.
  { unfold contentOf. cbn. by rewrite lookup_insert_ne, Hsrc. }
  destruct (copyLoop src dst (chunksOf (length c) c) O w1) as [res w2] eqn:Hloop.
  assert (fs w1 !! dst = Some (File [] m0)) as Hd1 by (cbn; apply lookup_insert_eq).
  destruct (copyLoop_appends _ _ _ _ _ _ _ _ _ Hd1 Hloop)
    as (j & Hj & Hfs2 & Hev2 & Hfault2 & Hall).
  assert (res = None) as ->.
  { destruct res as [e|]; [|done].
    apply CopyFacts.copyLoop_failure in Hloop
      as [(err & k & _ & Hf & _)|(err & k & buf & _ & Hw)].
    - rewrite Hfault2 in Hf. subst w1 w0. cbn in Hf. by rewrite Hfs in Hf.
    - unfold Write in Hw. rewrite Hfault2 in Hw. subst w1 w0. cbn [setFs emit fault] in Hw.
      rewrite Hfd, Hfs2, lookup_insert_eq in Hw. done. }
  rewrite (Hall eq_refl) in Hfs2 by (intros k; apply Hfs).
  rewrite firstn_all, concat_chunksOf in Hfs2 by done. cbn [app] in Hfs2.
  unfold Chmod. rewrite Hfault2. subst w1 w0. cbn [setFs emit fault fs events] in *.
  rewrite Hfd, Hfs2, lookup_insert_eq.
  eexists. split; [done|]. cbn [setFs fs events fault].
  split; [by rewrite !insert_insert_eq|]. split; [by rewrite Hev2|done].
Qed.

(** A first attempt that returns nil is the whole run. *)
Lemma SafeCopyFile_first_success src dst maxRetries w w' :
  1 <= maxRetries -> inInt64 maxRetries ->
  copyAttempt src dst w = (None, w') ->
  let r := SafeCopyFile src dst maxRetries w in
  result r = None /\ attempts r = 1%nat /\ slept r = [] /\ final r = w'.
Proof.
  intros Hn Hint Hatt r. subst r. unfold SafeCopyFile, RetryWithBackoff.
  destruct (retryLoop_trace maxRetries (copyAttempt src dst) Hint (Z.to_nat maxRetries) 0
              (100 * GoTime.Millisecond) None w [] O ltac:(lia) ltac:(lia)) as [_ Hs].
  destruct (retryLoop_settles maxRetries (copyAttempt src dst) Hint (Z.to_nat maxRetries) O 0
              (100 * GoTime.Millisecond) None w [] O ltac:(lia) ltac:(lia) ltac:(lia))
    as (Hr & Ha & Hf).
  { intros j Hj. lia. }
  { unfold outcomeAt. cbn [stateAt]. by rewrite Hatt. }
  set (r := retryLoop _ _ _ _ _ _ _ _ _) in *.
  unfold outcomeAt in Hr. cbn [stateAt] in Hr, Hf. rewrite Hatt in Hr, Hf. cbn [fst snd] in Hr, Hf.
  split; [done|]. split; [rewrite Ha; lia|]. split; [by rewrite Hs, Ha|done].
Qed.

(** X4. With no call failing on source or destination, a source that is
    a regular file, a destination other than the source that is no
    directory and whose directory exists: SafeCopyFile returns nil after one
    attempt and no sleep; the destination then holds the bytes and the mode
    of the source, and no other path has changed. *)
Theorem SafeCopyFile_copies src dst maxRetries w c m :
  1 <= maxRetries -> inInt64 maxRetries ->
  src <> dst ->
  fs w !! src = Some (File c m) ->
  (forall call, fault w call src = None) ->
  (forall call, fault w call dst = None) ->
  (parent dst = ""%string \/ exists dm, fs w !! parent dst = Some (Dir dm)) ->
  (forall dm, fs w !! dst <> Some (Dir dm)) ->
  let r := SafeCopyFile src dst maxRetries w in
  result r = None /\ attempts r = 1%nat /\ slept r = [] /\
  fs (final r) = <[dst := File c m]> (fs w) /\
  events (final r) = events w ++ [EvCopyAttempt src dst].
Proof.
  intros Hn Hint Hne Hsrc Hfs Hfd Hpar Hnd r. subst r.
  destruct (copyAttempt_copies src dst w c m Hne Hsrc Hfs Hfd Hpar Hnd)
    as (w' & Hatt & Hfs' & Hev' & _).
  destruct (SafeCopyFile_first_success src dst maxRetries w w' Hn Hint Hatt)
    as (Hr & Ha & Hs & ->).
  done.
Qed.

Lemma SafeCopyFile_copies_witness :
  let r := SafeCopyFile "/src/a.txt" "/bk/a.txt" 3 Scenario.w0 in
  result r = None /\ attempts r = 1%nat /\ slept r = [] /\
  fs (final r) = <["/bk/a.txt"%string := File [Byte.x61] 420]> (fs Scenario.w0) /\
  events (final r) = events Scenario.w0 ++ [EvCopyAttempt "/src/a.txt" "/bk/a.txt"].
Proof.
  apply (SafeCopyFile_copies "/src/a.txt" "/bk/a.txt" 3 Scenario.w0 [Byte.x61] 420).
  - lia.
  - int64_range.
  - discriminate.
  - reflexivity.
  - intros call. reflexivity.
  - intros call. reflexivity.
  - right. exists 493. reflexivity.
  - intros dm. vm_compute. discriminate.
Defined.

(** X5. Copying a file onto itself empties it: the closure of SafeCopyFile
    truncates the destination before it reads the source, so with source and
    destination the same path it returns nil and leaves the file with no
    content (and its mode). *)
Theorem copyAttempt_onto_itself src w c m :
  fs w !! src = Some (File c m) ->
  (forall call, fault w call src = None) ->
  (parent src = ""%string \/ exists dm, fs w !! parent src = Some (Dir dm)) ->
  exists w', copyAttempt src src w = (None, w') /\
    fs w' = <[src := File [] m]> (fs w).
Proof.
  intros Hsrc Hfs Hpar. unfold copyAttempt.
  assert (Stat (emit w (EvCopyAttempt src src)) src = inr (File c m)) as ->
    by (unfold Stat; cbn; by rewrite Hfs, Hsrc).
  cbn [IsDir Mode].
  assert (Open (emit w (EvCopyAttempt src src)) src = None) as ->
    by (unfold Open; cbn; by rewrite Hfs, Hsrc).
  destruct (Create_ok (emit w (EvCopyAttempt src src)) src (Hfs _) Hpar) as (m0 & -> & Hm0).
  { intros dm. cbn. by rewrite Hsrc. }
  rewrite (Hm0 c m) by done.
  unfold contentOf. cbn [setFs emit fault fs]. rewrite lookup_insert_eq.
  cbn [length chunksOf copyLoop setFs emit fault]. rewrite Hfs.
  unfold Chmod. cbn [setFs emit fault fs]. rewrite Hfs, lookup_insert_eq.
  eexists. split; [done|]. cbn [setFs fs]. by rewrite insert_insert_eq.
Qed.

Lemma copyAttempt_onto_itself_witness :
  exists w', copyAttempt "/src/a.txt" "/src/a.txt" Scenario.w0 = (None, w') /\
    fs w' = <["/src/a.txt"%string := File [] 420]> (fs Scenario.w0).
Proof.
  apply (copyAttempt_onto_itself "/src/a.txt" Scenario.w0 [Byte.x61] 420).
  - reflexivity.
  - intros call. reflexivity.
  - right. exists 493. reflexivity.
Defined.

(** X6. An attempt that fails in the read/write loop (a "read" or "write"
    BackupError) does not remove what it wrote: the destination is left in
    place holding a prefix of the source's bytes, and no other path has
    changed. *)
Theorem copyAttempt_partial_file src dst w w' e c m :
  src <> dst ->
  fs w !! src = Some (File c m) ->
  copyAttempt src dst w = (Some e, w') ->
  (exists err, e = BackupError src "read" err true \/ e = BackupError dst "write" err true) ->
  exists c' dm, fs w' = <[dst := File c' dm]> (fs w) /\ c' `prefix_of` c.
Proof.
  intros Hne Hsrc Hatt Hop. unfold copyAttempt in Hatt.
  destruct (Stat _ src) as [err|srcInfo]; [destruct Hop as [? [?|?]]; by simplify_eq|].
  destruct (IsDir srcInfo); [destruct Hop as [? [?|?]]; by simplify_eq|].
  destruct (Open _ src); [destruct Hop as [? [?|?]]; by simplify_eq|].
  destruct (Create _ dst) as [err|w1] eqn:Hcreate;
    [destruct Hop as [? [?|?]]; by simplify_eq|].
  assert (exists m0, fs w1 = <[dst := File [] m0]> (fs w)) as [m0 Hfs1].
  { unfold Create in Hcreate. destruct (fault _ SysCreate dst); [done|].
    destruct (if String.eqb (parent dst) "" then _ else _); [done|].
    destruct (fs _ !! dst) as [[c0 m0|m0]|]; simplify_eq; by eexists. }
  assert (contentOf w1 src = c) as Hc.
  { unfold contentOf. by rewrite Hfs1, lookup_insert_ne, Hsrc. }
  rewrite Hc in Hatt.
  destruct (copyLoop src dst _ O w1) as [[e'|] w2] eqn:Hloop.
  - injection Hatt as -> ->.
    destruct (copyLoop_appends _ _ _ O w1 _ _ [] m0 ltac:(rewrite Hfs1; apply lookup_insert_eq) Hloop)
      as (j & _ & Hfs2 & _).
    exists (concat (take j (chunksOf (length c) c))), m0.
    split; [by rewrite Hfs2, Hfs1, insert_insert_eq|].
    exists (concat (drop j (chunksOf (length c) c))).
    by rewrite <- concat_app, take_drop, concat_chunksOf.
  - by destruct (Chmod w2 dst (Mode srcInfo)).
Qed.

Lemma copyAttempt_partial_file_witness :
  exists c' dm,
    fs (snd (copyAttempt "/src/a.txt" "/bk/a.txt" Scenario.wReadFault)) =
      <["/bk/a.txt"%string := File c' dm]> (fs Scenario.wReadFault) /\
    c' `prefix_of` [Byte.x61].
Proof.
  apply (copyAttempt_partial_file "/src/a.txt" "/bk/a.txt" Scenario.wReadFault
           (snd (copyAttempt "/src/a.txt" "/bk/a.txt" Scenario.wReadFault))
           (BackupError "/src/a.txt" "read" EIO true) [Byte.x61] 420).
  - discriminate.
  - reflexivity.
  - apply BackupFacts.pair_fst_snd. vm_compute. reflexivity.
  - exists EIO. by left.
Defined.

End CopyMore.

(** ** watcher/watcher.go: the event loop *)

Module WatcherMore.
Import OS Config Watcher WatcherFacts WatcherLoop.

(** What one call of enqueueBackup can do to the watcher. *)
Lemma enqueueBackup_step fw path eventType w :
  let r := enqueueBackup fw path eventType w in
  fst r = fw \/
  ((length (backupQueue fw) < queueCap fw)%nat /\
   exists stamp now,
     fst r = withQueue fw (backupQueue fw ++ [mkBackupJob path eventType stamp])
                       (<[path := now]> (lastBackup fw))).
Proof.
  cbn zeta. unfold enqueueBackup.
  destruct (lastBackup fw !! path) as [lastTime|]; cbn [Now].
  - destruct (GoTime.Sub _ lastTime <? MinInterval (config fw)); [by left|].
    destruct (Nat.ltb_spec (length (backupQueue fw)) (queueCap fw)); [|by left].
    right. split; [done|]. by eexists _, _.
  - destruct (Nat.ltb_spec (length (backupQueue fw)) (queueCap fw)); [|by left].
    right. split; [done|]. by eexists _, _.
Qed.

Lemma enqueueBackup_world fw path eventType w :
  let r := enqueueBackup fw path eventType w in
  fs (snd r) = fs w /\ fault (snd r) = fault w /\ clock (snd r) = clock w.
Proof.
  cbn zeta. unfold enqueueBackup.
  destruct (lastBackup fw !! path) as [lastTime|]; cbn [Now].
  - destruct (GoTime.Sub _ lastTime <? MinInterval (config fw)); [done|].
    by destruct (length (backupQueue fw) <? queueCap fw)%nat.
  - by destruct (length (backupQueue fw) <? queueCap fw)%nat.
Qed.

(** What one event can do to the watcher: register the path if it is a
    newly created directory, and besides either nothing or one more job, for
    the event's path, with the debounce entry of that path set. *)
Lemma handleEvent_step fw event w :
  let r := handleEvent fw event w in
  exists fw0,
    (fw0 = fw \/ fw0 = addWatch fw (Name event)) /\
    (fst r = fw0 \/
     ((length (backupQueue fw) < queueCap fw)%nat /\
      (has (Op event) Create || has (Op event) Write = true) /\
      isDir w (Name event) = false /\ shouldIgnore fw (Name event) = false /\
      exists eventType stamp now,
        fst r = withQueue fw0 (backupQueue fw ++ [mkBackupJob (Name event) eventType stamp])
                          (<[Name event := now]> (lastBackup fw)))).
Proof.
  cbn zeta. unfold handleEvent.
  destruct (has (Op event) Create) eqn:Hc.
  - destruct (isDir w (Name event)) eqn:Hd.
    + exists (addWatch fw (Name event)). split; [by right|]. left.
      unfold dispatch. by rewrite !isDir_emit, Hd.
    + exists fw. split; [by left|]. unfold dispatch. rewrite isDir_emit, Hd.
      destruct (shouldIgnore fw (Name event)) eqn:Hi; [by left|].
      destruct (enqueueBackup_step fw (Name event) "CREATe"
                  (emit w (EvLog (LogFileCreated (Filepath.Base (Name event))))))
        as [H|(Hroom & stamp & now & H)]; [by left|].
      right. repeat split; try done. by exists "CREATe"%string, stamp, now.
  - exists fw. split; [by left|].
    destruct (has (Op event) Write) eqn:Hw.
    + unfold dispatch. rewrite isDir_emit.
      destruct (isDir w (Name event)) eqn:Hd; [by left|].
      destruct (shouldIgnore fw (Name event)) eqn:Hi; [by left|].
      destruct (enqueueBackup_step fw (Name event) "WRITE"
                  (emit w (EvLog (LogFileModified (Filepath.Base (Name event))))))
        as [H|(Hroom & stamp & now & H)]; [by left|].
      right. repeat split; try done. by exists "WRITE"%string, stamp, now.
    + left. destruct (has (Op event) Remove); [done|].
      destruct (has (Op event) Rename); [done|]. by destruct (has (Op event) Chmod).
Qed.

(** The handler never looks at the file system to change it. *)
Lemma handleEvent_world fw event w :
  let r := handleEvent fw event w in
  fs (snd r) = fs w /\ fault (snd r) = fault w /\ clock (snd r) = clock w /\
  config (fst r) = config fw /\ queueCap (fst r) = queueCap fw.
Proof.
  cbn zeta.
  assert (forall fw' name ty w',
            let r := dispatch fw' name ty w' in
            fs (snd r) = fs w' /\ fault (snd r) = fault w' /\ clock (snd r) = clock w' /\
            config (fst r) = config fw' /\ queueCap (fst r) = queueCap fw') as Hd.
  { intros fw' name ty w'. cbn zeta. unfold dispatch.
    destruct (isDir w' name); [done|]. destruct (shouldIgnore fw' name); [done|].
    destruct (enqueueBackup_world fw' name ty w') as (H1 & H2 & H3).
    destruct (enqueueBackup_step fw' name ty w') as [H|(_ & ? & ? & H)]; by rewrite H. }
  unfold handleEvent.
  destruct (has (Op event) Create).
  - destruct (isDir w (Name event)).
    + exact (Hd (addWatch fw (Name event)) _ _
               (emit (emit w _) (EvLog (LogFileCreated (Filepath.Base (Name event)))))).
    + exact (Hd fw _ _ (emit w (EvLog (LogFileCreated (Filepath.Base (Name event)))))).
  - destruct (has (Op event) Write);
      [exact (Hd fw _ _ (emit w (EvLog (LogFileModified (Filepath.Base (Name event))))))|].
    destruct (has (Op event) Remove); [done|].
    destruct (has (Op event) Rename); [done|]. by destruct (has (Op event) Chmod).
Qed.

(** X7. One event and the job queue: handleEvent keeps the queue within its
    capacity, leaves it as it was or appends one job, which is for the
    event's path; it changes the debounce entry of no other path and removes
    none. *)
Theorem handleEvent_queue_bounded fw event w :
  (length (backupQueue fw) <= queueCap fw)%nat ->
  let fw' := fst (handleEvent fw event w) in
  (length (backupQueue fw') <= queueCap fw')%nat /\
  (backupQueue fw' = backupQueue fw \/
   exists job, backupQueue fw' = backupQueue fw ++ [job] /\ FilePath job = Name event) /\
  (forall p, p <> Name event -> lastBackup fw' !! p = lastBackup fw !! p) /\
  (forall p, is_Some (lastBackup fw !! p) -> is_Some (lastBackup fw' !! p)).
Proof.
  intros Hcap fw'. subst fw'.
  destruct (handleEvent_step fw event w) as (fw0 & Hfw0 & Hstep).
  assert (lastBackup fw0 = lastBackup fw /\ backupQueue fw0 = backupQueue fw /\
          queueCap fw0 = queueCap fw) as (Hm0 & Hq0 & Hc0) by (by destruct Hfw0 as [->| ->]).
  destruct Hstep as [->|(Hroom & _ & _ & _ & ty & stamp & now & ->)].
  - rewrite Hm0, Hq0, Hc0. split; [done|]. split; [by left|]. done.
  - cbn [withQueue backupQueue lastBackup queueCap]. rewrite Hc0.
    split; [rewrite length_app; cbn; lia|]. split; [right; by eexists|]. split.
    + intros p Hp. by rewrite lookup_insert_ne.
    + intros p Hp. destruct (decide (Name event = p)) as [->|Hne].
      * rewrite lookup_insert_eq. by eexists.
      * by rewrite lookup_insert_ne.
Qed.

Lemma handleEvent_queue_bounded_witness :
  let fw' := fst (handleEvent Scenario.fw0 (mkEvent "/src/a.txt" Write) Scenario.w0) in
  (length (backupQueue fw') <= queueCap fw')%nat /\
  (backupQueue fw' = backupQueue Scenario.fw0 \/
   exists job, backupQueue fw' = backupQueue Scenario.fw0 ++ [job] /\
               FilePath job = "/src/a.txt"%string) /\
  (forall p, p <> "/src/a.txt"%string ->
     lastBackup fw' !! p = lastBackup Scenario.fw0 !! p) /\
  (forall p, is_Some (lastBackup Scenario.fw0 !! p) -> is_Some (lastBackup fw' !! p)).
Proof.
  apply (handleEvent_queue_bounded Scenario.fw0 (mkEvent "/src/a.txt" Write) Scenario.w0).
  cbn. lia.
Defined.

Lemma isDir_ext w1 w path :
  fs w1 = fs w -> fault w1 = fault w -> isDir w1 path = isDir w path.
Proof. intros Hfs Hf. unfold isDir, Lstat, Stat. by rewrite Hfs, Hf. Qed.

Lemma shouldIgnore_ext fw1 fw path :
  config fw1 = config fw -> shouldIgnore fw1 path = shouldIgnore fw path.
Proof. intros H. unfold shouldIgnore. by rewrite H. Qed.

(** A write event on a path that was never backed up, is no directory and is
    not ignored: the job is queued if there is room and dropped otherwise. *)
Lemma handleEvent_fresh_write fw name w :
  lastBackup fw !! name = None -> isDir w name = false -> shouldIgnore fw name = false ->
  let r := handleEvent fw (mkEvent name Write) w in
  if (length (backupQueue fw) <? queueCap fw)%nat then
    exists stamp now,
      fst r = withQueue fw (backupQueue fw ++ [mkBackupJob name "WRITE" stamp])
                        (<[name := now]> (lastBackup fw))
  else
    fst r = fw /\
    last (events (snd r)) =
      Some (EvLog (LogWarning ("Queue full, skipping backup for: " +:+ Filepath.Base name))).
Proof.
  intros Hnew Hd Hi. cbn zeta. unfold handleEvent. cbn [Name Op].
  change (has Write Create) with false. change (has Write Write) with true. cbv iota.
  unfold dispatch. rewrite isDir_emit, Hd, Hi. unfold enqueueBackup. rewrite Hnew.
  cbn [Now]. destruct (length (backupQueue fw) <? queueCap fw)%nat.
  - by eexists _, _.
  - cbn [fst snd emit events]. by rewrite last_snoc.
Qed.

(** X8. Back-pressure of the event loop.  For write events on distinct
    paths that were never backed up, are no directories and are not ignored,
    handled while no worker takes a job: the first [capacity - length] of
    them, in order, are queued after the jobs already there and get a
    debounce entry; the others are dropped (with the "Queue full" warning)
    and get none. *)
Theorem watchLoop_queue_overflow names : forall fw w,
  NoDup names ->
  (forall n, n ∈ names ->
     lastBackup fw !! n = None /\ isDir w n = false /\ shouldIgnore fw n = false) ->
  (length (backupQueue fw) <= queueCap fw)%nat ->
  let fw' := fst (watchLoop fw (map (fun n => MsgEvent (mkEvent n Write)) names) w) in
  let room := (queueCap fw - length (backupQueue fw))%nat in
  map FilePath (backupQueue fw') = map FilePath (backupQueue fw) ++ take room names /\
  (forall p, is_Some (lastBackup fw' !! p) <->
             is_Some (lastBackup fw !! p) \/ p ∈ take room names).
Proof.
  induction names as [|n names IH]; intros fw w Hnd Hall Hcap; cbn zeta.
  - cbn. rewrite take_nil, app_nil_r. split; [done|]. intros p. split; [by left|].
    intros [?|H]; [done|]. by apply elem_of_nil in H.
  - cbn [map watchLoop]. apply NoDup_cons in Hnd as [Hn Hnd].
    destruct (Hall n ltac:(left)) as (Hnew & Hd & Hi).
    pose proof (handleEvent_fresh_write fw n w Hnew Hd Hi) as Hstep. cbn zeta in Hstep.
    destruct (handleEvent_world fw (mkEvent n Write) w) as (Hfs & Hf & _ & Hcfg & Hqc).
    destruct (handleEvent fw (mkEvent n Write) w) as [fw1 w1]. cbn [fst snd] in *.
    assert (forall n', n' ∈ names ->
              isDir w1 n' = false /\ shouldIgnore fw1 n' = false) as Hrest.
    { intros n' Hn'. destruct (Hall n' ltac:(by right)) as (_ & H1 & H2).
      by rewrite (isDir_ext _ _ _ Hfs Hf), (shouldIgnore_ext _ _ _ Hcfg). }
    destruct (Nat.ltb_spec (length (backupQueue fw)) (queueCap fw)) as [Hroom|Hfull].
    + destruct Hstep as (stamp & now & ->).
      specialize (IH (withQueue fw (backupQueue fw ++ [mkBackupJob n "WRITE" stamp])
                        (<[n := now]> (lastBackup fw))) w1 Hnd).
      cbn zeta in IH. cbn [withQueue backupQueue lastBackup queueCap] in IH.
      destruct IH as [Hq Hm].
      * intros n' Hn'. destruct (Hrest n' Hn') as [H1 H2]. split; [|done].
        rewrite lookup_insert_ne; [by apply Hall; right|]. intros ->. done.
      * rewrite length_app. cbn. lia.
      * rewrite length_app in Hq, Hm. cbn [length] in Hq, Hm.
        replace (queueCap fw - length (backupQueue fw))%nat
          with (Datatypes.S (queueCap fw - (length (backupQueue fw) + 1))) by lia.
        cbn [take]. split.
        -- rewrite Hq, map_app. cbn. by rewrite <- app_assoc.
        -- intros p. rewrite Hm, elem_of_cons.
           destruct (decide (n = p)) as [->|Hne].
           ++ rewrite lookup_insert_eq. split; [intros _; right; by left|intros _; left; by eexists].
           ++ rewrite lookup_insert_ne by done. split; [intros [?|?]; tauto|].
              intros [?|[?|?]]; [tauto|congruence|tauto].
    + destruct Hstep as [-> _].
      specialize (IH fw w1 Hnd). cbn zeta in IH.
      destruct IH as [Hq Hm]; [|done|].
      * intros n' Hn'. destruct (Hrest n' Hn') as [H1 H2].
        split; [by apply Hall; right|done].
      * replace (queueCap fw - length (backupQueue fw))%nat with O in * by lia.
        by rewrite take_0 in *.
Qed.

Lemma watchLoop_queue_overflow_witness :
  let names := ["/src/a.txt"; "/src/c.txt"]%string in
  let fw' := fst (watchLoop ScenarioMore.fwAlmostFull
                    (map (fun n => MsgEvent (mkEvent n Write)) names) Scenario.w0) in
  let room := (queueCap ScenarioMore.fwAlmostFull
               - length (backupQueue ScenarioMore.fwAlmostFull))%nat in
  map FilePath (backupQueue fw') =
    map FilePath (backupQueue ScenarioMore.fwAlmostFull) ++ take room names /\
  (forall p, is_Some (lastBackup fw' !! p) <->
             is_Some (lastBackup ScenarioMore.fwAlmostFull !! p) \/ p ∈ take room names).
Proof.
  apply (watchLoop_queue_overflow ["/src/a.txt"; "/src/c.txt"]%string
           ScenarioMore.fwAlmostFull Scenario.w0).
  - apply (bool_decide_unpack _). vm_compute. exact I.
  - apply Forall_forall. repeat constructor; vm_compute; reflexivity.
  - vm_compute. lia.
Defined.

(** X9. What GetStats reports after the event loop has handled any messages,
    from a watcher whose queue is within its capacity: queue_length is at
    most queue_capacity, which is unchanged; the loop itself never takes a
    job out nor forgets a tracked file, and tracked_files has grown by no
    more than queue_length has. *)
Theorem watchLoop_stats fw msgs w :
  (length (backupQueue fw) <= queueCap fw)%nat ->
  let st := GetStats fw in
  let st' := GetStats (fst (watchLoop fw msgs w)) in
  (queue_length st' <= queue_capacity st')%nat /\
  queue_capacity st' = queue_capacity st /\
  (queue_length st <= queue_length st')%nat /\
  (tracked_files st <= tracked_files st')%nat /\
  (tracked_files st' - tracked_files st <= queue_length st' - queue_length st)%nat.
Proof.
  intros Hcap. cbn zeta. cbn [GetStats queue_length queue_capacity tracked_files].
  revert fw w Hcap.
  induction msgs as [|[event|err] msgs IH]; intros fw w Hcap; cbn [watchLoop fst];
    [lia| |by apply IH].
  destruct (handleEvent_step fw event w) as (fw0 & Hfw0 & Hstep).
  destruct (handleEvent fw event w) as [fw1 w1]. cbn [fst] in Hstep.
  assert (lastBackup fw0 = lastBackup fw /\ backupQueue fw0 = backupQueue fw /\
          queueCap fw0 = queueCap fw) as (Hm0 & Hq0 & Hc0) by (by destruct Hfw0 as [->| ->]).
  assert ((length (backupQueue fw1) <= queueCap fw1)%nat /\ queueCap fw1 = queueCap fw /\
          (length (backupQueue fw) <= length (backupQueue fw1))%nat /\
          (size (lastBackup fw) <= size (lastBackup fw1))%nat /\
          (size (lastBackup fw1) - size (lastBackup fw)
           <= length (backupQueue fw1) - length (backupQueue fw))%nat)
    as (H1 & H2 & H3 & H4 & H5).
  { destruct Hstep as [->|(Hroom & _ & _ & _ & ty & stamp & now & ->)].
    - rewrite Hq0, Hc0, Hm0. lia.
    - cbn [withQueue lastBackup backupQueue queueCap]. rewrite length_app, Hc0. cbn [length].
      destruct (lastBackup fw !! Name event) eqn:Hl.
      + rewrite map_size_insert_Some by (by eexists). lia.
      + rewrite map_size_insert_None by done. lia. }
  destruct (IH fw1 w1 H1) as (G1 & G2 & G3 & G4 & G5). lia.
Qed.

Lemma watchLoop_stats_witness :
  let st := GetStats Scenario.fw0 in
  let st' := GetStats (fst (watchLoop Scenario.fw0
                              [MsgEvent (mkEvent "/src/a.txt" Write)] Scenario.w0)) in
  (queue_length st' <= queue_capacity st')%nat /\
  queue_capacity st' = queue_capacity st /\
  (queue_length st <= queue_length st')%nat /\
  (tracked_files st <= tracked_files st')%nat /\
  (tracked_files st' - tracked_files st <= queue_length st' - queue_length st)%nat.
Proof.
  apply (watchLoop_stats Scenario.fw0 [MsgEvent (mkEvent "/src/a.txt" Write)] Scenario.w0).
  cbn. lia.
Defined.

Lemma enqueueBackup_fresh fw path ty w :
  (length (backupQueue fw) < queueCap fw)%nat ->
  lastBackup fw !! path = None ->
  enqueueBackup fw path ty w =
    (withQueue fw (backupQueue fw ++ [mkBackupJob path ty (clock w (ticks w))])
               (<[path := clock w (Datatypes.S (ticks w))]> (lastBackup fw)),
     emit (ticked w 2)
          (EvLog (LogInfo ("Add to backup queue: " +:+ Filepath.Base path +:+
                           " [" +:+ ty +:+ "]")))).
Proof.
  intros Hroom Hnew. unfold enqueueBackup. rewrite Hnew. cbn [Now].
  apply Nat.ltb_lt in Hroom. by rewrite Hroom.
Qed.

(** X10. Two calls of enqueueBackup for one path that was never backed up,
    with room in the queue: the first records as last backup the second of
    its two readings of the clock (the job carries the first); the second
    call is skipped as "too soon" when its reading of the clock is less than
    MinInterval after that record, and queues a second job for the same path
    otherwise. *)
Theorem enqueueBackup_second_event fw path ty1 ty2 w :
  (length (backupQueue fw) < queueCap fw)%nat ->
  lastBackup fw !! path = None ->
  let r1 := enqueueBackup fw path ty1 w in
  let recorded := clock w (Datatypes.S (ticks w)) in
  let checked := clock w (Datatypes.S (Datatypes.S (ticks w))) in
  let r2 := enqueueBackup (fst r1) path ty2 (snd r1) in
  lastBackup (fst r1) !! path = Some recorded /\
  (GoTime.Sub checked recorded < MinInterval (config fw) ->
   fst r2 = fst r1 /\
   last (events (snd r2)) =
     Some (EvLog (LogBackupSkipped (Filepath.Base path) "too soon since last backup"))) /\
  (MinInterval (config fw) <= GoTime.Sub checked recorded ->
   (length (backupQueue fw) + 1 < queueCap fw)%nat ->
   map FilePath (backupQueue (fst r2)) = map FilePath (backupQueue fw) ++ [path; path]).
Proof.
  intros Hroom Hnew. cbn zeta. rewrite (enqueueBackup_fresh fw path ty1 w Hroom Hnew).
  cbn [fst snd]. split; [cbn; apply lookup_insert_eq|].
  unfold enqueueBackup. cbn [withQueue lastBackup backupQueue queueCap config].
  rewrite lookup_insert_eq. cbn [Now emit ticked ticks clock Nat.add].
  split.
  - intros Hsoon. apply Z.ltb_lt in Hsoon. rewrite Hsoon. cbn [fst snd emit events].
    by rewrite last_snoc.
  - intros Hlate Hroom2. apply Z.ltb_ge in Hlate. rewrite Hlate.
    rewrite length_app. cbn [length]. apply Nat.ltb_lt in Hroom2. rewrite Hroom2.
    cbn [fst withQueue backupQueue]. rewrite !map_app. cbn. by rewrite <- app_assoc.
Qed.

Lemma enqueueBackup_second_event_witness :
  let fw := Scenario.fw0 in
  let w := Scenario.w0 in
  let path := "/src/a.txt"%string in
  let r1 := enqueueBackup fw path "CREATe" w in
  let recorded := clock w (Datatypes.S (ticks w)) in
  let checked := clock w (Datatypes.S (Datatypes.S (ticks w))) in
  let r2 := enqueueBackup (fst r1) path "WRITE" (snd r1) in
  lastBackup (fst r1) !! path = Some recorded /\
  (GoTime.Sub checked recorded < MinInterval (config fw) ->
   fst r2 = fst r1 /\
   last (events (snd r2)) =
     Some (EvLog (LogBackupSkipped (Filepath.Base path) "too soon since last backup"))) /\
  (MinInterval (config fw) <= GoTime.Sub checked recorded ->
   (length (backupQueue fw) + 1 < queueCap fw)%nat ->
   map FilePath (backupQueue (fst r2)) = map FilePath (backupQueue fw) ++ [path; path]).
Proof.
  apply (enqueueBackup_second_event Scenario.fw0 "/src/a.txt" "CREATe" "WRITE" Scenario.w0).
  - cbn. lia.
  - reflexivity.
Defined.

(** X11. From event to job: a Create or Write event on a path that is no
    directory, is not ignored and was never backed up, with room in the
    queue, appends one job for that path, of type "CREATe" (as the code
    spells it) when the Create bit is set and "WRITE" otherwise, stamped with
    the next reading of the clock; the reading after that becomes the path's
    debounce entry, and no directory is registered. *)
Theorem handleEvent_enqueues fw event w :
  has (Op event) Create || has (Op event) Write = true ->
  isDir w (Name event) = false -> shouldIgnore fw (Name event) = false ->
  lastBackup fw !! Name event = None ->
  (length (backupQueue fw) < queueCap fw)%nat ->
  let r := handleEvent fw event w in
  let eventType := if has (Op event) Create then "CREATe"%string else "WRITE"%string in
  backupQueue (fst r) =
    backupQueue fw ++ [mkBackupJob (Name event) eventType (clock w (ticks w))] /\
  lastBackup (fst r) = <[Name event := clock w (Datatypes.S (ticks w))]> (lastBackup fw) /\
  watched (fst r) = watched fw.
Proof.
  intros Hop Hd Hi Hnew Hroom. cbn zeta. unfold handleEvent. rewrite Hd.
  destruct (has (Op event) Create).
  - unfold dispatch. rewrite isDir_emit, Hd, Hi.
    by rewrite (enqueueBackup_fresh _ _ _ _ Hroom Hnew).
  - cbn in Hop. rewrite Hop. unfold dispatch. rewrite isDir_emit, Hd, Hi.
    by rewrite (enqueueBackup_fresh _ _ _ _ Hroom Hnew).
Qed.

Lemma handleEvent_enqueues_witness :
  let fw := Scenario.fw0 in
  let w := Scenario.w0 in
  let event := mkEvent "/src/a.txt" Write in
  let r := handleEvent fw event w in
  let eventType := if has (Op event) Create then "CREATe"%string else "WRITE"%string in
  backupQueue (fst r) =
    backupQueue fw ++ [mkBackupJob (Name event) eventType (clock w (ticks w))] /\
  lastBackup (fst r) = <[Name event := clock w (Datatypes.S (ticks w))]> (lastBackup fw) /\
  watched (fst r) = watched fw.
Proof.
  apply (handleEvent_enqueues Scenario.fw0 (mkEvent "/src/a.txt" Write) Scenario.w0).
  - reflexivity.
  - reflexivity.
  - vm_compute. reflexivity.
  - reflexivity.
  - cbn. lia.
Defined.

(** X12. A Create event on a directory registers the directory with the
    fsnotify watcher and logs "New catalog: <base>" and then the file-created
    line; it queues nothing, records nothing and reads no clock, whatever
    the ignore patterns say. *)
Theorem handleEvent_new_directory fw event w :
  has (Op event) Create = true -> isDir w (Name event) = true ->
  handleEvent fw event w =
    (addWatch fw (Name event),
     emit (emit w (EvLog (LogInfo ("New catalog: " +:+ Filepath.Base (Name event)))))
          (EvLog (LogFileCreated (Filepath.Base (Name event))))).
Proof.
  intros Hc Hd. unfold handleEvent. rewrite Hc, Hd. unfold dispatch.
  by rewrite !isDir_emit, Hd.
Qed.

Lemma handleEvent_new_directory_witness :
  handleEvent Scenario.fw0 (mkEvent "/src" Create) Scenario.w0 =
    (addWatch Scenario.fw0 "/src",
     emit (emit Scenario.w0 (EvLog (LogInfo ("New catalog: " +:+ Filepath.Base "/src"))))
          (EvLog (LogFileCreated (Filepath.Base "/src")))).
Proof.
  apply (handleEvent_new_directory Scenario.fw0 (mkEvent "/src" Create) Scenario.w0);
    reflexivity.
Defined.

Lemma prefix_app sub : forall s t,
  String.prefix sub s = true -> String.prefix sub (s +:+ t) = true.
Proof.
  induction sub as [|c sub IH]; intros s t H; [by destruct (s +:+ t)|].
  destruct s as [|d s]; [done|].
  change (String d s +:+ t) with (String d (s +:+ t)). cbn [String.prefix] in *.
  destruct (ascii_dec c d); [by apply IH|done].
Qed.

Lemma Contains_app s : forall t sub,
  Strs.Contains s sub = true -> Strs.Contains (s +:+ t) sub = true.
Proof.
  induction s as [|c s IH]; intros t sub H.
  - cbn [Strs.Contains] in H. destruct (String.prefix sub "") eqn:Hp; [|done].
    destruct sub; [|done]. by destruct t.
  - change (String c s +:+ t) with (String c (s +:+ t)). cbn [Strs.Contains] in *.
    destruct (String.prefix sub (String c s)) eqn:Hp.
    + pose proof (prefix_app _ (String c s) t Hp) as Hp'.
      change (String c s +:+ t) with (String c (s +:+ t)) in Hp'. by rewrite Hp'.
    + destruct (String.prefix sub (String c (s +:+ t))); [done|]. by apply IH.
Qed.

(** X13. Ignore patterns are looked for in the whole path, not only in the
    base name: a path is ignored as soon as some pattern occurs anywhere in a
    prefix of it, so the default pattern .git also ignores everything under
    a directory named .github. *)
Theorem shouldIgnore_substring fw pattern root rest :
  In pattern (IgnorePatterns (config fw)) ->
  Strs.Contains root pattern = true ->
  shouldIgnore fw (root +:+ rest) = true.
Proof.
  intros Hin Hc. unfold shouldIgnore. apply ignoredBy_iff.
  exists pattern. split; [done|]. right. by apply Contains_app.
Qed.

Lemma shouldIgnore_substring_witness :
  shouldIgnore Scenario.fw0 ("/src/.github" +:+ "/ci.yml") = true.
Proof.
  apply (shouldIgnore_substring Scenario.fw0 ".git" "/src/.github" "/ci.yml").
  - cbn. tauto.
  - reflexivity.
Defined.

(** X14. A source directory whose own path contains an ignore pattern: no
    event on a path that starts with it is ever queued or recorded, whatever
    the events are, so the watcher backs up nothing. *)
Theorem watchLoop_ignored_root fw pattern msgs w :
  In pattern (IgnorePatterns (config fw)) ->
  Strs.Contains (SourceDir (config fw)) pattern = true ->
  (forall event, In (MsgEvent event) msgs ->
     exists rest, Name event = SourceDir (config fw) +:+ rest) ->
  let fw' := fst (watchLoop fw msgs w) in
  backupQueue fw' = backupQueue fw /\ lastBackup fw' = lastBackup fw.
Proof.
  intros Hin Hc. revert fw w Hin Hc.
  induction msgs as [|[event|err] msgs IH]; intros fw w Hin Hc Hall; cbn zeta;
    cbn [watchLoop]; [done| |].
  - destruct (Hall event ltac:(by left)) as [rest Hname].
    assert (shouldIgnore fw (Name event) = true) as Hi.
    { rewrite Hname. unfold shouldIgnore. apply ignoredBy_iff.
      exists pattern. split; [done|]. right. by apply Contains_app. }
    destruct (handleEvent_step fw event w) as (fw0 & Hfw0 & Hstep).
    destruct (handleEvent_world fw event w) as (_ & _ & _ & Hcfg & _).
    destruct (handleEvent fw event w) as [fw1 w1]. cbn [fst snd] in *.
    destruct Hstep as [->|(_ & _ & _ & Hni & _)]; [|congruence].
    destruct (IH fw0 w1) as [H1 H2].
    + by rewrite Hcfg.
    + by rewrite Hcfg.
    + intros e He. rewrite Hcfg. apply Hall. by right.
    + rewrite H1, H2. by destruct Hfw0 as [->| ->].
  - apply IH; [done|done|]. intros e He. apply Hall. by right.
Qed.

Lemma watchLoop_ignored_root_witness :
  let fw := ScenarioMore.fwGithub in
  let fw' := fst (watchLoop fw [MsgEvent (mkEvent "/work/.github/ci.yml" Write)] Scenario.w0) in
  backupQueue fw' = backupQueue fw /\ lastBackup fw' = lastBackup fw.
Proof.
  apply (watchLoop_ignored_root ScenarioMore.fwGithub ".git"
           [MsgEvent (mkEvent "/work/.github/ci.yml" Write)] Scenario.w0).
  - cbn. tauto.
  - reflexivity.
  - intros event [H|[]]. injection H as <-. by exists "/ci.yml"%string.
Defined.

(** X15. An empty ignore pattern ignores every path: strings.Contains finds
    the empty string in any path. *)
Theorem shouldIgnore_empty_pattern fw path :
  In ""%string (IgnorePatterns (config fw)) -> shouldIgnore fw path = true.
Proof.
  intros Hin. unfold shouldIgnore. apply ignoredBy_iff.
  exists ""%string. split; [done|]. right. by destruct path.
Qed.

Lemma shouldIgnore_empty_pattern_witness :
  shouldIgnore ScenarioMore.fwEmptyPattern "/src/a.txt" = true.
Proof.
  apply (shouldIgnore_empty_pattern ScenarioMore.fwEmptyPattern "/src/a.txt").
  cbn. tauto.
Defined.

Lemma enqueueBackup_events fw path ty w :
  exists line, events (snd (enqueueBackup fw path ty w)) = events w ++ [EvLog line].
Proof.
  unfold enqueueBackup.
  destruct (lastBackup fw !! path) as [lastTime|]; cbn [Now].
  - destruct (GoTime.Sub _ lastTime <? MinInterval (config fw)); [by eexists|].
    destruct (length (backupQueue fw) <? queueCap fw)%nat; by eexists.
  - destruct (length (backupQueue fw) <? queueCap fw)%nat; by eexists.
Qed.

Lemma dispatch_events fw name ty w :
  exists lines, events (snd (dispatch fw name ty w)) = events w ++ map EvLog lines.
Proof.
  unfold dispatch. destruct (isDir w name); [exists []; by rewrite app_nil_r|].
  destruct (shouldIgnore fw name); [exists []; by rewrite app_nil_r|].
  destruct (enqueueBackup_events fw name ty w) as [line H]. by exists [line].
Qed.

(** The handler adds log lines to the history and nothing else. *)
Lemma handleEvent_events fw event w :
  exists lines, events (snd (handleEvent fw event w)) = events w ++ map EvLog lines.
Proof.
  unfold handleEvent.
  destruct (has (Op event) Create).
  - destruct (isDir w (Name event)).
    + destruct (dispatch_events (addWatch fw (Name event)) (Name event) "CREATe"
                  (emit (emit w (EvLog (LogInfo ("New catalog: " +:+ Filepath.Base (Name event)))))
                        (EvLog (LogFileCreated (Filepath.Base (Name event)))))) as [l H].
      eexists (_ :: _ :: l). rewrite H. cbn [emit events map]. by rewrite <- !app_assoc.
    + destruct (dispatch_events fw (Name event) "CREATe"
                  (emit w (EvLog (LogFileCreated (Filepath.Base (Name event)))))) as [l H].
      eexists (_ :: l). rewrite H. cbn [emit events map]. by rewrite <- !app_assoc.
  - destruct (has (Op event) Write).
    + destruct (dispatch_events fw (Name event) "WRITE"
                  (emit w (EvLog (LogFileModified (Filepath.Base (Name event)))))) as [l H].
      eexists (_ :: l). rewrite H. cbn [emit events map]. by rewrite <- !app_assoc.
    + destruct (has (Op event) Remove); [by eexists [_]|].
      destruct (has (Op event) Rename); [by eexists [_]|].
      destruct (has (Op event) Chmod); exists []; by rewrite app_nil_r.
Qed.

(** X29. The event loop only looks at the file system: whatever messages it
    handles, the files, the injected failures, the configuration and the
    capacity of the queue are as they were, and the history has gained log
    lines only, so the loop itself copies and deletes nothing. *)
Theorem watchLoop_readonly fw msgs w :
  let r := watchLoop fw msgs w in
  fs (snd r) = fs w /\ fault (snd r) = fault w /\ clock (snd r) = clock w /\
  config (fst r) = config fw /\ queueCap (fst r) = queueCap fw /\
  (exists lines, events (snd r) = events w ++ map EvLog lines).
Proof.
  cbn zeta. revert fw w.
  induction msgs as [|[event|err] msgs IH]; intros fw w; cbn [watchLoop].
  - do 5 (split; [done|]). exists []. by rewrite app_nil_r.
  - destruct (handleEvent_world fw event w) as (H1 & H2 & H3 & H4 & H5).
    assert (exists lines, events (snd (handleEvent fw event w)) = events w ++ map EvLog lines)
      as [l1 Hl1].
    { apply handleEvent_events. }
    destruct (handleEvent fw event w) as [fw1 w1]. cbn [fst snd] in *.
    destruct (IH fw1 w1) as (G1 & G2 & G3 & G4 & G5 & l2 & Hl2).
    rewrite G1, G2, G3, G4, G5, H1, H2, H3, H4, H5. do 5 (split; [done|]).
    exists (l1 ++ l2). by rewrite Hl2, Hl1, map_app, app_assoc.
  - apply IH.
Qed.

End WatcherMore.

(** ** watcher/backup.go: version names and the cleaning pattern *)

Module MatchMore.
Import Filepath Relations.

Lemma isMagic_false c : isMagic c = false ->
  Ascii.eqb c "*" = false /\ Ascii.eqb c "?" = false /\ Ascii.eqb c "[" = false /\
  Ascii.eqb c "\" = false.
Proof. unfold isMagic. intros H. repeat (apply orb_false_elim in H as [H ?]). done. Qed.

Lemma hasMeta_cons c s : hasMeta (String c s) = isMagic c || hasMeta s.
Proof. done. Qed.

Lemma matchChunkLoop_literal lit : forall fuel s failed,
  hasMeta lit = false -> (String.length lit < fuel)%nat ->
  matchChunkLoop fuel lit s failed =
    inr (if failed then None else stripPrefix lit s).
Proof.
  induction lit as [|c lit IH]; intros fuel s failed Hm Hfuel.
  - destruct fuel; [cbn in Hfuel; lia|]. cbn. by destruct failed.
  - destruct fuel as [|fuel]; [cbn in Hfuel; lia|].
    rewrite hasMeta_cons in Hm. apply orb_false_elim in Hm as [Hc Hm].
    destruct (isMagic_false c Hc) as (_ & Hq & Hb & He).
    cbn [matchChunkLoop]. rewrite Hb, Hq, He.
    cbn [String.length] in Hfuel.
    destruct failed; cbn [negb andb].
    + by rewrite IH by (done || lia).
    + destruct s as [|b s]; cbn [String.eqb stripPrefix].
      * by rewrite IH by (done || lia).
      * rewrite IH by (done || lia). by destruct (Ascii.eqb c b).
Qed.

Lemma matchChunk_literal lit s :
  hasMeta lit = false -> matchChunk lit s = inr (stripPrefix lit s).
Proof. intros Hm. unfold matchChunk. rewrite matchChunkLoop_literal by (done || lia). done. Qed.

Lemma stripPrefix_app lit r : stripPrefix lit (lit +:+ r) = Some r.
Proof.
  induction lit as [|c lit IH]; [done|].
  change (String c lit +:+ r) with (String c (lit +:+ r)). cbn [stripPrefix].
  by rewrite Ascii.eqb_refl.
Qed.

Lemma stripPrefix_length lit s t : stripPrefix lit s = Some t ->
  String.length s = (String.length lit + String.length t)%nat.
Proof.
  revert s. induction lit as [|c lit IH]; intros s H; cbn in H; [by simplify_eq|].
  destruct s as [|b s]; [done|]. destruct (Ascii.eqb c b); [|done].
  cbn. by rewrite (IH _ H).
Qed.

Lemma scanLiteral_cons c p :
  isMagic c = false ->
  scanLiteral (String c p) false =
    let '(chunk, rest) := scanLiteral p false in (String c chunk, rest).
Proof.
  intros H.
  destruct c as [b0 b1 b2 b3 b4 b5 b6 b7].
  destruct b0, b1, b2, b3, b4, b5, b6, b7; try discriminate H; reflexivity.
Qed.

Lemma dropStars_cons c p :
  isMagic c = false -> dropStars (String c p) = (false, String c p).
Proof.
  intros H.
  destruct c as [b0 b1 b2 b3 b4 b5 b6 b7].
  destruct b0, b1, b2, b3, b4, b5, b6, b7; try discriminate H; reflexivity.
Qed.

Lemma scanLiteral_literal lit : forall rest,
  hasMeta lit = false ->
  scanLiteral (lit +:+ String "*" rest) false = (lit, String "*" rest).
Proof.
  induction lit as [|c lit IH]; intros rest Hm; [done|].
  rewrite hasMeta_cons in Hm. apply orb_false_elim in Hm as [Hc Hm].
  change (String c lit +:+ String "*" rest) with (String c (lit +:+ String "*" rest)).
  rewrite scanLiteral_cons by done. by rewrite IH.
Qed.

Lemma scanLiteral_whole lit :
  hasMeta lit = false -> scanLiteral lit false = (lit, EmptyString).
Proof.
  induction lit as [|c lit IH]; intros Hm; [done|].
  rewrite hasMeta_cons in Hm. apply orb_false_elim in Hm as [Hc Hm].
  rewrite scanLiteral_cons by done. by rewrite IH.
Qed.

Lemma dropStars_literal lit :
  hasMeta lit = false -> dropStars lit = (false, lit).
Proof.
  destruct lit as [|c lit]; [done|]. rewrite hasMeta_cons. intros Hm.
  apply orb_false_elim in Hm as [Hc Hm]. by apply dropStars_cons.
Qed.

Lemma Contains_slash_cons c s :
  Strs.Contains (String c s) "/" = Ascii.eqb c "/" || Strs.Contains s "/".
Proof.
  cbn [Strs.Contains String.prefix].
  destruct (ascii_dec "/" c) as [<-|Hne].
  - by destruct s.
  - destruct (Ascii.eqb_spec c "/"); [congruence|done].
Qed.

Lemma append_nil_r (s : string) : s +:+ "" = s.
Proof.
  induction s as [|c s IH]; [done|].
  change (String c s +:+ "") with (String c (s +:+ "")). by rewrite IH.
Qed.

(** Under a star, the scan finds the place where the rest of the name is
    the chunk, whatever separator-free text comes before. *)
Lemma starScan_suffix lit : forall mid c,
  hasMeta lit = false -> lit <> EmptyString ->
  Strs.Contains (String c mid) "/" = false ->
  starScan lit true (String c (mid +:+ lit)) = inr (Some EmptyString).
Proof.
  induction mid as [|d mid IH]; intros c Hm Hne Hns;
    rewrite Contains_slash_cons in Hns; apply orb_false_elim in Hns as [Hc Hns];
    cbn [starScan]; rewrite Hc, matchChunk_literal by done.
  - change (EmptyString +:+ lit) with lit.
    rewrite <- (append_nil_r lit) at 2. by rewrite stripPrefix_app.
  - change (String d mid +:+ lit) with (String d (mid +:+ lit)).
    destruct (stripPrefix lit (String d (mid +:+ lit))) as [t|] eqn:Hs.
    + destruct t as [|x t]; [done|]. cbn [andb negb String.eqb]. by apply IH.
    + by apply IH.
Qed.

Lemma Contains_slash_app a b :
  Strs.Contains (a +:+ b) "/" = Strs.Contains a "/" || Strs.Contains b "/".
Proof.
  induction a as [|c a IH]; [done|].
  change (String c a +:+ b) with (String c (a +:+ b)).
  by rewrite !Contains_slash_cons, IH, orb_assoc.
Qed.

Lemma matchLoop_end fuel : matchLoop (Datatypes.S fuel) "" "" = inr true.
Proof. done. Qed.

(** A pattern [lit1*lit2] without other metacharacters matches every name
    that starts with [lit1], ends with [lit2] and has no separator after
    [lit1]. *)
Lemma Match_literal_star_literal lit1 lit2 mid :
  hasMeta lit1 = false -> hasMeta lit2 = false -> lit1 <> EmptyString ->
  Strs.Contains (mid +:+ lit2) "/" = false ->
  Match (lit1 +:+ String "*" lit2) (lit1 +:+ mid +:+ lit2) = inr true.
Proof.
  intros Hm1 Hm2 Hne Hns. unfold Match.
  destruct lit1 as [|c lit1]; [done|].
  change (String c lit1 +:+ String "*" lit2) with (String c (lit1 +:+ String "*" lit2)).
  cbn [String.length].
  assert (exists f, String.length (lit1 +:+ String "*" lit2) = Datatypes.S f) as [f ->].
  { clear. induction lit1 as [|d l IH]; [by eexists|]. destruct IH as [f Hf].
    change (String d l +:+ String "*" lit2) with (String d (l +:+ String "*" lit2)).
    cbn [String.length]. rewrite Hf. by eexists. }
  change (String c (lit1 +:+ String "*" lit2)) with (String c lit1 +:+ String "*" lit2).
  set (l1 := String c lit1) in *.
  (* first chunk: the literal before the star *)
  assert (scanChunk (l1 +:+ String "*" lit2) = (false, l1, String "*" lit2)) as Hscan1.
  { unfold scanChunk. subst l1.
    change (String c lit1 +:+ String "*" lit2) with (String c (lit1 +:+ String "*" lit2)).
    rewrite hasMeta_cons in Hm1. apply orb_false_elim in Hm1 as [Hc Hm1'].
    rewrite dropStars_cons by done.
    change (String c (lit1 +:+ String "*" lit2)) with (String c lit1 +:+ String "*" lit2).
    rewrite scanLiteral_literal; [done|]. by rewrite hasMeta_cons, Hc. }
  cbn [matchLoop].
  assert (String.eqb (l1 +:+ String "*" lit2) "" = false) as -> by done.
  rewrite Hscan1. cbn [andb]. rewrite matchChunk_literal, stripPrefix_app by done.
  cbn [String.eqb negb orb]. rewrite orb_true_r.
  (* second chunk: the star and the literal after it *)
  assert (scanChunk (String "*" lit2) = (true, lit2, EmptyString)) as Hscan2.
  { unfold scanChunk. cbn [dropStars]. rewrite dropStars_literal by done. cbn [snd].
    by rewrite scanLiteral_whole. }
  rewrite Hscan2. cbn [andb].
  rewrite Contains_slash_app in Hns. apply orb_false_elim in Hns as [Hmid Hl2].
  destruct lit2 as [|d lit2].
  { cbn [String.eqb]. by rewrite append_nil_r, Hmid. }
  set (l2 := String d lit2) in *.
  assert (String.eqb l2 "" = false) as -> by done.
  rewrite matchChunk_literal by done. cbn [String.eqb negb orb].
  assert (starScan l2 true (mid +:+ l2) = inr (Some EmptyString) \/ mid = EmptyString)
    as Hstar.
  { destruct mid as [|x mid]; [by right|]. left.
    change (String x mid +:+ l2) with (String x (mid +:+ l2)).
    by apply starScan_suffix. }
  destruct (stripPrefix l2 (mid +:+ l2)) as [t|] eqn:Hs.
  - destruct t as [|x t]; cbn [String.eqb orb]; [done|].
    destruct Hstar as [->| ->]; [done|].
    change (EmptyString +:+ l2) with l2 in Hs.
    rewrite <- (append_nil_r l2) in Hs at 2. rewrite stripPrefix_app in Hs. done.
  - destruct Hstar as [->| ->]; [done|].
    change (EmptyString +:+ l2) with l2 in Hs.
    rewrite <- (append_nil_r l2) in Hs at 2. rewrite stripPrefix_app in Hs. done.
Qed.

Lemma hasMeta_app a b : hasMeta (a +:+ b) = hasMeta a || hasMeta b.
Proof.
  induction a as [|c a IH]; [done|].
  change (String c a +:+ b) with (String c (a +:+ b)).
  by rewrite !hasMeta_cons, IH, orb_assoc.
Qed.

Lemma digitChar_not_slash v : Ascii.eqb (GoTime.digitChar (v mod 10)) "/" = false.
Proof.
  assert (0 <= v mod 10 < 10) as H by (apply Z.mod_pos_bound; lia).
  revert H. generalize (v mod 10). intros d H.
  assert (d = 0 \/ d = 1 \/ d = 2 \/ d = 3 \/ d = 4 \/ d = 5 \/ d = 6 \/ d = 7 \/ d = 8 \/ d = 9)
    as Hd by lia.
  repeat (destruct Hd as [->|Hd]); try subst d; reflexivity.
Qed.

Lemma digitsMSD_no_slash w u r :
  Strs.Contains (GoTime.digitsMSD w u +:+ r) "/" = Strs.Contains r "/".
Proof.
  induction w as [|w IH]; [done|]. cbn [GoTime.digitsMSD].
  change (String ?c ?s +:+ r) with (String c (s +:+ r)).
  by rewrite Contains_slash_cons, digitChar_not_slash, IH.
Qed.

Lemma appendInt_no_slash x w r :
  Strs.Contains (GoTime.appendInt x w +:+ r) "/" = Strs.Contains r "/".
Proof.
  unfold GoTime.appendInt. rewrite TimeFacts.append_assoc.
  destruct (x <? 0).
  - change ("-" +:+ ?s) with (String "-" s). rewrite Contains_slash_cons.
    cbn [Ascii.eqb]. by rewrite digitsMSD_no_slash.
  - change ("" +:+ ?s) with s. by rewrite digitsMSD_no_slash.
Qed.

(** The formatted time never contains a separator. *)
Lemma Format_no_slash t r :
  Strs.Contains (GoTime.Format_20060102_150405_000000 t +:+ r) "/" = Strs.Contains r "/".
Proof.
  unfold GoTime.Format_20060102_150405_000000.
  destruct (GoTime.Date t) as [[y m] d]. destruct (GoTime.Clock t) as [[hh mm] ss].
  rewrite !TimeFacts.append_assoc, !appendInt_no_slash.
  change ("_" +:+ ?s) with (String "_" s). rewrite Contains_slash_cons. cbn [Ascii.eqb orb].
  rewrite !appendInt_no_slash.
  change ("." +:+ ?s) with (String "." s). rewrite Contains_slash_cons. cbn [Ascii.eqb orb].
  by rewrite digitsMSD_no_slash.
Qed.

Lemma splitSlash_no_slash s :
  Forall (fun e => Strs.Contains e "/" = false) (Strs.splitSlash s).
Proof.
  induction s as [|c s IH]; cbn [Strs.splitSlash]; [by repeat constructor|].
  destruct (Ascii.eqb c "/") eqn:Hc; [by constructor|].
  destruct (Strs.splitSlash s) as [|x xs].
  { constructor; [|constructor]. by rewrite Contains_slash_cons, Hc. }
  apply Forall_cons in IH as [Hx Hxs].
  constructor; [|done]. by rewrite Contains_slash_cons, Hc, Hx.
Qed.

Lemma fromLastDot_no_slash s e :
  Strs.Contains s "/" = false -> fromLastDot s = Some e -> Strs.Contains e "/" = false.
Proof.
  revert e. induction s as [|c s IH]; intros e Hs H; [done|].
  rewrite Contains_slash_cons in Hs. apply orb_false_elim in Hs as [Hc Hs].
  cbn [fromLastDot] in H. destruct (fromLastDot s) as [e'|].
  - simplify_eq. by apply IH.
  - destruct (Ascii.eqb c "."); [|done]. simplify_eq.
    by rewrite Contains_slash_cons, Hc, Hs.
Qed.

(** An extension never contains a separator. *)
Lemma Ext_no_slash path : Strs.Contains (Ext path) "/" = false.
Proof.
  unfold Ext, Split.
  pose proof (splitSlash_no_slash path) as Hall.
  destruct (rev (Strs.splitSlash path)) as [|file rest] eqn:Hrev; cbn [snd].
  - apply (f_equal (@rev string)) in Hrev. rewrite rev_involutive in Hrev.
    destruct path; cbn in Hrev; [done|]. destruct (Ascii.eqb a "/"); [done|].
    by destruct (Strs.splitSlash path).
  - assert (Strs.Contains file "/" = false) as Hfile.
    { rewrite Forall_forall in Hall. apply Hall.
      apply list_elem_of_In, in_rev. rewrite Hrev. by left. }
    destruct (fromLastDot file) as [e|] eqn:He; [|done].
    by apply (fromLastDot_no_slash file).
Qed.

(** X16. For a file whose base name and extension hold none of the
    characters *, ?, [ and backslash, the name CreateBackup gives a version,
    at any time, matches the pattern <name>_*<ext> that cleanOldVersions
    builds for the same file: the new version is among the versions the
    cleaning counts. *)
Theorem backupName_matches_cleanup_pattern relPath t :
  hasMeta (Backup.nameWithoutExtOf relPath) = false ->
  hasMeta (Backup.extOf relPath) = false ->
  Match (Backup.nameWithoutExtOf relPath +:+ "_*" +:+ Backup.extOf relPath)
        (Backup.backupNameOf relPath t) = inr true.
Proof.
  intros Hb He. unfold Backup.backupNameOf.
  set (base := Backup.nameWithoutExtOf relPath) in *.
  set (ext := Backup.extOf relPath) in *.
  change ("_*" +:+ ext) with ("_" +:+ String "*" ext).
  rewrite <- !TimeFacts.append_assoc.
  rewrite (TimeFacts.append_assoc (base +:+ "_")).
  apply Match_literal_star_literal.
  - by rewrite hasMeta_app, Hb.
  - done.
  - by destruct base.
  - rewrite Format_no_slash. apply Ext_no_slash.
Qed.

Lemma backupName_matches_cleanup_pattern_witness :
  Match (Backup.nameWithoutExtOf "a.txt" +:+ "_*" +:+ Backup.extOf "a.txt")
        (Backup.backupNameOf "a.txt" Scenario.tA) = inr true.
Proof.
  apply (backupName_matches_cleanup_pattern "a.txt" Scenario.tA); reflexivity.
Defined.

End MatchMore.

(** ** watcher/backup.go: creating and cleaning versions *)

Module BackupMore.
Import OS Utils Backup BackupFacts UtilsFacts CopyMore Relations.

(** The removal loop only deletes. *)
Lemma removeLoop_shrinks sorted todo : forall i w q,
  fs w !! q = None -> fs (snd (removeLoop sorted todo i w)) !! q = None.
Proof.
  induction todo as [|todo IH]; intros i w q Hq; cbn [removeLoop]; [done|].
  destruct (sorted !! i) as [path|]; [|done].
  destruct (Remove w path) as [err|w1] eqn:Hrm; [done|].
  apply Remove_inr in Hrm as (_ & _ & Hfs & _).
  apply IH. cbn [emit fs]. rewrite Hfs.
  destruct (decide (path = q)) as [->|Hne]; [apply lookup_delete_eq|by rewrite lookup_delete_ne].
Qed.

(** A removal loop asked to delete more entries than there are ends in an
    error or in a panic, and when it panics every entry from [i] on is gone. *)
Lemma removeLoop_overrun sorted todo : forall i w,
  (i <= length sorted)%nat -> (length sorted < todo + i)%nat ->
  let r := removeLoop sorted todo i w in
  (exists err, fst r = Returned (Some err)) \/
  (fst r = Panicked "index out of range" /\
   (forall q, q ∈ drop i sorted -> fs (snd r) !! q = None)).
Proof.
  induction todo as [|todo IH]; intros i w Hi Hover; cbn zeta; [lia|].
  cbn [removeLoop]. destruct (sorted !! i) as [path|] eqn:Hlook.
  - destruct (Remove w path) as [err|w1] eqn:Hrm; [left; by eexists|].
    apply Remove_inr in Hrm as (_ & _ & Hfs & _).
    apply lookup_lt_Some in Hlook as Hlt.
    set (w2 := emit w1 _).
    destruct (IH (Datatypes.S i) w2 ltac:(lia) ltac:(lia)) as [Herr|[Hp Hgone]]; [by left|].
    right. split; [done|]. intros q Hq. rewrite (drop_S _ _ _ Hlook) in Hq.
    destruct (decide (q ∈ drop (Datatypes.S i) sorted)) as [Hin|Hout]; [by apply Hgone|].
    apply elem_of_cons in Hq as [->|Hq]; [|done].
    apply removeLoop_shrinks. subst w2. cbn [emit fs]. rewrite Hfs. apply lookup_delete_eq.
  - right. split; [done|]. intros q Hq.
    apply lookup_ge_None in Hlook. rewrite drop_ge in Hq by lia. by apply elem_of_nil in Hq.
Qed.


Lemma removeLoop_in_range sorted todo : forall i w msg,
  (todo + i <= length sorted)%nat -> fst (removeLoop sorted todo i w) <> Panicked msg.
Proof.
  induction todo as [|todo IH]; intros i w msg Hle; cbn [removeLoop]; [done|].
  destruct (sorted !! i) as [path|] eqn:Hlook.
  - destruct (Remove w path); [done|]. apply IH. lia.
  - apply lookup_ge_None in Hlook. lia.
Qed.

(** X17. With a cap of zero or less the cleaning keeps no version: given
    the matches the glob finds, unless a deletion fails (it then returns the
    error), every match is deleted, the version just written included; with
    a cap of zero it then returns nil, with a negative cap it indexes past
    the end of the matches and panics. *)
Theorem cleanOldVersions_nonpositive_cap bm dir baseName ext w matches :
  maxVersions bm <= 0 ->
  inInt64 (Z.of_nat (length matches) - maxVersions bm) ->
  Glob w (Filepath.Join dir (baseName +:+ "_*" +:+ ext)) = inr matches ->
  let r := cleanOldVersions bm dir baseName ext w in
  (exists err, fst r = Returned (Some err)) \/
  ((forall q, q ∈ matches -> fs (snd r) !! q = None) /\
   fst r = if maxVersions bm =? 0 then Returned None else Panicked "index out of range").
Proof.
  intros Hcap Hint Hglob. cbn zeta. unfold cleanOldVersions. rewrite Hglob.
  destruct (Z.leb_spec (Z.of_nat (length matches)) (maxVersions bm)) as [Hle|Hgt].
  - right. assert (maxVersions bm = 0) as -> by lia.
    destruct matches; [|cbn in Hle; lia]. split; [|done].
    intros q Hq. by apply elem_of_nil in Hq.
  - rewrite length_sortStrings, (wrap64_id _ Hint).
    destruct (Z.eqb_spec (maxVersions bm) 0) as [Hz|Hnz].
    + rewrite Hz, Z.sub_0_r, Nat2Z.id.
      destruct (removeLoop (sortStrings matches) (length matches) O w) as [[[err|]|msg] w'] eqn:Hloop.
      * left. by eexists.
      * right. split; [|done]. apply removeLoop_success in Hloop as (_ & Hgone & _).
        intros q Hq. apply Hgone. rewrite drop_0, <- (length_sortStrings matches), firstn_all.
        by rewrite sortStrings_perm.
      * exfalso. eapply (removeLoop_in_range (sortStrings matches) (length matches) O w msg).
        -- rewrite length_sortStrings. lia.
        -- by rewrite Hloop.
    + destruct (removeLoop_overrun (sortStrings matches)
                  (Z.to_nat (Z.of_nat (length matches) - maxVersions bm)) O w)
        as [Herr|[Hp Hgone]].
      * lia.
      * rewrite length_sortStrings. lia.
      * by left.
      * right. split; [|done]. intros q Hq. apply Hgone. rewrite drop_0.
        by rewrite sortStrings_perm.
Qed.

Lemma cleanOldVersions_nonpositive_cap_witness :
  let r := cleanOldVersions ScenarioMore.bm0 "/bk/a.txt_versions" "a" ".txt"
             ScenarioMore.wStore in
  (exists err, fst r = Returned (Some err)) \/
  ((forall q, q ∈ ScenarioMore.storedVersions -> fs (snd r) !! q = None) /\
   fst r = if maxVersions ScenarioMore.bm0 =? 0 then Returned None
           else Panicked "index out of range").
Proof.
  apply (cleanOldVersions_nonpositive_cap ScenarioMore.bm0 "/bk/a.txt_versions" "a" ".txt"
           ScenarioMore.wStore ScenarioMore.storedVersions).
  - cbn. lia.
  - int64_range.
  - vm_compute. reflexivity.
Defined.

Lemma Mkdir_inr w path perm w' :
  Mkdir w path perm = inr w' ->
  fs w !! path = None /\
  w' = setFs w (<[path := Dir (Z.land perm (Z.lnot (umask w)))]> (fs w)).
Proof.
  unfold Mkdir. destruct (fault w SysMkdir path); [done|].
  destruct (fs w !! path); [done|].
  destruct (if String.eqb (parent path) "" then _ else _); [done|].
  intros. by simplify_eq.
Qed.

Lemma mkdirAllRev_step w path perm (r : option error * World) :
  keeps w (snd r) ->
  keeps w (snd (let '(err0, w1) := r in
                match err0 with
                | Some e0 => (Some e0, w1)
                | None =>
                    match Mkdir w1 path perm with
                    | inr w2 => (None, w2)
                    | inl e0 =>
                        match Lstat w1 path with
                        | inr (Dir _) => (None, w1)
                        | _ => (Some e0, w1)
                        end
                    end
                end)).
Proof.
  destruct r as [[e0|] w1]; intros (H1 & H2 & H3 & H4 & H5); cbn [snd] in *; [done|].
  destruct (Mkdir w1 path perm) as [err'|w2] eqn:Hmk.
  - by destruct (Lstat w1 path) as [|[|]].
  - apply Mkdir_inr in Hmk as [Hfree ->]. unfold keeps. cbn [snd setFs fs fault events ticks clock].
    do 4 (split; [done|]).
    intros p Hp. rewrite lookup_insert_ne; [by apply H5|].
    intros ->. rewrite <- H5 in Hp by done. rewrite Hfree in Hp. by destruct Hp.
Qed.

Lemma mkdirAllRev_keeps rooted perm revElems : forall w,
  keeps w (snd (mkdirAllRev rooted revElems perm w)).
Proof.
  induction revElems as [|e parentElems IH]; intros w; cbn [mkdirAllRev];
    set (path := render rooted (rev _)).
  - destruct (Stat w path) as [err|n]; [|by destruct (IsDir n)].
    by apply (mkdirAllRev_step w path perm (None, w)).
  - destruct (Stat w path) as [err|n]; [|by destruct (IsDir n)].
    destruct (rooted || negb (bool_decide (parentElems = []))).
    + apply mkdirAllRev_step, IH.
    + by apply (mkdirAllRev_step w path perm (None, w)).
Qed.

Lemma MkdirAll_keeps path perm w :
  keeps w (snd (MkdirAll path perm w)).
Proof. apply mkdirAllRev_keeps. Qed.

Lemma readDirNames_ext w1 w2 dir : fs w1 = fs w2 -> readDirNames w1 dir = readDirNames w2 dir.
Proof. intros H. unfold readDirNames. by rewrite H. Qed.

Lemma Stat_ext w1 w2 p : sameFiles w1 w2 -> Stat w1 p = Stat w2 p.
Proof. intros [H1 H2]. unfold Stat. by rewrite H1, H2. Qed.

Lemma globDir_ext w1 w2 dir pattern acc :
  sameFiles w1 w2 -> globDir w1 dir pattern acc = globDir w2 dir pattern acc.
Proof.
  intros H. unfold globDir. rewrite (Stat_ext _ _ _ H).
  destruct H as [H _]. by rewrite (readDirNames_ext _ _ _ H).
Qed.

Lemma globEach_ext w1 w2 pattern dirs : forall acc,
  sameFiles w1 w2 -> globEach w1 dirs pattern acc = globEach w2 dirs pattern acc.
Proof.
  induction dirs as [|d dirs IH]; intros acc H; cbn [globEach]; [done|].
  rewrite (globDir_ext _ _ _ _ _ H). destruct (globDir w2 d pattern acc); [done|]. by apply IH.
Qed.

(** Glob looks at the files and the injected failures only. *)
Lemma Glob_ext w1 w2 pattern : sameFiles w1 w2 -> Glob w1 pattern = Glob w2 pattern.
Proof.
  intros H. unfold Glob. generalize (Datatypes.S (String.length pattern)) as fuel.
  intros fuel. revert pattern. induction fuel as [|fuel IH]; intros pattern; cbn [globFuel]; [done|].
  destruct (Filepath.Match pattern ""); [done|].
  unfold Lstat. rewrite (Stat_ext _ _ _ H).
  destruct (negb (Filepath.hasMeta pattern)); [done|].
  destruct (Filepath.Split pattern) as [dir0 file].
  rewrite (globDir_ext _ _ _ _ _ H).
  destruct (negb (Filepath.hasMeta (cleanGlobPath dir0))); [done|].
  destruct (String.eqb (cleanGlobPath dir0) pattern); [done|].
  rewrite IH. destruct (globFuel fuel w2 (cleanGlobPath dir0)); [done|]. by apply globEach_ext.
Qed.

(** X18. A backup when nothing fails: for a source that is a regular file
    below the source directory, in a world with no injected failure where
    MkdirAll makes the version directory, the version path is another path
    than the source, lies in an existing directory and is no directory
    itself, and at most maxVersions matches are found, CreateBackup returns
    nil; the files are then those after MkdirAll plus the version, which has
    the bytes and the mode of the source, and the history gained one copy
    attempt and the backup-created line. *)
Theorem CreateBackup_writes_copy bm sourcePath sourceDir w relPath c m matches :
  let t := clock w (ticks w) in
  let dir := fileVersionDirOf bm relPath in
  let backupPath := backupPathOf bm relPath t in
  let w1 := snd (MkdirAll dir 493 (snd (Now w))) in
  let stored := <[backupPath := File c m]> (fs w1) in
  fs w !! sourcePath = Some (File c m) ->
  (forall call p, fault w call p = None) ->
  Filepath.Rel sourceDir sourcePath = inr relPath ->
  fst (MkdirAll dir 493 (snd (Now w))) = None ->
  sourcePath <> backupPath ->
  (parent backupPath = ""%string \/ exists dm, fs w1 !! parent backupPath = Some (Dir dm)) ->
  (forall dm, fs w1 !! backupPath <> Some (Dir dm)) ->
  Glob (setFs w1 stored)
       (Filepath.Join dir (nameWithoutExtOf relPath +:+ "_*" +:+ extOf relPath)) = inr matches ->
  Z.of_nat (length matches) <= maxVersions bm ->
  let r := CreateBackup bm sourcePath sourceDir w in
  fst r = Returned None /\
  fs (snd r) = stored /\
  events (snd r) = events w ++
    [EvCopyAttempt sourcePath backupPath;
     EvLog (LogBackupCreated (Filepath.Base sourcePath) (backupNameOf relPath t))].
Proof.
  intros t dir backupPath w1 stored Hsrc Hnf Hrel Hmk Hne Hpar Hnd Hglob Hcount.
  cbn zeta. unfold CreateBackup.
  assert (Stat w sourcePath = inr (File c m)) as -> by (unfold Stat; by rewrite Hnf, Hsrc).
  cbn [osIsNotExist]. rewrite Hrel.
  change (osIsNotExist None) with false. cbv iota.
  cbn [Now]. fold t. fold dir. cbn [Now snd] in w1, Hmk.
  destruct (MkdirAll_keeps dir 493
              (mkWorld (fs w) (fault w) (umask w) (clock w) (Datatypes.S (ticks w)) (events w)))
    as (Hf1 & He1 & _ & _ & Hk1).
  fold w1 in Hf1, He1, Hk1. cbn [fault events fs] in Hf1, He1, Hk1.
  rewrite (pair_fst_snd _ _ Hmk). fold w1.
  change (Filepath.Join dir (backupNameOf relPath t)) with backupPath.
  assert (fs w1 !! sourcePath = Some (File c m)) as Hsrc1 by (rewrite Hk1; by rewrite ?Hsrc).
  destruct (copyAttempt_copies sourcePath backupPath w1 c m Hne Hsrc1) as (w2 & Hatt & Hfs2 & Hev2 & Hf2);
    try done.
  { intros call. by rewrite Hf1. }
  { intros call. by rewrite Hf1. }
  destruct (SafeCopyFile_first_success sourcePath backupPath 3 w1 w2 ltac:(lia) ltac:(int64_range) Hatt)
    as (Hres & _ & _ & Hfin).
  rewrite Hres, Hfin.
  unfold cleanOldVersions.
  rewrite (Glob_ext _ (setFs w1 stored)), Hglob.
  2:{ split; [by cbn|cbn; done]. }
  apply Z.leb_le in Hcount. rewrite Hcount. cbn [fst snd emit fs events].
  split; [done|]. split; [done|]. by rewrite Hev2, He1, <- app_assoc.
Qed.

Lemma CreateBackup_writes_copy_witness :
  let bm := NewBackupManager "/bk" 3 in
  let w := Scenario.w0 in
  let t := clock w (ticks w) in
  let dir := fileVersionDirOf bm "a.txt" in
  let backupPath := backupPathOf bm "a.txt" t in
  let w1 := snd (MkdirAll dir 493 (snd (Now w))) in
  let stored := <[backupPath := File [Byte.x61] 420]> (fs w1) in
  let r := CreateBackup bm "/src/a.txt" "/src" w in
  fst r = Returned None /\
  fs (snd r) = stored /\
  events (snd r) = events w ++
    [EvCopyAttempt "/src/a.txt" backupPath;
     EvLog (LogBackupCreated (Filepath.Base "/src/a.txt") (backupNameOf "a.txt" t))].
Proof.
  apply (CreateBackup_writes_copy (NewBackupManager "/bk" 3) "/src/a.txt" "/src" Scenario.w0
           "a.txt" [Byte.x61] 420 ["/bk/a.txt_versions/a_20231114_221320.000000.txt"]%string).
  - reflexivity.
  - intros call p. reflexivity.
  - reflexivity.
  - vm_compute. reflexivity.
  - vm_compute. discriminate.
  - right. exists 493. vm_compute. reflexivity.
  - intros dm. vm_compute. discriminate.
  - vm_compute. reflexivity.
  - cbn. lia.
Defined.

(** Deleting distinct files that are there, with no deletion failing, goes
    through. *)
Lemma removeLoop_returns sorted todo : forall i w,
  (todo + i <= length sorted)%nat -> NoDup sorted ->
  (forall p, p ∈ drop i sorted ->
     fault w SysRemove p = None /\ exists c m, fs w !! p = Some (File c m)) ->
  exists w', removeLoop sorted todo i w = (Returned None, w').
Proof.
  induction todo as [|todo IH]; intros i w Hle Hnd Hall; cbn [removeLoop]; [by eexists|].
  destruct (sorted !! i) as [path|] eqn:Hlook; [|apply lookup_ge_None in Hlook; lia].
  destruct (Hall path) as (Hnf & c & m & Hfile).
  { rewrite (drop_S _ _ _ Hlook). by left. }
  unfold Remove. rewrite Hnf, Hfile.
  apply IH; [lia|done|].
  intros p Hp. cbn [emit setFs fault fs].
  destruct (Hall p) as (Hpf & c' & m' & Hp').
  { rewrite (drop_S _ _ _ Hlook). by right. }
  split; [done|]. exists c', m'. rewrite lookup_delete_ne; [done|].
  intros ->. apply list_elem_of_lookup in Hp as [j Hj].
  rewrite lookup_drop in Hj.
  pose proof (NoDup_lookup _ _ _ _ Hnd Hlook Hj). lia.
Qed.

(** X19. The cleaning when nothing fails: with a cap that is not negative
    and matches that are distinct regular files whose deletion does not
    fail, cleanOldVersions returns nil; it has deleted the [count -
    maxVersions] smallest paths in byte order, in ascending order with a log
    line each, has changed no other path, and leaves at most maxVersions
    matches, each at least as great as every deleted one. *)
Theorem cleanOldVersions_evicts_oldest bm dir baseName ext w matches :
  Glob w (Filepath.Join dir (baseName +:+ "_*" +:+ ext)) = inr matches ->
  0 <= maxVersions bm -> inInt64 (Z.of_nat (length matches) - maxVersions bm) ->
  NoDup matches ->
  (forall p, p ∈ matches ->
     fault w SysRemove p = None /\ exists c m, fs w !! p = Some (File c m)) ->
  let sorted := sortStrings matches in
  let k := Z.to_nat (Z.of_nat (length matches) - maxVersions bm) in
  exists w', cleanOldVersions bm dir baseName ext w = (Returned None, w') /\
    (forall q, q ∈ take k sorted -> fs w' !! q = None) /\
    (forall q, q ∉ take k sorted -> fs w' !! q = fs w !! q) /\
    events w' = events w ++
      flat_map (fun p => [EvRemove p;
                          EvLog (LogInfo ("	Removed old version: " +:+ Filepath.Base p))])
               (take k sorted) /\
    Z.of_nat (length (drop k sorted)) <= maxVersions bm /\
    (forall x y, x ∈ take k sorted -> y ∈ drop k sorted -> String.leb x y = true).
Proof.
  intros Hglob Hmax Hint Hnd Hall sorted k.
  assert (exists w', cleanOldVersions bm dir baseName ext w = (Returned None, w')) as [w' Hclean].
  { unfold cleanOldVersions. rewrite Hglob.
    destruct (Z.leb_spec (Z.of_nat (length matches)) (maxVersions bm)) as [Hle|Hgt]; [by eexists|].
    apply removeLoop_returns.
    - rewrite length_sortStrings, (wrap64_id _ Hint). lia.
    - by rewrite sortStrings_perm.
    - intros p Hp. apply Hall. rewrite drop_0 in Hp. by rewrite <- (sortStrings_perm matches). }
  exists w'. split; [done|].
  destruct (cleanOldVersions_keeps_newest bm dir baseName ext w w' matches Hglob Hint Hclean)
    as (He & Hgone & Hkeep & Hcount & Hord).
  fold sorted k in He, Hgone, Hkeep, Hcount, Hord.
  split; [done|]. split; [done|]. split; [done|]. split; [by apply Hcount|done].
Qed.

Lemma cleanOldVersions_evicts_oldest_witness :
  let matches := ScenarioMore.storedVersions in
  let bm := Scenario.bm1 in
  let w := ScenarioMore.wStore in
  let sorted := sortStrings matches in
  let k := Z.to_nat (Z.of_nat (length matches) - maxVersions bm) in
  exists w', cleanOldVersions bm "/bk/a.txt_versions" "a" ".txt" w = (Returned None, w') /\
    (forall q, q ∈ take k sorted -> fs w' !! q = None) /\
    (forall q, q ∉ take k sorted -> fs w' !! q = fs w !! q) /\
    events w' = events w ++
      flat_map (fun p => [EvRemove p;
                          EvLog (LogInfo ("	Removed old version: " +:+ Filepath.Base p))])
               (take k sorted) /\
    Z.of_nat (length (drop k sorted)) <= maxVersions bm /\
    (forall x y, x ∈ take k sorted -> y ∈ drop k sorted -> String.leb x y = true).
Proof.
  apply (cleanOldVersions_evicts_oldest Scenario.bm1 "/bk/a.txt_versions" "a" ".txt"
           ScenarioMore.wStore ScenarioMore.storedVersions).
  - vm_compute. reflexivity.
  - cbn. lia.
  - int64_range.
  - apply (bool_decide_unpack _). vm_compute. exact I.
  - apply Forall_forall. repeat constructor; eexists _, _; vm_compute; reflexivity.
Defined.

(** The read/write loop writes to the destination only. *)
Lemma copyLoop_frame src dst chunks : forall i w q,
  q <> dst -> fs (snd (copyLoop src dst chunks i w)) !! q = fs w !! q.
Proof.
  induction chunks as [|buf rest IH]; intros i w q Hq; cbn [copyLoop].
  - destruct (fault w (SysRead i) src) as [err|]; [by destruct (String.eqb _ _)|done].
  - destruct (fault w (SysRead i) src) as [err|]; [by destruct (String.eqb _ _)|].
    unfold Write. destruct (fault w (SysWrite i) dst); [done|].
    destruct (fs w !! dst) as [[c m|m]|]; [|done|done].
    rewrite IH by done. cbn [setFs fs]. by rewrite lookup_insert_ne.
Qed.

Lemma copyLoop_events src dst chunks : forall i w,
  events (snd (copyLoop src dst chunks i w)) = events w.
Proof.
  induction chunks as [|buf rest IH]; intros i w; cbn [copyLoop].
  - destruct (fault w (SysRead i) src) as [err|]; [by destruct (String.eqb _ _)|done].
  - destruct (fault w (SysRead i) src) as [err|]; [by destruct (String.eqb _ _)|].
    unfold Write. destruct (fault w (SysWrite i) dst); [done|].
    destruct (fs w !! dst) as [[c m|m]|]; [|done|done].
    by rewrite IH.
Qed.

(** One attempt writes to the destination only, and adds itself to the
    history. *)
Lemma copyAttempt_frame src dst w q :
  q <> dst -> fs (snd (copyAttempt src dst w)) !! q = fs w !! q.
Proof.
  intros Hq. unfold copyAttempt.
  destruct (Stat _ src) as [err|srcInfo]; [done|].
  destruct (IsDir srcInfo); [done|].
  destruct (Open _ src); [done|].
  destruct (Create _ dst) as [err|w1] eqn:Hcreate; [done|].
  assert (fs w1 !! q = fs w !! q) as H1.
  { unfold Create in Hcreate. destruct (fault _ SysCreate dst); [done|].
    destruct (if String.eqb (parent dst) "" then _ else _); [done|].
    destruct (fs _ !! dst) as [[c m|m]|]; simplify_eq; cbn [setFs emit fs];
      by rewrite lookup_insert_ne. }
  cbn zeta.
  pose proof (copyLoop_frame src dst (chunksOf (length (contentOf w1 src)) (contentOf w1 src))
                O w1 q Hq) as H2.
  destruct (copyLoop src dst _ O w1) as [[e|] w2]; cbn [snd] in H2 |- *; [by rewrite H2|].
  unfold Chmod. destruct (fault w2 SysChmod dst); [by rewrite <- H1, <- H2|].
  destruct (fs w2 !! dst) as [[c m|m]|]; cbn [snd setFs fs]; rewrite ?lookup_insert_ne by done;
    by rewrite <- H1, <- H2.
Qed.

(** X27. Whatever fails, and however often it tries again, SafeCopyFile
    changes no path other than the destination. *)
Theorem SafeCopyFile_frame src dst maxRetries w q :
  q <> dst ->
  fs (final (SafeCopyFile src dst maxRetries w)) !! q = fs w !! q.
Proof.
  intros Hq. unfold SafeCopyFile, RetryWithBackoff.
  apply (retryLoop_invariant (fun s => fs s !! q = fs w !! q)); [|done].
  intros s Hs. by rewrite copyAttempt_frame.
Qed.

Lemma SafeCopyFile_frame_witness :
  fs (final (SafeCopyFile "/src/a.txt" "/bk/a.txt" 3 Scenario.wReadFault)) !! "/src/b.tmp"%string =
    fs Scenario.wReadFault !! "/src/b.tmp"%string.
Proof.
  apply (SafeCopyFile_frame "/src/a.txt" "/bk/a.txt" 3 Scenario.wReadFault "/src/b.tmp").
  discriminate.
Defined.

Lemma removeLoop_frame sorted todo : forall i w,
  let r := removeLoop sorted todo i w in
  (exists l, events (snd r) = events w ++ l) /\
  forall q, fs (snd r) !! q = fs w !! q \/
            (fs (snd r) !! q = None /\ EvRemove q ∈ events (snd r)).
Proof.
  induction todo as [|todo IH]; intros i w; cbn zeta; cbn [removeLoop].
  - split; [exists []; by rewrite app_nil_r|by left].
  - destruct (sorted !! i) as [path|]; [|split; [exists []; by rewrite app_nil_r|by left]].
    destruct (Remove w path) as [err|w1] eqn:Hrm;
      [split; [exists []; by rewrite app_nil_r|by left]|].
    apply Remove_inr in Hrm as (_ & _ & Hfs & Hev).
    set (w2 := emit w1 _).
    destruct (IH (Datatypes.S i) w2) as [[l Hl] Hq].
    assert (events w2 = events w ++ [EvRemove path;
              EvLog (LogInfo ("	Removed old version: " +:+ Filepath.Base path))]) as Hev2.
    { subst w2. cbn [emit events]. rewrite Hev, <- app_assoc. done. }
    split.
    + eexists. rewrite Hl, Hev2, <- app_assoc. done.
    + intros q. destruct (Hq q) as [Hsame|Hgone]; [|by right].
      destruct (decide (q = path)) as [->|Hne].
      * right. rewrite Hsame. subst w2. cbn [emit fs]. rewrite Hfs, lookup_delete_eq.
        split; [done|]. rewrite Hl, Hev2. apply elem_of_app. left. apply elem_of_app. right.
        by left.
      * left. rewrite Hsame. subst w2. cbn [emit fs]. rewrite Hfs. by rewrite lookup_delete_ne.
Qed.

Lemma cleanOldVersions_frame bm dir baseName ext w :
  let r := cleanOldVersions bm dir baseName ext w in
  forall q, fs (snd r) !! q = fs w !! q \/
            (fs (snd r) !! q = None /\ EvRemove q ∈ events (snd r)).
Proof.
  cbn zeta. unfold cleanOldVersions.
  destruct (Glob w _) as [err|matches]; [by left|].
  destruct (Z.of_nat (length matches) <=? maxVersions bm); [by left|].
  apply removeLoop_frame.
Qed.

(** X28. CreateBackup never overwrites what is there, apart from the version
    path it writes to: whatever it returns, and also when it panics, every
    entry that existed before (another path than the version path) is
    exactly as it was, or it was deleted by the cleaning and its deletion is
    in the history. *)
Theorem CreateBackup_frame bm sourcePath sourceDir w q n :
  fs w !! q = Some n ->
  (forall relPath, Filepath.Rel sourceDir sourcePath = inr relPath ->
     q <> backupPathOf bm relPath (clock w (ticks w))) ->
  let r := CreateBackup bm sourcePath sourceDir w in
  fs (snd r) !! q = Some n \/
  (fs (snd r) !! q = None /\ EvRemove q ∈ events (snd r)).
Proof.
  intros Hq Hnot. cbn zeta. unfold CreateBackup.
  destruct (osIsNotExist _); [by left|].
  destruct (Filepath.Rel sourceDir sourcePath) as [err|relPath]; [by left|].
  specialize (Hnot relPath eq_refl). cbn [Now].
  set (w0 := mkWorld _ _ _ _ _ _).
  destruct (MkdirAll_keeps (fileVersionDirOf bm relPath) 493 w0) as (_ & _ & _ & _ & Hk).
  destruct (MkdirAll _ 493 w0) as [[err|] w1]; cbn [snd] in Hk.
  { left. rewrite Hk by (by eexists). done. }
  fold (backupPathOf bm relPath (clock w (ticks w))).
  assert (fs (final (SafeCopyFile sourcePath (backupPathOf bm relPath (clock w (ticks w))) 3 w1))
            !! q = fs w1 !! q) as Hcopy.
  { unfold SafeCopyFile, RetryWithBackoff.
    apply (retryLoop_invariant (fun s => fs s !! q = fs w1 !! q)); [|done].
    intros s Hs. by rewrite copyAttempt_frame. }
  assert (fs (final (SafeCopyFile sourcePath (backupPathOf bm relPath (clock w (ticks w))) 3 w1))
            !! q = Some n) as Hq2.
  { rewrite Hcopy, Hk by (by eexists). done. }
  destruct (result _) as [err|]; [by left|].
  set (w2 := emit _ _).
  pose proof (cleanOldVersions_frame bm (fileVersionDirOf bm relPath) (nameWithoutExtOf relPath)
                (extOf relPath) w2 q) as Hclean.
  destruct (cleanOldVersions _ _ _ _ w2) as [[[err|]|msg] w3]; cbn [snd] in *;
    (destruct Hclean as [Hsame|Hgone]; [left; by rewrite Hsame|by right]).
Qed.

Lemma CreateBackup_frame_witness :
  let r := CreateBackup Scenario.bm1 "/src/a.txt" "/src" Scenario.wEvict in
  let q := "/bk/a.txt_versions/a_20231114_221315.000000.txt"%string in
  fs (snd r) !! q = Some (File [] 420) \/
  (fs (snd r) !! q = None /\ EvRemove q ∈ events (snd r)).
Proof.
  apply (CreateBackup_frame Scenario.bm1 "/src/a.txt" "/src" Scenario.wEvict
           "/bk/a.txt_versions/a_20231114_221315.000000.txt" (File [] 420)).
  - reflexivity.
  - intros relPath H. assert (relPath = "a.txt"%string) as ->.
    { vm_compute in H. by injection H as <-. }
    vm_compute. discriminate.
Defined.

End BackupMore.

(** ** watcher/watcher.go: registering the directories *)

Module WalkMore.
Import OS Config Watcher WatcherFacts WatcherLoop Relations.

Lemma registers_refl addErr w fw : registers addErr w fw fw [].
Proof. split; [destruct fw; cbn; by rewrite app_nil_r|constructor]. Qed.

Lemma registers_trans addErr w fw1 fw2 fw3 l1 l2 :
  registers addErr w fw1 fw2 l1 -> registers addErr w fw2 fw3 l2 ->
  registers addErr w fw1 fw3 (l1 ++ l2).
Proof.
  intros [-> H1] [-> H2]. split; [cbn; by rewrite app_assoc|].
  apply Forall_app. split; [done|]. eapply Forall_impl; [exact H2|]. done.
Qed.

Lemma visit_registers addErr w fw path arg :
  exists added, registers addErr w fw (snd (visit addErr w fw path arg)) added /\
    (added = [] \/ added = [path] /\ fst (visit addErr w fw path arg) = WalkNil).
Proof.
  unfold visit. destruct arg as [info|info err].
  - destruct (shouldIgnore fw path) eqn:Hi.
    + exists []. split; [|by left]. destruct (IsDir info); apply registers_refl.
    + destruct (isDir w path) eqn:Hd.
      * destruct (addErr path) eqn:Ha.
        -- exists []. split; [apply registers_refl|by left].
        -- exists [path]. split; [|by right]. split; [done|]. by repeat constructor.
      * exists []. split; [apply registers_refl|by left].
  - exists []. split; [apply registers_refl|by left].
Qed.

Lemma walk_registers addErr w fuel : forall path info fw,
  exists added, registers addErr w fw (snd (walk fuel addErr w path info fw)) added /\
    forall fuel', fuel = Datatypes.S fuel' ->
      IsDir info = true -> Open w path = None -> shouldIgnore fw path = false ->
      isDir w path = true -> addErr path = None ->
      exists more, added = path :: more.
Proof.
  induction fuel as [|fuel IH]; intros path info fw; cbn [walk].
  - exists []. split; [apply registers_refl|done].
  - destruct (IsDir info) eqn:Hdir; cbn [negb]; cycle 1.
    { destruct (visit_registers addErr w fw path (Found info)) as (added & H & _).
      exists added. split; [done|]. done. }
    destruct (Open w path) as [e|] eqn:Hopen.
    { exists []. split; [apply registers_refl|done]. }
    assert (exists added1, registers addErr w fw (snd (visit addErr w fw path (Found info))) added1 /\
              (shouldIgnore fw path = false -> isDir w path = true -> addErr path = None ->
               added1 = [path])) as (added1 & H1 & Hroot).
    { unfold visit. destruct (shouldIgnore fw path) eqn:Hi.
      - exists []. split; [|done]. destruct (IsDir info); apply registers_refl.
      - destruct (isDir w path) eqn:Hd.
        + destruct (addErr path) eqn:Ha.
          * exists []. split; [apply registers_refl|done].
          * exists [path]. split; [|done]. split; [done|]. by repeat constructor.
        + exists []. split; [apply registers_refl|done]. }
    destruct (visit addErr w fw path (Found info)) as [err1 fw1]. cbn [snd] in H1.
    assert (forall names fw1 added1, registers addErr w fw fw1 added1 ->
      exists added,
        registers addErr w fw
          (snd ((fix entries (names : list string) (fw : FileWatcher) : walkErr * FileWatcher :=
               match names with
               | [] => (WalkNil, fw)
               | name :: rest =>
                   let filename := Filepath.Join path name in
                   match Lstat w filename with
                   | inl e =>
                       match visit addErr w fw filename (Failed None e) with
                       | (WalkError e', fw') => (WalkError e', fw')
                       | (_, fw') => entries rest fw'
                       end
                   | inr fileInfo =>
                       match walk fuel addErr w filename fileInfo fw with
                       | (WalkNil, fw') => entries rest fw'
                       | (SkipDir, fw') =>
                           if IsDir fileInfo then entries rest fw' else (SkipDir, fw')
                       | (WalkError e', fw') => (WalkError e', fw')
                       end
                   end
               end) names fw1)) added /\
        exists more, added = added1 ++ more) as Hloop.
    { clear fw1 added1 H1 Hroot. induction names as [|name rest IHn]; intros fw1 added1 H1.
      - exists added1. split; [done|]. exists []. by rewrite app_nil_r.
      - cbn zeta. destruct (Lstat w (Filepath.Join path name)) as [e|fileInfo].
        + cbn [visit]. exists added1. split; [done|]. exists []. by rewrite app_nil_r.
        + destruct (IH (Filepath.Join path name) fileInfo fw1) as (added2 & H2 & _).
          assert (exists added, registers addErr w fw fw1 added /\ exists more, added = added1 ++ more)
            as Hstop by (exists added1; split; [done|]; exists []; by rewrite app_nil_r).
          destruct (walk fuel addErr w (Filepath.Join path name) fileInfo fw1) as [[| |e'] fw2];
            cbn [snd] in H2.
          * destruct (IHn fw2 (added1 ++ added2)) as (added & H & more & ->);
              [by eapply registers_trans|].
            exists ((added1 ++ added2) ++ more). split; [done|].
            exists (added2 ++ more). by rewrite app_assoc.
          * destruct (IsDir fileInfo).
            -- destruct (IHn fw2 (added1 ++ added2)) as (added & H & more & ->);
                 [by eapply registers_trans|].
               exists ((added1 ++ added2) ++ more). split; [done|].
               exists (added2 ++ more). by rewrite app_assoc.
            -- exists (added1 ++ added2). split; [by eapply registers_trans|]. by exists added2.
          * exists (added1 ++ added2). split; [by eapply registers_trans|]. by exists added2. }
    destruct err1.
    + destruct (Hloop (readDirNames w path) fw1 added1 H1) as (added & H & more & ->).
      exists (added1 ++ more). split; [done|].
      intros fuel' _ _ _ Hi Hd Ha. rewrite (Hroot Hi Hd Ha). by exists more.
    + exists added1. split; [done|]. intros fuel' _ _ _ Hi Hd Ha. rewrite (Hroot Hi Hd Ha). by exists [].
    + exists added1. split; [done|]. intros fuel' _ _ _ Hi Hd Ha. rewrite (Hroot Hi Hd Ha). by exists [].
Qed.

(** X20. What addDirectoryRecursive registers, whatever it returns: it
    only appends to the registered directories, and every path it appends is
    an existing directory that is not ignored and that fsnotify accepted; it
    touches neither the queue nor the debounce map.  When the root is such a
    directory and can be read, the root is the first path appended. *)
Theorem addDirectoryRecursive_registers addErr w fw path :
  let r := addDirectoryRecursive addErr w fw path in
  exists added,
    watched (snd r) = watched fw ++ added /\
    backupQueue (snd r) = backupQueue fw /\ lastBackup (snd r) = lastBackup fw /\
    (forall p, p ∈ added ->
       isDir w p = true /\ shouldIgnore fw p = false /\ addErr p = None) /\
    (isDir w path = true -> shouldIgnore fw path = false -> addErr path = None ->
     Open w path = None -> exists more, added = path :: more).
Proof.
  cbn zeta. unfold addDirectoryRecursive, Walk.
  destruct (Lstat w path) as [e|info] eqn:Hl.
  - cbn [visit snd]. exists []. rewrite app_nil_r. do 3 (split; [done|]). split.
    + intros p Hp. by apply elem_of_nil in Hp.
    + intros Hd. unfold isDir in Hd. by rewrite Hl in Hd.
  - destruct (walk_registers addErr w (Datatypes.S (size (fs w))) path info fw)
      as (added & [Hfw Hall] & Hroot).
    destruct (walk _ addErr w path info fw) as [err fw']. cbn [snd] in Hfw.
    assert (snd (match err with
                 | WalkNil | SkipDir => (None, fw')
                 | WalkError e => (Some e, fw')
                 end) = fw') as -> by (by destruct err).
    exists added. rewrite Hfw. cbn. split; [done|]. split; [done|]. split; [done|].
    split; [by apply Forall_forall|].
    intros Hd Hi Ha Ho. apply (Hroot _ eq_refl); try done.
    unfold isDir in Hd. by rewrite Hl in Hd.
Qed.

(** X21. Start with a source path that is a regular file, or a readable
    directory that the ignore patterns match: addDirectoryRecursive returns
    nil, so Start goes on without an error, with no directory registered. *)
Theorem Start_unwatched_root addErr w fw info :
  let root := SourceDir (config fw) in
  Lstat w root = inr info ->
  IsDir info = false \/ (shouldIgnore fw root = true /\ Open w root = None) ->
  Start addErr w fw = inr fw.
Proof.
  intros root Hl Hcase. unfold Start, addDirectoryRecursive, Walk. fold root. rewrite Hl.
  cbn [walk]. destruct (IsDir info) eqn:Hd; cbn [negb].
  - destruct Hcase as [?|[Hi Ho]]; [done|].
    rewrite Ho. cbn [visit]. by rewrite Hi, Hd.
  - cbn [visit]. rewrite Hd. destruct (shouldIgnore fw root); [done|].
    unfold isDir. by rewrite Hl, Hd.
Qed.

Lemma Start_unwatched_root_witness :
  Start ScenarioMore.addOk Scenario.w0 ScenarioMore.fwFile = inr ScenarioMore.fwFile.
Proof.
  apply (Start_unwatched_root ScenarioMore.addOk Scenario.w0 ScenarioMore.fwFile
           (File [Byte.x61] 420)).
  - reflexivity.
  - by left.
Defined.



(** X23. Start with a source directory that is readable and not ignored but
    that fsnotify refuses to watch returns fsnotify's error wrapped in
    "error adding directory". *)
Theorem Start_add_refused addErr w fw e :
  let root := SourceDir (config fw) in
  isDir w root = true -> shouldIgnore fw root = false -> Open w root = None ->
  addErr root = Some e ->
  Start addErr w fw = inl (Wrapf "error adding directory" e).
Proof.
  intros root Hd Hi Ho Ha. unfold Start, addDirectoryRecursive, Walk. fold root.
  unfold isDir in Hd. destruct (Lstat w root) as [|info] eqn:Hl; [done|].
  cbn [walk]. rewrite Hd, Ho. cbn [negb visit]. rewrite Hi.
  unfold isDir. by rewrite Hl, Hd, Ha.
Qed.

Lemma Start_add_refused_witness :
  Start ScenarioMore.addRefused Scenario.w0 Scenario.fw0 =
    inl (Wrapf "error adding directory" (Errno KOther "no space left on device")).
Proof.
  apply (Start_add_refused ScenarioMore.addRefused Scenario.w0 Scenario.fw0
           (Errno KOther "no space left on device")); reflexivity.
Defined.

End WalkMore.

(** ** watcher/watcher.go: the workers *)

Module WorkerMore.
Import OS Config Watcher Backup BackupFacts Worker.

(** The loop over two batches of jobs is the loop over the first, then, if
    that did not panic, the loop over the second. *)
Lemma workerLoop_app fw id jobs1 : forall jobs2 w st,
  let r1 := workerLoop fw id jobs1 w st in
  workerLoop fw id (jobs1 ++ jobs2) w st =
    match recovered r1 with
    | None => workerLoop fw id jobs2 (world r1) (started r1)
    | Some _ => r1
    end.
Proof.
  induction jobs1 as [|job jobs1 IH]; intros jobs2 w st; cbn zeta; [done|].
  cbn [app workerLoop].
  destruct (CreateBackup _ _ _ w) as [[[err|]|msg] w']; [apply IH|apply IH|done].
Qed.

Lemma workerLoop_started fw id jobs : forall w st,
  let r := workerLoop fw id jobs w st in
  match recovered r with
  | None => started r = st ++ map nameOf jobs
  | Some _ => exists n, (n < length jobs)%nat /\ started r = st ++ map nameOf (take (Datatypes.S n) jobs)
  end.
Proof.
  induction jobs as [|job jobs IH]; intros w st; cbn zeta; cbn [workerLoop].
  - cbn. by rewrite app_nil_r.
  - assert (forall w', let r := workerLoop fw id jobs w' (st ++ [nameOf job]) in
              match recovered r with
              | None => started r = st ++ map nameOf (job :: jobs)
              | Some _ => exists n, (n < length (job :: jobs))%nat /\
                            started r = st ++ map nameOf (take (Datatypes.S n) (job :: jobs))
              end) as Hrest.
    { intros w'. specialize (IH w' (st ++ [nameOf job])). cbn zeta in *.
      destruct (recovered _).
      - destruct IH as (n & Hn & ->). exists (Datatypes.S n). split; [cbn; lia|].
        cbn [take map]. by rewrite <- app_assoc.
      - rewrite IH. cbn [map]. by rewrite <- app_assoc. }
    destruct (CreateBackup _ _ _ w) as [[[err|]|msg] w']; [apply Hrest|apply Hrest|].
    cbn. exists O. split; [lia|]. by rewrite take_0.
Qed.

(** X24. A worker and the jobs it receives: unless a backup panics, the
    worker announces every job, in order, whatever errors the backups return;
    when one panics, the worker has announced the jobs up to that one and no
    further, and the last thing it did is to log "PANIC in Worker #<id>:
    <value>". *)
Theorem backupWorker_started fw id jobs w :
  let r := backupWorker fw id jobs w in
  match recovered r with
  | None => started r = map nameOf jobs
  | Some msg =>
      (exists n, (n < length jobs)%nat /\ started r = map nameOf (take (Datatypes.S n) jobs)) /\
      last (events (world r)) =
        Some (EvLog (LogError ("PANIC in Worker #" +:+ formatInt id +:+ ": " +:+ msg)))
  end.
Proof.
  cbn zeta. unfold backupWorker.
  pose proof (workerLoop_started fw id jobs w []) as H. cbn zeta in H.
  destruct (recovered (workerLoop fw id jobs w [])) as [msg|] eqn:Hr.
  - cbn [recovered started world emit events]. split; [done|]. by rewrite last_snoc.
  - by rewrite Hr.
Qed.



(** X26. A panic inside CreateBackup ends the worker: when the jobs before
    it went through without a panic and the backup of the next job panics,
    the worker logs the panic after what that backup had done and stops; the
    jobs after it are never announced, and the result is the same whatever
    they are. *)
Theorem backupWorker_panic_ends fw id jobs1 job jobs2 w msg :
  let r1 := backupWorker fw id jobs1 w in
  let run := CreateBackup (managerOf fw) (FilePath job) (SourceDir (config fw)) (world r1) in
  recovered r1 = None ->
  fst run = Panicked msg ->
  let r := backupWorker fw id (jobs1 ++ job :: jobs2) w in
  recovered r = Some msg /\
  started r = map nameOf (jobs1 ++ [job]) /\
  world r = emit (snd run)
              (EvLog (LogError ("PANIC in Worker #" +:+ formatInt id +:+ ": " +:+ msg))).
Proof.
  cbn zeta. unfold backupWorker.
  pose proof (workerLoop_started fw id jobs1 w []) as Hst. cbn zeta in Hst.
  destruct (recovered (workerLoop fw id jobs1 w [])) eqn:Hr1; [done|]. intros _ Hp.
  pose proof (workerLoop_app fw id jobs1 (job :: jobs2) w []) as Happ. cbn zeta in Happ.
  rewrite Hr1 in Happ. rewrite Happ. cbn [workerLoop].
  destruct (CreateBackup _ _ _ _) as [o w']. cbn [fst snd] in *. subst o.
  cbn [recovered started world]. rewrite Hst, map_app. done.
Qed.

Lemma backupWorker_panic_ends_witness :
  let fw := ScenarioMore.fwNegative in
  let job := ScenarioMore.jobA in
  let r1 := backupWorker fw 1 [] Scenario.w0 in
  let run := CreateBackup (managerOf fw) (FilePath job) (SourceDir (config fw)) (world r1) in
  let r := backupWorker fw 1 ([] ++ job :: [ScenarioMore.jobGone]) Scenario.w0 in
  recovered r = Some "index out of range"%string /\
  started r = map nameOf ([] ++ [job]) /\
  world r = emit (snd run)
              (EvLog (LogError ("PANIC in Worker #" +:+ formatInt 1 +:+ ": " +:+
                                "index out of range"))).
Proof.
  apply (backupWorker_panic_ends ScenarioMore.fwNegative 1 [] ScenarioMore.jobA
           [ScenarioMore.jobGone] Scenario.w0 "index out of range").
  - reflexivity.
  - vm_compute. reflexivity.
Defined.

End WorkerMore.
